(** * XKC: a shallow embedding of the XKLib compressor (xkc.h)

    The codec collapses the input into runs, builds a frequency-ordered
    alphabet, inserts the alphabet into a count-balanced binary tree and
    writes, for every input symbol, the depth of its node followed by the
    left/right path that leads to it.  The definitions below follow
    [XLib::XKC<alphabet_T>] function by function.

    Conventions of the embedding:
    - buffers ([bytes_t], [data_t] with its size) are lists of bytes; every
      integer of the program is a [Z], and the reductions the C++ types
      perform are written out where a value can leave its type: the
      conversion to [byte_t], the [size_t] frequency, the [uint32_t] bit
      counter, the conversion of a node value to [alphabet_T];
    - [1 << k] is [Z.shiftl 1 k]; the C++ expression is an [int], so the two
      agree for [k < 31], which is what [bits_needed_contract] grants for
      the depth bits (the bit cursors are below 8);
    - [bit_path_t] is [std::bitset<std::numeric_limits<alphabet_T>::max() + 1>]:
      256 bits for one-byte symbols, 65536 bits for two-byte symbols, and no
      bit at all for four-byte symbols, where the sum wraps to 0
      ([bit_path_size]).  A bitset is the integer of its bits and
      [bit_path[i]] is bit [i] of that integer, which is what the code does
      as long as [i] is below the size of the bitset.  The indices the code
      uses are depths of the tree.  The statements that rest on a result of
      [path_info], [method1] or [encode] are therefore made for trees whose
      height is below [bit_path_size]: that is every tree [encode] builds
      from one- or two-byte symbols ([bit_path_index_in_range]), and no
      tree of four-byte symbols, on which the embedding says nothing once a
      bit of the path is touched;
    - a read outside the buffer and a dereference of [nullptr] have no
      defined result: [decode] and [find_value] return an [option];
    - [std::sort] and [BitsNeeded] are not part of xkc.h: [encode] takes them
      as parameters, and the properties assume their contracts
      ([sort_contract], [bits_needed_contract]).  [Libstdcxx.sort] is
      [std::sort] as libstdc++ implements it; it shows what the code does
      with letters of equal frequency, and it meets the contract on at
      most sixteen letters ([libstdcxx_sort_small_contract]). *)

From Stdlib Require Import ZArith List Lia Bool Permutation Sorted.
From Stdlib Require Import Strings.Byte.
Import ListNotations.
Open Scope Z_scope.

Set Implicit Arguments.

(** ** bits.h *)

Module Bits.

(** Modelled from the spec: [BitsNeeded] lives in bits.h, which is not part
    of the sources at hand.  The specification describes it as the "number
    of bits needed to represent" its argument, with
    [2^bits - 1 >= argument]: the least such number of bits.  On 0 this
    gives 0; the properties that do not depend on that value are stated for
    every function that meets [bits_needed_contract]. *)
Definition BitsNeeded (max_value : Z) : Z := Z.log2_up (max_value + 1).

End Bits.

(** ** Bytes and fixed-width integers *)

(** The numeric value of a [byte_t]. *)
Definition Z_of_byte (b : byte) : Z := Z.of_N (Byte.to_N b).

(** [view_as<byte_t>(z)], and the implicit conversion done by
    [bytes_t::push_back]: keep the low eight bits. *)
Definition view_as_byte_t (z : Z) : byte :=
  match Byte.of_N (Z.to_N (z mod 256)) with
  | Some b => b
  | None => x00
  end.

Definition wrap_size_t (z : Z) : Z := z mod 2 ^ 64.
Definition wrap_uint32_t (z : Z) : Z := z mod 2 ^ 32.

(** [for (size_t i = 0; i < n; i++) s = body(i, s)] *)
Fixpoint for_loop_from {S : Type} (steps : nat) (i : Z) (body : Z -> S -> S) (s : S) : S :=
  match steps with
  | O => s
  | Datatypes.S k => for_loop_from k (i + 1) body (body i s)
  end.

Definition for_loop {S : Type} (n : Z) (body : Z -> S -> S) (s : S) : S :=
  for_loop_from (Z.to_nat n) 0 body s.

(** ** Data model *)

Record Occurrence : Type := mkOccurrence { letter_value : Z; count : Z }.

Record Letter : Type := mkLetter { value : Z; freq : Z }.

(** [bit_path] is the [std::bitset]: bit [i] of the integer is [bit_path[i]]. *)
Record PathInfo : Type := mkPathInfo { bit_path : Z; depth : Z }.

(** The number of bits of [bit_path_t], which is
    [std::bitset<std::numeric_limits<alphabet_T>::max() + 1>].  For
    [uint8_t] and [uint16_t] the sum is an [int]: 256 and 65536.  For
    [uint32_t] it is an [unsigned int] and wraps to 0: the bitset has no
    bit, and [bit_path[i]] is out of range for every [i]. *)
Definition bit_path_size (sizeof_alphabet_T : nat) : Z :=
  match sizeof_alphabet_T with
  | 1%nat => 256
  | 2%nat => 65536
  | _ => 0
  end.

Definition PathInfo_default : PathInfo := mkPathInfo 0 0.

(** [pathInfo.bit_path[i] = b], for an index [i] of the bitset
    ([i < bit_path_size]); outside the bitset the assignment has no
    defined effect, and the embedding does not follow the code there. *)
Definition set_bit_path (pathInfo : PathInfo) (i : Z) (b : bool) : PathInfo :=
  mkPathInfo (if b then Z.setbit (bit_path pathInfo) i else Z.clearbit (bit_path pathInfo) i)
             (depth pathInfo).

Definition set_depth (pathInfo : PathInfo) (d : Z) : PathInfo :=
  mkPathInfo (bit_path pathInfo) d.

(** A [shared_node] is either [nullptr] or points to a node with a value
    and two children.  The [parent] and [root] back-references of the C++
    node are only used by [Node::depth()], which counts the ancestors of
    a node; the functions that need it carry that number along as they
    descend. *)
Inductive shared_node : Type :=
| nullptr : shared_node
| Node (node_value : Z) (l r : shared_node) : shared_node.

Definition INVALID : Z := -1.

(** ** BinaryTree *)

Fixpoint count_nodes (n : shared_node) : Z :=
  match n with
  | nullptr => 0
  | Node _ l r =>
      (match l with nullptr => 0 | Node _ _ _ => count_nodes l + 1 end)
      + (match r with nullptr => 0 | Node _ _ _ => count_nodes r + 1 end)
  end.

Fixpoint height (n : shared_node) : Z :=
  match n with
  | nullptr => 0
  | Node _ l r =>
      Z.max (match l with nullptr => 0 | Node _ _ _ => height l + 1 end)
            (match r with nullptr => 0 | Node _ _ _ => height r + 1 end)
  end.

(** [BinaryTree::BinaryTree()] : a root node holding [INVALID]. *)
Definition BinaryTree_new : shared_node := Node INVALID nullptr nullptr.

(** [insert(shared_node parent, alphabet_T value)]; [parent] is never null. *)
Fixpoint insert_at (parent : shared_node) (v : Z) : shared_node :=
  match parent with
  | nullptr => nullptr
  | Node pv l r =>
      match l with
      | nullptr => Node pv (Node v nullptr nullptr) r
      | Node _ _ _ =>
          match r with
          | nullptr => Node pv l (Node v nullptr nullptr)
          | Node _ _ _ =>
              if count_nodes l <=? count_nodes r
              then Node pv (insert_at l v) r
              else Node pv l (insert_at r v)
          end
      end
  end.

(** [insert(alphabet_T value)] *)
Definition insert (root : shared_node) (v : Z) : shared_node :=
  match root with
  | nullptr => nullptr
  | Node rv l r =>
      if rv =? INVALID then Node v l r else insert_at root v
  end.

(** [path_info(PathInfo&, shared_node parent, alphabet_T value)].  The
    argument [d] is [parent->depth()]; the updated [PathInfo] is returned
    next to the boolean.  The function writes [bit_path[d]] at the nodes it
    comes back from, so it is the function of the code on trees whose
    height is below [bit_path_size] (see [set_bit_path]). *)
Fixpoint path_info_at (pathInfo : PathInfo) (parent : shared_node) (d : Z) (v : Z)
  : bool * PathInfo :=
  match parent with
  | nullptr => (false, pathInfo)
  | Node pv l r =>
      if pv =? v then (true, set_depth pathInfo d)
      else
        let (found_left, p1) := path_info_at pathInfo l (d + 1) v in
        if found_left then (true, set_bit_path p1 d false)
        else
          let p2 := set_bit_path p1 d true in
          let (found_right, p3) := path_info_at p2 r (d + 1) v in
          if found_right then (true, set_bit_path p3 d true)
          else (found_right, set_bit_path p3 d false)
  end.

Definition path_info (pathInfo : PathInfo) (root : shared_node) (v : Z) : bool * PathInfo :=
  path_info_at pathInfo root 0 v.

(** The loop of [find_value]: [steps] iterations starting at index [d].
    Following a child of a null node is a null dereference: [None]. *)
Fixpoint find_node (steps : nat) (d : Z) (bits : Z) (current_node : shared_node)
  : option shared_node :=
  match steps with
  | O => Some current_node
  | S k =>
      match current_node with
      | nullptr => None
      | Node _ l r =>
          find_node k (d + 1) bits (if Z.testbit bits d then r else l)
      end
  end.

Section XKC.

(** [sizeof(alphabet_T)]: 1, 2 or 4. *)
Variable sizeof_alphabet_T : nat.

(** bits.h is not available: the codec is parametric in [BitsNeeded]. *)
Variable BitsNeeded : Z -> Z.

(** [std::sort]: any function that meets its contract (see [sort_contract]). *)
Variable std_sort : list Letter -> list Letter.

(** Conversion of a [value_t] to [alphabet_T]. *)
Definition view_as_alphabet_T (z : Z) : Z := z mod 2 ^ (8 * Z.of_nat sizeof_alphabet_T).

(** [find_value(PathInfoResult&)]: the value stored in [letter_value]. *)
Definition find_value (root : shared_node) (pathInfo : PathInfo) : option Z :=
  match find_node (Z.to_nat (depth pathInfo)) 0 (bit_path pathInfo) root with
  | Some (Node v _ _) => Some (view_as_alphabet_T v)
  | _ => None
  end.

(** *** encode *)

(** One little-endian [alphabet_T] read from the start of a buffer. *)
Fixpoint little_endian (bs : list byte) : Z :=
  match bs with
  | [] => 0
  | b :: rest => Z_of_byte b + 256 * little_endian rest
  end.

(** [values[0 .. max_values)] for [values = view_as<alphabet_T*>(data)]. *)
Fixpoint view_as_values (max_values : nat) (data : list byte) : list Z :=
  match max_values with
  | O => []
  | S k => little_endian (firstn sizeof_alphabet_T data)
           :: view_as_values k (skipn sizeof_alphabet_T data)
  end.

(** The run-length loops.  [run_from v c rest] is the state of the inner
    [for] loop: the current occurrence has letter [v] and count [c], and
    [rest] are the values from [value_index] on. *)
Fixpoint run_from (v : Z) (c : Z) (rest : list Z) : list Occurrence :=
  match rest with
  | [] => [mkOccurrence v c]
  | x :: rest' =>
      if c =? 255 then mkOccurrence v c :: run_from x 1 rest'
      else if negb (v =? x) then mkOccurrence v c :: run_from x 1 rest'
      else run_from v (c + 1) rest'
  end.

Definition store_contiguous (values : list Z) : list Occurrence :=
  match values with
  | [] => []
  | x :: rest => run_from x 1 rest
  end.

(** One iteration of "Construct the alphabet": [std::find_if] then
    [freq += count] or [push_back]. *)
Fixpoint add_occurrence (alphabet : list Letter) (o : Occurrence) : list Letter :=
  match alphabet with
  | [] => [mkLetter (letter_value o) (count o)]
  | a :: rest =>
      if letter_value o =? value a
      then mkLetter (value a) (wrap_size_t (freq a + count o)) :: rest
      else a :: add_occurrence rest o
  end.

Definition construct_alphabet (occurrences : list Occurrence) : list Letter :=
  fold_left add_occurrence occurrences [].

Definition build_tree (alphabet : list Letter) : shared_node :=
  fold_left (fun t l => insert t (value l)) alphabet BinaryTree_new.

(** The variables captured by [check_bit] and [write_bit]. *)
Record Writer : Type := mkWriter {
  result : list byte;
  result_byte : Z;
  written_bits_on_result_byte : Z;
  written_bits : Z
}.

Definition check_bit (w : Writer) : Writer :=
  let on_byte := written_bits_on_result_byte w + 1 in
  let total := wrap_uint32_t (written_bits w + 1) in
  if on_byte =? 8
  then mkWriter (result w ++ [view_as_byte_t (result_byte w)]) 0 0 total
  else mkWriter (result w) (result_byte w) on_byte total.

Definition write_bit (w : Writer) : Writer :=
  mkWriter (result w)
           (Z.lor (result_byte w) (Z.shiftl 1 (written_bits_on_result_byte w)) mod 256)
           (written_bits_on_result_byte w)
           (written_bits w).

Definition method1 (max_depth_bits : Z) (path : PathInfo) (w : Writer) : Writer :=
  let w1 :=
    for_loop max_depth_bits
      (fun depth_bit w =>
         check_bit (if Z.land (depth path) (Z.shiftl 1 depth_bit) =? 0
                    then w else write_bit w)) w in
  for_loop (depth path)
    (fun d w => check_bit (if Z.testbit (bit_path path) d then write_bit w else w)) w1.

(** The intermediate values of [encode], named as in the source.  From
    the loop over the occurrences on, [encode] goes through [path_info] and
    [method1], which index the bit path by the depths of the tree: it is
    the function of the code for one-byte and two-byte symbols (see
    [bit_path_size]). *)
Definition encode_values (data : list byte) : list Z :=
  view_as_values (length data / sizeof_alphabet_T) data.

Definition encode_occurrences (data : list byte) : list Occurrence :=
  store_contiguous (encode_values data).

Definition encode_alphabet (data : list byte) : list Letter :=
  std_sort (construct_alphabet (encode_occurrences data)).

Definition encode_tree (data : list byte) : shared_node :=
  build_tree (encode_alphabet data).

Definition encode_max_depth_bits (data : list byte) : Z :=
  BitsNeeded (height (encode_tree data)).

Definition encode_header (data : list byte) : list byte :=
  [view_as_byte_t (encode_max_depth_bits data);
   view_as_byte_t (wrap_size_t (Z.of_nat (length (encode_alphabet data)) - 1))]
  ++ map (fun l => view_as_byte_t (value l)) (encode_alphabet data).

(** The loop over the occurrences: one [path_info] per run, [count]
    calls of [method1]. *)
Definition write_occurrence (binary_tree : shared_node) (max_depth_bits : Z)
           (w : Writer) (o : Occurrence) : Writer :=
  let path := snd (path_info PathInfo_default binary_tree (letter_value o)) in
  for_loop (count o) (fun _ w => method1 max_depth_bits path w) w.

Definition encode_writer (data : list byte) : Writer :=
  fold_left (write_occurrence (encode_tree data) (encode_max_depth_bits data))
            (encode_occurrences data)
            (mkWriter (encode_header data) 0 0 0).

(** The four bytes of a [uint32_t], as laid out in memory (little endian). *)
Definition bytes_of_uint32_t (z : Z) : list byte :=
  map (fun i => view_as_byte_t (Z.shiftr z (8 * i))) [0; 1; 2; 3].

Definition encode (data : list byte) : list byte :=
  let w := encode_writer data in
  (if 0 <? written_bits_on_result_byte w
   then result w ++ [view_as_byte_t (result_byte w)]
   else result w)
  ++ bytes_of_uint32_t (written_bits w).

(** *** decode *)

Notation "x <- a ;; b" :=
  (match a with Some x => b | None => None end)
  (at level 61, a at next level, right associativity, only parsing).

(** [data[i]]; reading outside the buffer has no defined result. *)
Definition data_at (data : list byte) (i : nat) : option Z :=
  option_map Z_of_byte (nth_error data i).

(** [*view_as<uint32_t*>(data + size - sizeof(uint32_t))] *)
Definition read_uint32_t_tail (data : list byte) : option Z :=
  if (length data <? 4)%nat then None
  else
    let at_ := (length data - 4)%nat in
    b0 <- data_at data at_ ;;
    b1 <- data_at data (at_ + 1) ;;
    b2 <- data_at data (at_ + 2) ;;
    b3 <- data_at data (at_ + 3) ;;
    Some (b0 + 256 * b1 + 65536 * b2 + 16777216 * b3).

(** The alphabet loop of [decode]: [alphabet_size] calls of [read_byte]. *)
Fixpoint read_alphabet (data : list byte) (alphabet_size : nat) (read_bytes : nat)
  : option (list Letter * nat) :=
  match alphabet_size with
  | O => Some ([], read_bytes)
  | S k =>
      b <- data_at data read_bytes ;;
      rest <- read_alphabet data k (S read_bytes) ;;
      Some (mkLetter b 0 :: fst rest, snd rest)
  end.

(** The variables captured by [read_bit]. *)
Record Reader : Type := mkReader {
  read_bytes : nat;
  read_bits_on_result_byte : Z;
  bits_read : Z
}.

Definition read_bit (data : list byte) (rd : Reader) : option (Z * Reader) :=
  b <- data_at data (read_bytes rd) ;;
  let v := if Z.land b (Z.shiftl 1 (read_bits_on_result_byte rd)) =? 0 then 0 else 1 in
  let on_byte := read_bits_on_result_byte rd + 1 in
  let total := bits_read rd + 1 in
  Some (v, if on_byte =? 8
           then mkReader (S (read_bytes rd)) 0 total
           else mkReader (read_bytes rd) on_byte total).

(** The two [for] loops of the body of the [while] loop; they stop at the
    first read outside the buffer.  [read_bit_path] writes [bit_path[d]]
    for the depths below the depth it has read (see [set_bit_path]). *)
Fixpoint read_depth (data : list byte) (steps : nat) (depth_bit : Z)
         (path : PathInfo) (rd : Reader) : option (PathInfo * Reader) :=
  match steps with
  | O => Some (path, rd)
  | S k =>
      r <- read_bit data rd ;;
      read_depth data k (depth_bit + 1)
                 (set_depth path (Z.lor (depth path) (Z.shiftl (fst r) depth_bit)))
                 (snd r)
  end.

Fixpoint read_bit_path (data : list byte) (steps : nat) (d : Z)
         (path : PathInfo) (rd : Reader) : option (PathInfo * Reader) :=
  match steps with
  | O => Some (path, rd)
  | S k =>
      r <- read_bit data rd ;;
      read_bit_path data k (d + 1) (set_bit_path path d (negb (fst r =? 0))) (snd r)
  end.

(** [while (bits_read < written_bits)].  Every iteration reads at least
    one bit unless [max_depth_bits] is zero, so [written_bits] iterations
    are enough whenever the loop ends at all; [None] also stands for a
    loop that never ends. *)
Fixpoint decode_loop (fuel : nat) (data : list byte) (binary_tree : shared_node)
         (max_depth_bits written : Z) (rd : Reader) (occurrences : list Occurrence)
  : option (Reader * list Occurrence) :=
  if bits_read rd <? written then
    match fuel with
    | O => None
    | S k =>
        p1 <- read_depth data (Z.to_nat max_depth_bits) 0 PathInfo_default rd ;;
        p2 <- read_bit_path data (Z.to_nat (depth (fst p1))) 0 (fst p1) (snd p1) ;;
        v <- find_value binary_tree (fst p2) ;;
        decode_loop k data binary_tree max_depth_bits written (snd p2)
                    (occurrences ++ [mkOccurrence v 1])
    end
  else Some (rd, occurrences).

(** The state of [decode] when its [while] loop is left. *)
Definition decode_state (data : list byte) : option (Reader * list Occurrence) :=
  max_depth_bits <- data_at data 0 ;;
  alphabet_size_minus_1 <- data_at data 1 ;;
  written <- read_uint32_t_tail data ;;
  a <- read_alphabet data (Z.to_nat (alphabet_size_minus_1 + 1)) 2 ;;
  decode_loop (Z.to_nat written) data (build_tree (fst a)) max_depth_bits written
              (mkReader (snd a) 0 0) [].

Definition decode (data : list byte) : option (list byte) :=
  st <- decode_state data ;;
  Some (map (fun o => view_as_byte_t (letter_value o)) (snd st)).

End XKC.

(** ** [std::sort]: its contract and two implementations *)

(** The contract of [std::sort] with the comparison [a.freq > b.freq]: the
    result is a rearrangement of the input in which no element has a
    smaller frequency than a later one.  The order of elements of equal
    frequency is left open. *)
Definition sort_contract (sort : list Letter -> list Letter) : Prop :=
  forall alphabet,
    Permutation alphabet (sort alphabet)
    /\ StronglySorted (fun a b => freq b <= freq a) (sort alphabet).

(** Insertion into a sorted list, behind ([behind_equal = true]) or in
    front of the letters of the same frequency. *)
Fixpoint insert_sorted (behind_equal : bool) (x : Letter) (sorted : list Letter)
  : list Letter :=
  match sorted with
  | [] => [x]
  | y :: rest =>
      if (if behind_equal then freq y <? freq x else freq y <=? freq x)
      then x :: sorted
      else y :: insert_sorted behind_equal x rest
  end.

(** Insertion sort that keeps letters of equal frequency in their order:
    what libstdc++'s [std::sort] does on at most sixteen letters
    ([libstdcxx_sort_small]). *)
Definition insertion_sort (alphabet : list Letter) : list Letter :=
  fold_left (fun sorted x => insert_sorted true x sorted) alphabet [].

(** *** [std::sort] in libstdc++ *)

(** [std::sort(alphabet.begin(), alphabet.end(), comp)] as libstdc++
    implements it (GCC 12, bits/stl_algo.h and bits/stl_heap.h): introsort,
    that is median-of-three quicksort on ranges of more than 16 elements,
    heap sort when the recursion gets too deep, and a final insertion sort.
    The array is a list, an iterator is the index of the element it points
    to, and a function returns the array it leaves behind.  [None] is an
    access outside the array.  The loops that libstdc++ leaves unguarded
    get as many steps as the array has elements, plus one: they leave the
    array before the steps run out. *)
Module Libstdcxx.

Local Notation "x <- a ;; b" :=
  (match a with Some x => b | None => None end)
  (at level 61, a at next level, right associativity, only parsing).

(** The comparison [encode] passes: [a.freq > b.freq]. *)
Definition comp (a b : Letter) : bool := freq b <? freq a.

(** [*i] and [*i = x] *)
Definition deref (arr : list Letter) (i : Z) : option Letter :=
  if i <? 0 then None else nth_error arr (Z.to_nat i).

Definition assign (arr : list Letter) (i : Z) (x : Letter) : option (list Letter) :=
  if (0 <=? i) && (i <? Z.of_nat (length arr))
  then Some (firstn (Z.to_nat i) arr ++ x :: skipn (S (Z.to_nat i)) arr)
  else None.

Definition iter_swap (arr : list Letter) (a b : Z) : option (list Letter) :=
  x <- deref arr a ;;
  y <- deref arr b ;;
  arr <- assign arr a y ;;
  assign arr b x.

(** [std::move_backward(first, last, d_last)], [n] elements:
    [while (first != last) *(--d_last) = *(--last);] *)
Fixpoint move_backward (n : nat) (arr : list Letter) (last d_last : Z)
  : option (list Letter) :=
  match n with
  | O => Some arr
  | S k =>
      x <- deref arr (last - 1) ;;
      arr <- assign arr (d_last - 1) x ;;
      move_backward k arr (last - 1) (d_last - 1)
  end.

Definition __move_median_to_first (arr : list Letter) (result a b c : Z)
  : option (list Letter) :=
  va <- deref arr a ;;
  vb <- deref arr b ;;
  vc <- deref arr c ;;
  if comp va vb then
    if comp vb vc then iter_swap arr result b
    else if comp va vc then iter_swap arr result c
    else iter_swap arr result a
  else if comp va vc then iter_swap arr result a
  else if comp vb vc then iter_swap arr result c
  else iter_swap arr result b.

(** [while (comp(first, pivot)) ++first;] *)
Fixpoint skip_before_pivot (steps : nat) (arr : list Letter) (first pivot : Z)
  : option Z :=
  match steps with
  | O => None
  | S k =>
      x <- deref arr first ;;
      p <- deref arr pivot ;;
      if comp x p then skip_before_pivot k arr (first + 1) pivot else Some first
  end.

(** [while (comp(pivot, last)) --last;] *)
Fixpoint skip_after_pivot (steps : nat) (arr : list Letter) (last pivot : Z)
  : option Z :=
  match steps with
  | O => None
  | S k =>
      p <- deref arr pivot ;;
      x <- deref arr last ;;
      if comp p x then skip_after_pivot k arr (last - 1) pivot else Some last
  end.

Fixpoint __unguarded_partition (steps : nat) (arr : list Letter) (first last pivot : Z)
  : option (Z * list Letter) :=
  match steps with
  | O => None
  | S k =>
      first <- skip_before_pivot (S (length arr)) arr first pivot ;;
      last <- skip_after_pivot (S (length arr)) arr (last - 1) pivot ;;
      if negb (first <? last) then Some (first, arr)
      else
        arr <- iter_swap arr first last ;;
        __unguarded_partition k arr (first + 1) last pivot
  end.

Definition __unguarded_partition_pivot (arr : list Letter) (first last : Z)
  : option (Z * list Letter) :=
  let mid := first + (last - first) / 2 in
  arr <- __move_median_to_first arr first (first + 1) mid (last - 1) ;;
  __unguarded_partition (S (length arr)) arr (first + 1) last first.

(** The loop of [__unguarded_linear_insert]. *)
Fixpoint linear_insert_loop (steps : nat) (arr : list Letter) (val : Letter)
         (last next : Z) : option (list Letter) :=
  match steps with
  | O => None
  | S k =>
      x <- deref arr next ;;
      if comp val x then
        arr <- assign arr last x ;;
        linear_insert_loop k arr val next (next - 1)
      else assign arr last val
  end.

Definition __unguarded_linear_insert (arr : list Letter) (last : Z)
  : option (list Letter) :=
  val <- deref arr last ;;
  linear_insert_loop (S (length arr)) arr val last (last - 1).

(** [for (i = ...; i != last; ++i)] of [__insertion_sort], [n] iterations. *)
Fixpoint insertion_sort_loop (n : nat) (arr : list Letter) (first i : Z)
  : option (list Letter) :=
  match n with
  | O => Some arr
  | S k =>
      x <- deref arr i ;;
      f <- deref arr first ;;
      arr <- (if comp x f then
                arr <- move_backward (Z.to_nat (i - first)) arr i (i + 1) ;;
                assign arr first x
              else __unguarded_linear_insert arr i) ;;
      insertion_sort_loop k arr first (i + 1)
  end.

Definition __insertion_sort (arr : list Letter) (first last : Z) : option (list Letter) :=
  if first =? last then Some arr
  else insertion_sort_loop (Z.to_nat (last - (first + 1))) arr first (first + 1).

Fixpoint unguarded_insertion_sort_loop (n : nat) (arr : list Letter) (i : Z)
  : option (list Letter) :=
  match n with
  | O => Some arr
  | S k =>
      arr <- __unguarded_linear_insert arr i ;;
      unguarded_insertion_sort_loop k arr (i + 1)
  end.

Definition __unguarded_insertion_sort (arr : list Letter) (first last : Z)
  : option (list Letter) :=
  unguarded_insertion_sort_loop (Z.to_nat (last - first)) arr first.

Definition _S_threshold : Z := 16.

Definition __final_insertion_sort (arr : list Letter) (first last : Z)
  : option (list Letter) :=
  if last - first >? _S_threshold then
    arr <- __insertion_sort arr first (first + _S_threshold) ;;
    __unguarded_insertion_sort arr (first + _S_threshold) last
  else __insertion_sort arr first last.

(** *** The heap sort of bits/stl_heap.h *)

Fixpoint push_heap_loop (steps : nat) (arr : list Letter) (first holeIndex topIndex : Z)
         (val : Letter) : option (list Letter) :=
  match steps with
  | O => None
  | S k =>
      let parent := Z.quot (holeIndex - 1) 2 in
      if holeIndex >? topIndex then
        p <- deref arr (first + parent) ;;
        if comp p val then
          arr <- assign arr (first + holeIndex) p ;;
          push_heap_loop k arr first parent topIndex val
        else assign arr (first + holeIndex) val
      else assign arr (first + holeIndex) val
  end.

Definition __push_heap (arr : list Letter) (first holeIndex topIndex : Z) (val : Letter)
  : option (list Letter) :=
  push_heap_loop (S (length arr)) arr first holeIndex topIndex val.

(** The first loop of [__adjust_heap]; it returns the array, [holeIndex]
    and [secondChild]. *)
Fixpoint adjust_heap_loop (steps : nat) (arr : list Letter)
         (first holeIndex secondChild len : Z) : option (list Letter * Z * Z) :=
  match steps with
  | O => None
  | S k =>
      if secondChild <? Z.quot (len - 1) 2 then
        let secondChild := 2 * (secondChild + 1) in
        x <- deref arr (first + secondChild) ;;
        y <- deref arr (first + (secondChild - 1)) ;;
        let secondChild := if comp x y then secondChild - 1 else secondChild in
        z <- deref arr (first + secondChild) ;;
        arr <- assign arr (first + holeIndex) z ;;
        adjust_heap_loop k arr first secondChild secondChild len
      else Some (arr, holeIndex, secondChild)
  end.

Definition __adjust_heap (arr : list Letter) (first holeIndex len : Z) (val : Letter)
  : option (list Letter) :=
  let topIndex := holeIndex in
  st <- adjust_heap_loop (S (length arr)) arr first holeIndex holeIndex len ;;
  let '(arr, holeIndex, secondChild) := st in
  st <- (if (Z.land len 1 =? 0) && (secondChild =? Z.quot (len - 2) 2) then
           let secondChild := 2 * (secondChild + 1) in
           x <- deref arr (first + (secondChild - 1)) ;;
           arr <- assign arr (first + holeIndex) x ;;
           Some (arr, secondChild - 1)
         else Some (arr, holeIndex)) ;;
  __push_heap (fst st) first (snd st) topIndex val.

Definition __pop_heap (arr : list Letter) (first last result : Z) : option (list Letter) :=
  val <- deref arr result ;;
  f <- deref arr first ;;
  arr <- assign arr result f ;;
  __adjust_heap arr first 0 (last - first) val.

(** The loop of [__make_heap], from [parent] down to 0. *)
Fixpoint make_heap_loop (steps : nat) (arr : list Letter) (first parent len : Z)
  : option (list Letter) :=
  match steps with
  | O => None
  | S k =>
      val <- deref arr (first + parent) ;;
      arr <- __adjust_heap arr first parent len val ;;
      if parent =? 0 then Some arr
      else make_heap_loop k arr first (parent - 1) len
  end.

Definition __make_heap (arr : list Letter) (first last : Z) : option (list Letter) :=
  if last - first <? 2 then Some arr
  else
    let len := last - first in
    make_heap_loop (S (length arr)) arr first (Z.quot (len - 2) 2) len.

(** [for (i = middle; i < last; ++i)] of [__heap_select], [n] iterations. *)
Fixpoint heap_select_loop (n : nat) (arr : list Letter) (first middle i : Z)
  : option (list Letter) :=
  match n with
  | O => Some arr
  | S k =>
      x <- deref arr i ;;
      f <- deref arr first ;;
      arr <- (if comp x f then __pop_heap arr first middle i else Some arr) ;;
      heap_select_loop k arr first middle (i + 1)
  end.

Definition __heap_select (arr : list Letter) (first middle last : Z)
  : option (list Letter) :=
  arr <- __make_heap arr first middle ;;
  heap_select_loop (Z.to_nat (last - middle)) arr first middle middle.

Fixpoint sort_heap_loop (steps : nat) (arr : list Letter) (first last : Z)
  : option (list Letter) :=
  match steps with
  | O => None
  | S k =>
      if last - first >? 1 then
        arr <- __pop_heap arr first (last - 1) (last - 1) ;;
        sort_heap_loop k arr first (last - 1)
      else Some arr
  end.

Definition __sort_heap (arr : list Letter) (first last : Z) : option (list Letter) :=
  sort_heap_loop (S (length arr)) arr first last.

Definition __partial_sort (arr : list Letter) (first middle last : Z)
  : option (list Letter) :=
  arr <- __heap_select arr first middle last ;;
  __sort_heap arr first middle.

(** *** Introsort *)

(** [__introsort_loop]: an iteration of the [while] loop calls the
    function on the right part and goes on with the left part; every call
    and every iteration lower [depth_limit], so [depth_limit + 1] steps are
    enough. *)
Fixpoint __introsort_loop (steps : nat) (arr : list Letter) (first last depth_limit : Z)
  : option (list Letter) :=
  match steps with
  | O => None
  | S k =>
      if last - first >? _S_threshold then
        if depth_limit =? 0 then __partial_sort arr first last last
        else
          let depth_limit := depth_limit - 1 in
          r <- __unguarded_partition_pivot arr first last ;;
          let (cut, arr) := r in
          arr <- __introsort_loop k arr cut last depth_limit ;;
          __introsort_loop k arr first cut depth_limit
      else Some arr
  end.

(** [std::__lg]: the position of the highest bit set. *)
Definition __lg (n : Z) : Z := Z.log2 n.

Definition sort (arr : list Letter) : option (list Letter) :=
  let first := 0 in
  let last := Z.of_nat (length arr) in
  if first =? last then Some arr
  else
    let depth_limit := __lg (last - first) * 2 in
    arr <- __introsort_loop (S (Z.to_nat depth_limit)) arr first last depth_limit ;;
    __final_insertion_sort arr first last.

End Libstdcxx.

(** [std::sort] with libstdc++, as a function of the alphabet. *)
Definition libstdcxx_sort (alphabet : list Letter) : list Letter :=
  match Libstdcxx.sort alphabet with
  | Some sorted => sorted
  | None => alphabet
  end.

(** * Vocabulary of the statements *)

(** The symbols a run stands for. *)
Definition expand (o : Occurrence) : list Z :=
  repeat (letter_value o) (Z.to_nat (count o)).

(** Two neighbouring runs carry the same letter only when the first one
    is full. *)
Fixpoint split_at_cap_only (occs : list Occurrence) : Prop :=
  match occs with
  | [] => True
  | o1 :: tl =>
      match tl with
      | [] => True
      | o2 :: _ => letter_value o1 = letter_value o2 -> count o1 = 255
      end /\ split_at_cap_only tl
  end.

(** The tree obtained by a sequence of [insert] calls on a new tree. *)
Definition insert_all (symbols : list Z) : shared_node :=
  fold_left insert symbols BinaryTree_new.

(** The term added by a child to [count_nodes] and to [height]. *)
Definition child_count (n : shared_node) : Z :=
  match n with nullptr => 0 | Node _ _ _ => count_nodes n + 1 end.

Definition child_height (n : shared_node) : Z :=
  match n with nullptr => 0 | Node _ _ _ => height n + 1 end.

(** Total number of nodes of a subtree, its own root included. *)
Fixpoint size (n : shared_node) : Z :=
  match n with
  | nullptr => 0
  | Node _ l r => size l + size r + 1
  end.

(** The values held by a subtree, in the order [path_info] visits them. *)
Fixpoint values (n : shared_node) : list Z :=
  match n with
  | nullptr => []
  | Node v l r => v :: values l ++ values r
  end.

(** No node has a right child without a left child. *)
Fixpoint left_filled_first (n : shared_node) : Prop :=
  match n with
  | nullptr => True
  | Node _ l r =>
      (l = nullptr -> r = nullptr) /\ left_filled_first l /\ left_filled_first r
  end.

(** At every node the left subtree has as many nodes as the right one, or
    one more. *)
Fixpoint balanced (n : shared_node) : Prop :=
  match n with
  | nullptr => True
  | Node _ l r =>
      (size l = size r \/ size l = size r + 1) /\ balanced l /\ balanced r
  end.

(** The number of edges between [parent] and the node that
    [insert_at parent] creates. *)
Fixpoint insert_depth (parent : shared_node) : nat :=
  match parent with
  | nullptr => O
  | Node _ l r =>
      match l with
      | nullptr => 1%nat
      | Node _ _ _ =>
          match r with
          | nullptr => 1%nat
          | Node _ _ _ =>
              if count_nodes l <=? count_nodes r
              then S (insert_depth l) else S (insert_depth r)
          end
      end
  end.

(** Some node [k] edges below [n] holds [v]. *)
Fixpoint at_depth (n : shared_node) (k : nat) (v : Z) : Prop :=
  match n with
  | nullptr => False
  | Node pv l r =>
      match k with
      | O => pv = v
      | S k' => at_depth l k' v \/ at_depth r k' v
      end
  end.

(** The sum of the counts of the runs of a symbol. *)
Fixpoint letter_freq (occurrences : list Occurrence) (s : Z) : Z :=
  match occurrences with
  | [] => 0
  | o :: rest =>
      (if letter_value o =? s then count o else 0) + letter_freq rest s
  end.

(** The frequency an alphabet records for a symbol. *)
Fixpoint lookup_freq (alphabet : list Letter) (s : Z) : option Z :=
  match alphabet with
  | [] => None
  | a :: rest => if value a =? s then Some (freq a) else lookup_freq rest s
  end.

(** Position of the first occurrence of a symbol. *)
Fixpoint first_seen (s : Z) (values : list Z) : nat :=
  match values with
  | [] => O
  | x :: rest => if x =? s then O else S (first_seen s rest)
  end.

(** The ordering of the alphabet as the specification words it: of two
    distinct symbols of equal frequency, the one met first in the input
    comes first. *)
Definition keeps_first_seen_order (sizeof_alphabet_T : nat)
           (std_sort : list Letter -> list Letter) (data : list byte) : Prop :=
  forall (i j : nat) (a b : Letter),
    nth_error (encode_alphabet sizeof_alphabet_T std_sort data) i = Some a ->
    nth_error (encode_alphabet sizeof_alphabet_T std_sort data) j = Some b ->
    value a <> value b -> freq a = freq b ->
    (first_seen (value a) (encode_values sizeof_alphabet_T data)
     < first_seen (value b) (encode_values sizeof_alphabet_T data))%nat ->
    (i < j)%nat.



(** The eight bits of a byte, least significant first, and the bits of a
    buffer in the order [read_bit] meets them. *)
Definition byte_bits (b : Z) : list bool :=
  map (Z.testbit b) [0; 1; 2; 3; 4; 5; 6; 7].

Definition unpack (bytes : list byte) : list bool :=
  flat_map (fun b => byte_bits (Z_of_byte b)) bytes.

(** The number whose bits, least significant first, are given. *)
Fixpoint bits_value (bits : list bool) : Z :=
  match bits with
  | [] => 0
  | b :: rest => Z.b2z b + 2 * bits_value rest
  end.

(** [[i; i + 1; ...]], [n] numbers. *)
Fixpoint zrange (i : Z) (n : nat) : list Z :=
  match n with
  | O => []
  | S k => i :: zrange (i + 1) k
  end.

(** The bits of one symbol in the stream, as the wire format describes
    them: [max_depth_bits] bits of the depth, then [depth] bits of path. *)
Definition code_bits (max_depth_bits : Z) (path : PathInfo) : list bool :=
  map (Z.testbit (depth path)) (zrange 0 (Z.to_nat max_depth_bits))
  ++ map (Z.testbit (bit_path path)) (zrange 0 (Z.to_nat (depth path))).

(** A writer that has written [bits] after the bytes [header]: the full
    bytes are in [result], the others in [result_byte]. *)
Definition writer_holds (header : list byte) (bits : list bool) (w : Writer) : Prop :=
  exists (full : list byte) (partial : list bool),
    result w = header ++ full
    /\ bits = unpack full ++ partial
    /\ (length partial < 8)%nat
    /\ written_bits_on_result_byte w = Z.of_nat (length partial)
    /\ result_byte w = bits_value partial
    /\ written_bits w = wrap_uint32_t (Z.of_nat (length bits)).

(** The [PathInfo] that [encode] computes for a symbol, and the path
    bits of a whole input: the bits of its symbols, one after the other. *)
Definition symbol_path (sizeof_alphabet_T : nat)
           (std_sort : list Letter -> list Letter) (data : list byte) (v : Z)
  : PathInfo :=
  snd (path_info PathInfo_default (encode_tree sizeof_alphabet_T std_sort data) v).

Definition symbol_code (sizeof_alphabet_T : nat) (BitsNeeded : Z -> Z)
           (std_sort : list Letter -> list Letter) (data : list byte) (v : Z)
  : list bool :=
  code_bits (encode_max_depth_bits sizeof_alphabet_T BitsNeeded std_sort data)
            (symbol_path sizeof_alphabet_T std_sort data v).

Definition encode_path_bits (sizeof_alphabet_T : nat) (BitsNeeded : Z -> Z)
           (std_sort : list Letter -> list Letter) (data : list byte)
  : list bool :=
  flat_map (symbol_code sizeof_alphabet_T BitsNeeded std_sort data)
           (encode_values sizeof_alphabet_T data).

(** [check_bit], after [write_bit] when the bit is set. *)
Definition put_bit (b : bool) (w : Writer) : Writer :=
  check_bit (if b then write_bit w else w).

(** The value at the root; [INVALID] stands for an empty tree. *)
Definition root_value (t : shared_node) : Z :=
  match t with nullptr => INVALID | Node v _ _ => v end.

(** A reader that stands in front of bit [pos] of the buffer and has
    counted [n] bits. *)
Definition reader_at (pos : nat) (n : Z) (rd : Reader) : Prop :=
  exists c : nat,
    (c < 8)%nat
    /\ read_bits_on_result_byte rd = Z.of_nat c
    /\ (8 * read_bytes rd + c)%nat = pos
    /\ bits_read rd = n.

(** The bits [bits] are found in the stream from position [pos] on. *)
Definition holds_at (stream : list bool) (pos : nat) (bits : list bool) : Prop :=
  exists pre post, stream = pre ++ bits ++ post /\ length pre = pos.

(** Two trees that differ in the values of their nodes at most. *)
Fixpoint same_shape (t1 t2 : shared_node) : Prop :=
  match t1, t2 with
  | nullptr, nullptr => True
  | Node _ l1 r1, Node _ l2 r2 => same_shape l1 l2 /\ same_shape r1 r2
  | _, _ => False
  end.

(** What the codec needs from [BitsNeeded]: for a height that fits in an
    [int] it gives a number of bits, at most 31, that can hold the height. *)
Definition bits_needed_contract (BitsNeeded : Z -> Z) : Prop :=
  forall h, 0 <= h < 2 ^ 31 -> 0 <= BitsNeeded h <= 31 /\ h < 2 ^ BitsNeeded h.

(** One 'A', then [n] times 'B'. *)
Definition one_A_then_B (n : nat) : list byte := x41 :: repeat x42 n.

(** A buffer of 2^32 + 1 bytes: one 'A', then 2^32 times 'B'. *)
Definition four_gibibyte_input : list byte := one_A_then_B (Z.to_nat 4294967296).

(** The bits of an integer from index [d] on are all zero. *)
Definition clear_from (bits d : Z) : Prop :=
  forall j, d <= j -> Z.testbit bits j = false.

(** The node reached from [n] by the turns of [path] ([true] goes right)
    holds [v]. *)
Fixpoint at_path (n : shared_node) (path : list bool) (v : Z) : Prop :=
  match n with
  | nullptr => False
  | Node pv l r =>
      match path with
      | [] => pv = v
      | b :: rest => at_path (if b then r else l) rest v
      end
  end.

(** The turns [insert_at parent] takes down to the node it creates. *)
Fixpoint insert_path (parent : shared_node) : list bool :=
  match parent with
  | nullptr => []
  | Node _ l r =>
      match l with
      | nullptr => [false]
      | Node _ _ _ =>
          match r with
          | nullptr => [true]
          | Node _ _ _ =>
              if count_nodes l <=? count_nodes r
              then false :: insert_path l else true :: insert_path r
          end
      end
  end.

(** The binary digits of a rank, least significant first, without the
    leading one. *)
Fixpoint rank_path (rank : positive) : list bool :=
  match rank with
  | xH => []
  | xO q => false :: rank_path q
  | xI q => true :: rank_path q
  end.

(** The sum of the frequencies of an alphabet. *)
Fixpoint total_freq (alphabet : list Letter) : Z :=
  match alphabet with
  | [] => 0
  | a :: rest => freq a + total_freq rest
  end.

(** The bits a writer has written behind the first [skip] bytes of
    [result]: those of the bytes pushed, then those waiting in
    [result_byte]. *)
Definition writer_bits (skip : nat) (w : Writer) : list bool :=
  unpack (skipn skip (result w))
  ++ firstn (Z.to_nat (written_bits_on_result_byte w)) (byte_bits (result_byte w)).

(** The bits [method1] writes for a [PathInfo], read off a writer that had
    written nothing before. *)
Definition method1_bits (max_depth_bits : Z) (path : PathInfo) : list bool :=
  writer_bits 0 (method1 max_depth_bits path (mkWriter [] 0 0 0)).

(** The code of a symbol in [encode]: what [method1] writes for the
    [PathInfo] that [path_info] computes in the tree of the input. *)
Definition encode_symbol_bits (sizeof_alphabet_T : nat) (BitsNeeded : Z -> Z)
           (std_sort : list Letter -> list Letter) (data : list byte) (v : Z)
  : list bool :=
  method1_bits (encode_max_depth_bits sizeof_alphabet_T BitsNeeded std_sort data)
               (snd (path_info PathInfo_default
                               (encode_tree sizeof_alphabet_T std_sort data) v)).

(** [encode] writes the bits [code v] for every symbol [v]: between the
    header and the counter, its output holds the codes of the symbols of
    the input, in the order of the input, and fewer than eight padding
    bits; the counter holds their number. *)
Definition encode_writes (sizeof_alphabet_T : nat) (BitsNeeded : Z -> Z)
           (std_sort : list Letter -> list Letter) (data : list byte)
           (code : Z -> list bool) : Prop :=
  exists (body : list byte) (padding : nat),
    encode sizeof_alphabet_T BitsNeeded std_sort data
    = encode_header sizeof_alphabet_T BitsNeeded std_sort data
      ++ body
      ++ bytes_of_uint32_t
           (wrap_uint32_t
              (Z.of_nat (length (flat_map code
                                          (encode_values sizeof_alphabet_T data)))))
    /\ unpack body
       = flat_map code (encode_values sizeof_alphabet_T data)
         ++ repeat false padding
    /\ (padding < 8)%nat.

(** * Properties *)

(** ** Bytes *)

Lemma Z_of_byte_range (b : byte) : 0 <= Z_of_byte b < 256.
Proof.
  unfold Z_of_byte. pose proof (Byte.to_N_bounded b). lia.
Qed.

Lemma Z_of_byte_view (z : Z) : Z_of_byte (view_as_byte_t z) = z mod 256.
Proof.
  unfold view_as_byte_t, Z_of_byte.
  assert (Hr : 0 <= z mod 256 < 256) by (apply Z.mod_pos_bound; lia).
  destruct (Byte.of_N (Z.to_N (z mod 256))) as [b|] eqn:E.
  - apply Byte.to_of_N in E. rewrite E. apply Z2N.id. lia.
  - apply Byte.of_N_None_iff in E. lia.
Qed.

Lemma view_of_byte (b : byte) : view_as_byte_t (Z_of_byte b) = b.
Proof.
  unfold view_as_byte_t.
  rewrite Z.mod_small by apply Z_of_byte_range.
  unfold Z_of_byte. rewrite N2Z.id, Byte.of_to_N. reflexivity.
Qed.

Lemma Z_of_byte_view_small (z : Z) : 0 <= z < 256 -> Z_of_byte (view_as_byte_t z) = z.
Proof.
  intros H. rewrite Z_of_byte_view. apply Z.mod_small, H.
Qed.

(** ** The run-length loop *)

Lemma run_from_head (v c : Z) (rest : list Z) :
  exists o tl, run_from v c rest = o :: tl /\ letter_value o = v.
Proof.
  revert v c. induction rest as [|x rest IH]; intros v c; simpl.
  - eauto.
  - destruct (c =? 255); [eauto|].
    destruct (v =? x); simpl; [apply IH | eauto].
Qed.

Lemma run_from_count (rest : list Z) : forall v c,
  1 <= c <= 255 -> Forall (fun o => 1 <= count o <= 255) (run_from v c rest).
Proof.
  induction rest as [|x rest IH]; intros v c Hc; simpl.
  - constructor; [assumption | constructor].
  - destruct (c =? 255) eqn:E255.
    + constructor; [assumption | apply IH; lia].
    + apply Z.eqb_neq in E255.
      destruct (v =? x); simpl.
      * apply IH. lia.
      * constructor; [assumption | apply IH; lia].
Qed.

Lemma repeat_snoc_app {A} (a : A) (n : nat) (l : list A) :
  repeat a (S n) ++ l = repeat a n ++ a :: l.
Proof.
  induction n as [|n IH]; simpl in *; [reflexivity | now rewrite IH].
Qed.

Lemma run_from_expand (rest : list Z) : forall v c,
  1 <= c ->
  flat_map expand (run_from v c rest) = repeat v (Z.to_nat c) ++ rest.
Proof.
  induction rest as [|x rest IH]; intros v c Hc; simpl.
  - unfold expand; simpl. reflexivity.
  - destruct (c =? 255) eqn:E255.
    + simpl. rewrite IH by lia. reflexivity.
    + destruct (v =? x) eqn:Evx; simpl.
      * apply Z.eqb_eq in Evx. subst x.
        rewrite IH by lia.
        replace (Z.to_nat (c + 1)) with (S (Z.to_nat c)) by lia.
        apply repeat_snoc_app.
      * rewrite IH by lia. reflexivity.
Qed.

Lemma run_from_split (rest : list Z) : forall v c,
  split_at_cap_only (run_from v c rest).
Proof.
  induction rest as [|x rest IH]; intros v c; simpl.
  - auto.
  - destruct (c =? 255) eqn:E255.
    + apply Z.eqb_eq in E255.
      destruct (run_from_head x 1 rest) as (o & tl & E & Ho).
      simpl. specialize (IH x 1). rewrite E in *. auto.
    + destruct (v =? x) eqn:Evx; simpl.
      * apply IH.
      * apply Z.eqb_neq in Evx.
        destruct (run_from_head x 1 rest) as (o & tl & E & Ho).
        specialize (IH x 1). rewrite E in *. simpl.
        split; [intros; congruence | assumption].
Qed.

Lemma split_at_cap_only_nth (occs : list Occurrence) : split_at_cap_only occs ->
  forall i o1 o2,
    nth_error occs i = Some o1 -> nth_error occs (S i) = Some o2 ->
    letter_value o1 = letter_value o2 -> count o1 = 255.
Proof.
  induction occs as [|o occs IH]; intros Hs i o1 o2 H1 H2 Hl.
  - destruct i; discriminate.
  - destruct Hs as [Hhd Htl]. destruct i as [|i].
    + simpl in H1, H2. injection H1 as ->.
      destruct occs as [|o' occs']; [discriminate|].
      simpl in H2. injection H2 as ->. auto.
    + simpl in H1. apply (IH Htl i o1 o2); assumption.
Qed.

Lemma store_contiguous_count (values : list Z) :
  Forall (fun o => 1 <= count o <= 255) (store_contiguous values).
Proof.
  destruct values as [|x rest]; simpl; [constructor | apply run_from_count; lia].
Qed.

Lemma store_contiguous_expand (values : list Z) :
  flat_map expand (store_contiguous values) = values.
Proof.
  destruct values as [|x rest]; simpl; [reflexivity|].
  rewrite run_from_expand by lia. reflexivity.
Qed.

Lemma store_contiguous_split (values : list Z) :
  split_at_cap_only (store_contiguous values).
Proof.
  destruct values as [|x rest]; simpl; [exact I | apply run_from_split].
Qed.

(** C5. No run has a count above 255 (nor below 1); expanding the runs in
    order gives back the input, so a stretch of more than 255 equal symbols
    is spread over several consecutive runs; and two consecutive runs carry
    the same symbol only if the first has reached 255, which makes the
    number of runs minimal. *)
Theorem store_contiguous_run_cap (values : list Z) :
  Forall (fun o => 1 <= count o <= 255) (store_contiguous values)
  /\ flat_map expand (store_contiguous values) = values
  /\ (forall i o1 o2,
        nth_error (store_contiguous values) i = Some o1 ->
        nth_error (store_contiguous values) (S i) = Some o2 ->
        letter_value o1 = letter_value o2 -> count o1 = 255).
Proof.
  split; [apply store_contiguous_count|].
  split; [apply store_contiguous_expand|].
  apply split_at_cap_only_nth, store_contiguous_split.
Qed.

(** A stretch of 600 equal symbols: 255 + 255 + 90. *)
Example store_contiguous_600 :
  store_contiguous (repeat 65 600)
  = [mkOccurrence 65 255; mkOccurrence 65 255; mkOccurrence 65 90].
Proof. vm_compute. reflexivity. Qed.

(** ** The tree: node counts and [insert] *)

Lemma null_dec (n : shared_node) : {n = nullptr} + {n <> nullptr}.
Proof. destruct n; [left; reflexivity | right; discriminate]. Qed.

Lemma count_nodes_Node (v : Z) (l r : shared_node) :
  count_nodes (Node v l r) = child_count l + child_count r.
Proof. reflexivity. Qed.

Lemma height_Node (v : Z) (l r : shared_node) :
  height (Node v l r) = Z.max (child_height l) (child_height r).
Proof. reflexivity. Qed.

Lemma size_Node (v : Z) (l r : shared_node) :
  size (Node v l r) = size l + size r + 1.
Proof. reflexivity. Qed.

Lemma child_count_size (n : shared_node) : child_count n = size n.
Proof.
  induction n as [|v l IHl r IHr]; [reflexivity|].
  change (child_count (Node v l r)) with (count_nodes (Node v l r) + 1).
  rewrite count_nodes_Node, IHl, IHr, size_Node. lia.
Qed.

Lemma count_nodes_size (n : shared_node) :
  n <> nullptr -> count_nodes n = size n - 1.
Proof.
  intros Hn. rewrite <- child_count_size.
  destruct n; [contradiction | unfold child_count; lia].
Qed.

Lemma size_nonneg (n : shared_node) : 0 <= size n.
Proof. induction n; simpl; lia. Qed.

Lemma size_pos (n : shared_node) : n <> nullptr -> 0 < size n.
Proof.
  destruct n as [|v l r]; [contradiction|]; intros _; simpl.
  pose proof (size_nonneg l); pose proof (size_nonneg r); lia.
Qed.

Lemma size_zero (n : shared_node) : size n = 0 -> n = nullptr.
Proof.
  intros H. destruct (null_dec n) as [|Hn]; [assumption|].
  apply size_pos in Hn. lia.
Qed.

Lemma child_height_nonneg (n : shared_node) : 0 <= child_height n.
Proof.
  induction n as [|v l IHl r IHr]; [simpl; lia|].
  change (child_height (Node v l r)) with (height (Node v l r) + 1).
  rewrite height_Node. lia.
Qed.

Lemma height_nonneg (n : shared_node) : 0 <= height n.
Proof.
  destruct n as [|v l r]; [simpl; lia|]. rewrite height_Node.
  pose proof (child_height_nonneg l). lia.
Qed.

Lemma child_height_size (n : shared_node) : child_height n <= size n.
Proof.
  induction n as [|v l IHl r IHr]; [simpl; lia|].
  change (child_height (Node v l r)) with (height (Node v l r) + 1).
  rewrite height_Node, size_Node.
  pose proof (size_nonneg l); pose proof (size_nonneg r). lia.
Qed.

Lemma height_lt_size (n : shared_node) : n <> nullptr -> height n < size n.
Proof.
  intros Hn. pose proof (child_height_size n) as H.
  destruct n; [contradiction|]. unfold child_height in H. lia.
Qed.

(** The three cases of [insert_at]. *)
Lemma insert_at_left_null (pv : Z) (r : shared_node) (v : Z) :
  insert_at (Node pv nullptr r) v = Node pv (Node v nullptr nullptr) r.
Proof. reflexivity. Qed.

Lemma insert_at_right_null (pv : Z) (l : shared_node) (v : Z) :
  l <> nullptr ->
  insert_at (Node pv l nullptr) v = Node pv l (Node v nullptr nullptr).
Proof. destruct l; [contradiction | reflexivity]. Qed.

Lemma insert_at_both (pv : Z) (l r : shared_node) (v : Z) :
  l <> nullptr -> r <> nullptr ->
  insert_at (Node pv l r) v
  = if size l <=? size r
    then Node pv (insert_at l v) r else Node pv l (insert_at r v).
Proof.
  intros Hl Hr.
  replace (size l <=? size r) with (count_nodes l <=? count_nodes r).
  - destruct l; [contradiction|]. destruct r; [contradiction|]. reflexivity.
  - rewrite !count_nodes_size by assumption.
    destruct (size l <=? size r) eqn:E; [apply Z.leb_le | apply Z.leb_gt];
      [apply Z.leb_le in E | apply Z.leb_gt in E]; lia.
Qed.

(** Case analysis on the children of the node [insert_at] is applied to. *)
Ltac insert_at_cases l r :=
  let Hl := fresh "Hl" in
  let Hr := fresh "Hr" in
  let E := fresh "Ecmp" in
  destruct (null_dec l) as [->|Hl];
  [ rewrite insert_at_left_null
  | destruct (null_dec r) as [->|Hr];
    [ rewrite (insert_at_right_null _ _ Hl)
    | rewrite (insert_at_both _ _ Hl Hr);
      destruct (size l <=? size r) eqn:E;
      [apply Z.leb_le in E | apply Z.leb_gt in E] ] ].

Lemma insert_at_not_null (t : shared_node) (v : Z) :
  t <> nullptr -> insert_at t v <> nullptr.
Proof.
  destruct t as [|pv l r]; [contradiction|]. intros _.
  insert_at_cases l r; discriminate.
Qed.

Lemma insert_at_size (t : shared_node) (v : Z) :
  t <> nullptr -> size (insert_at t v) = size t + 1.
Proof.
  induction t as [|pv l IHl r IHr]; [contradiction|]. intros _.
  insert_at_cases l r; cbn [size]; try rewrite IHl by assumption;
    try rewrite IHr by assumption; lia.
Qed.

Lemma insert_at_left_filled_first (t : shared_node) (v : Z) :
  left_filled_first t -> left_filled_first (insert_at t v).
Proof.
  induction t as [|pv l IHl r IHr]; [auto|].
  intros (H1 & H2 & H3).
  insert_at_cases l r; simpl; repeat split; auto; try discriminate;
    intros E; try contradiction.
  apply insert_at_not_null with (v := v) in Hl. contradiction.
Qed.

Lemma insert_left_filled_first (t : shared_node) (v : Z) :
  left_filled_first t -> left_filled_first (insert t v).
Proof.
  destruct t as [|rv l r]; [auto|]. unfold insert.
  destruct (rv =? INVALID); [auto | apply insert_at_left_filled_first].
Qed.

Lemma insert_all_snoc (symbols : list Z) (v : Z) :
  insert_all (symbols ++ [v]) = insert (insert_all symbols) v.
Proof. unfold insert_all. rewrite fold_left_app. reflexivity. Qed.

Lemma insert_all_left_filled_first (symbols : list Z) :
  left_filled_first (insert_all symbols).
Proof.
  induction symbols as [|v symbols IH] using rev_ind.
  - simpl. auto.
  - rewrite insert_all_snoc. apply insert_left_filled_first, IH.
Qed.

(** C6. In every tree built by [insert] calls no node has a right child
    without a left child; and an insertion at a node with two children goes
    into the child whose subtree has fewer nodes, the left one when both
    have as many. *)
Theorem insert_left_first_and_smaller_subtree :
  (forall symbols : list Z, left_filled_first (insert_all symbols))
  /\ (forall (pv : Z) (l r : shared_node) (v : Z),
        l <> nullptr -> r <> nullptr ->
        (size l <= size r ->
         insert_at (Node pv l r) v = Node pv (insert_at l v) r)
        /\ (size r < size l ->
            insert_at (Node pv l r) v = Node pv l (insert_at r v))).
Proof.
  split; [apply insert_all_left_filled_first|].
  intros pv l r v Hl Hr. rewrite (insert_at_both _ _ Hl Hr).
  split; intros H.
  - apply Z.leb_le in H. rewrite H. reflexivity.
  - apply Z.leb_gt in H. rewrite H. reflexivity.
Qed.

(** ** [path_info] and [find_value] *)

Lemma find_node_ext (k : nat) : forall (d b1 b2 : Z) (t : shared_node),
  (forall i, d <= i < d + Z.of_nat k -> Z.testbit b1 i = Z.testbit b2 i) ->
  find_node k d b1 t = find_node k d b2 t.
Proof.
  induction k as [|k IH]; intros d b1 b2 t Hb; [reflexivity|].
  simpl. destruct t as [|pv l r]; [reflexivity|].
  rewrite (Hb d) by lia. apply IH. intros i Hi. apply Hb. lia.
Qed.

Lemma set_bit_path_testbit (p : PathInfo) (i : Z) (b : bool) (j : Z) :
  0 <= i ->
  Z.testbit (bit_path (set_bit_path p i b)) j
  = if i =? j then b else Z.testbit (bit_path p) j.
Proof.
  intros Hi. unfold set_bit_path. simpl. destruct b.
  - rewrite Z.setbit_eqb by assumption. destruct (i =? j); reflexivity.
  - rewrite Z.clearbit_eqb. destruct (i =? j); simpl;
      [apply andb_false_r | apply andb_true_r].
Qed.

Lemma set_bit_path_depth (p : PathInfo) (i : Z) (b : bool) :
  depth (set_bit_path p i b) = depth p.
Proof. reflexivity. Qed.

Lemma child_height_not_null (n : shared_node) :
  n <> nullptr -> child_height n = height n + 1.
Proof. destruct n; [contradiction | reflexivity]. Qed.

Lemma find_node_Some_not_null (k : nat) (d b v : Z) (t l r : shared_node) :
  find_node k d b t = Some (Node v l r) -> t <> nullptr.
Proof.
  destruct k; simpl; intros H ->; discriminate.
Qed.

(** When [path_info_at] answers true, the depth and the bits it leaves in
    the [PathInfo] lead [find_node] from [parent] to a node holding [v]. *)
Lemma path_info_at_found (t : shared_node) :
  forall (p : PathInfo) (d v : Z) (p' : PathInfo),
    0 <= d ->
    path_info_at p t d v = (true, p') ->
    exists (k : nat) (l r : shared_node),
      depth p' = d + Z.of_nat k
      /\ find_node k d (bit_path p') t = Some (Node v l r)
      /\ Z.of_nat k <= height t.
Proof.
  induction t as [|pv l IHl r IHr]; intros p d v p' Hd H; [discriminate|].
  simpl in H. destruct (pv =? v) eqn:Epv.
  - apply Z.eqb_eq in Epv. subst pv. injection H as <-.
    exists O, l, r.
    split; [simpl; lia|]. split; [reflexivity | apply height_nonneg].
  - assert (Hd1 : 0 <= d + 1) by lia.
    destruct (path_info_at p l (d + 1) v) as [found_left p1] eqn:El.
    destruct found_left.
    + injection H as <-.
      destruct (IHl _ _ _ _ Hd1 El) as (k & cl & cr & Hk & Hf & Hh).
      exists (S k), cl, cr. rewrite set_bit_path_depth.
      split; [lia|]. split.
      * cbn [find_node]. rewrite set_bit_path_testbit, Z.eqb_refl by assumption.
        rewrite <- Hf. apply find_node_ext. intros i Hi.
        rewrite set_bit_path_testbit by assumption.
        destruct (d =? i) eqn:E; [apply Z.eqb_eq in E; lia | reflexivity].
      * rewrite height_Node.
        rewrite (child_height_not_null (@find_node_Some_not_null _ _ _ _ _ _ _ Hf)).
        lia.
    + destruct (path_info_at (set_bit_path p1 d true) r (d + 1) v)
        as [found_right p3] eqn:Er.
      destruct found_right; [|discriminate].
      injection H as <-.
      destruct (IHr _ _ _ _ Hd1 Er) as (k & cl & cr & Hk & Hf & Hh).
      exists (S k), cl, cr. rewrite set_bit_path_depth.
      split; [lia|]. split.
      * cbn [find_node]. rewrite set_bit_path_testbit, Z.eqb_refl by assumption.
        rewrite <- Hf. apply find_node_ext. intros i Hi.
        rewrite set_bit_path_testbit by assumption.
        destruct (d =? i) eqn:E; [apply Z.eqb_eq in E; lia | reflexivity].
      * rewrite height_Node.
        rewrite (child_height_not_null (@find_node_Some_not_null _ _ _ _ _ _ _ Hf)).
        lia.
Qed.

(** [path_info_at] finds every value the subtree holds. *)
Lemma path_info_at_complete (t : shared_node) :
  forall (p : PathInfo) (d v : Z),
    In v (values t) -> fst (path_info_at p t d v) = true.
Proof.
  induction t as [|pv l IHl r IHr]; intros p d v Hin; [contradiction|].
  simpl. destruct (pv =? v) eqn:Epv; [reflexivity|].
  apply Z.eqb_neq in Epv.
  simpl in Hin. destruct Hin as [E | Hin]; [contradiction|].
  pose proof (IHl p (d + 1) v) as Hl.
  destruct (path_info_at p l (d + 1) v) as [found_left p1].
  destruct found_left; [reflexivity|].
  apply in_app_or in Hin. destruct Hin as [Hin | Hin].
  - specialize (Hl Hin). discriminate.
  - pose proof (IHr (set_bit_path p1 d true) (d + 1) v Hin) as Hr.
    destruct (path_info_at (set_bit_path p1 d true) r (d + 1) v)
      as [found_right p3].
    simpl in Hr. subst found_right. reflexivity.
Qed.

(** *** The values of a tree built by [insert] *)

Lemma insert_at_root_value (t : shared_node) (v : Z) :
  root_value (insert_at t v) = root_value t.
Proof.
  destruct t as [|pv l r]; [reflexivity|].
  insert_at_cases l r; reflexivity.
Qed.

Lemma insert_valid_root (t : shared_node) (v : Z) :
  root_value t <> INVALID -> insert t v = insert_at t v.
Proof.
  destruct t as [|rv l r]; [reflexivity|]. simpl. intros H.
  apply Z.eqb_neq in H. unfold insert. rewrite H. reflexivity.
Qed.

Lemma root_value_not_null (t : shared_node) :
  root_value t <> INVALID -> t <> nullptr.
Proof. intros H ->. apply H. reflexivity. Qed.

Lemma insert_at_values (t : shared_node) (v : Z) :
  t <> nullptr -> Permutation (values (insert_at t v)) (v :: values t).
Proof.
  induction t as [|pv l IHl r IHr]; [contradiction|]. intros _.
  insert_at_cases l r; simpl.
  - apply perm_swap.
  - rewrite app_nil_r. rewrite perm_swap. apply perm_skip.
    symmetry. apply Permutation_cons_append.
  - rewrite (IHl Hl). apply perm_swap.
  - rewrite (IHr Hr). rewrite perm_swap. apply perm_skip.
    symmetry. apply Permutation_middle.
Qed.

(** After at least one [insert] of valid symbols the root holds a symbol
    and the tree holds exactly the inserted symbols. *)
Lemma insert_all_values (symbols : list Z) :
  Forall (fun s => s <> INVALID) symbols -> symbols <> [] ->
  root_value (insert_all symbols) <> INVALID
  /\ Permutation (values (insert_all symbols)) symbols.
Proof.
  induction symbols as [|x symbols IH] using rev_ind; [contradiction|].
  intros Hall _. apply Forall_app in Hall. destruct Hall as [Hall Hx].
  inversion Hx as [|? ? Hxv _]; subst.
  rewrite insert_all_snoc.
  destruct symbols as [|s0 symbols'].
  - simpl. split; [assumption | apply Permutation_refl].
  - destruct (IH Hall ltac:(discriminate)) as [Hroot Hperm].
    rewrite (insert_valid_root _ _ Hroot).
    rewrite insert_at_root_value. split; [assumption|].
    rewrite (insert_at_values _ (root_value_not_null Hroot)).
    rewrite Hperm. apply Permutation_cons_append.
Qed.

Lemma alphabet_T_not_INVALID (symbols : list Z) (bound : Z) :
  Forall (fun s => 0 <= s < bound) symbols ->
  Forall (fun s => s <> INVALID) symbols.
Proof.
  apply Forall_impl. unfold INVALID. intros a H. lia.
Qed.

(** C3. In a tree built by [insert] calls whose depths are indices of the
    bit path ([height < bit_path_size]: one- and two-byte symbols),
    [path_info] answers true for every inserted symbol, and [find_value]
    applied to the depth and the bit path it produces returns that
    symbol. *)
Theorem find_value_inverts_path_info
        (sizeof_alphabet_T : nat) (symbols : list Z) (s : Z) (pathInfo : PathInfo) :
  Forall (fun x => 0 <= x < 2 ^ (8 * Z.of_nat sizeof_alphabet_T)) symbols ->
  height (insert_all symbols) < bit_path_size sizeof_alphabet_T ->
  In s symbols ->
  exists path : PathInfo,
    path_info pathInfo (insert_all symbols) s = (true, path)
    /\ find_value sizeof_alphabet_T (insert_all symbols) path = Some s.
Proof.
  intros Hrange _ Hin.
  assert (Hne : symbols <> []) by (intros ->; contradiction).
  destruct (insert_all_values (alphabet_T_not_INVALID Hrange) Hne) as [_ Hperm].
  assert (Hv : In s (values (insert_all symbols)))
    by (apply (Permutation_in _ (Permutation_sym Hperm)), Hin).
  pose proof (path_info_at_complete (insert_all symbols) pathInfo 0 s Hv) as Hfound.
  unfold path_info.
  destruct (path_info_at pathInfo (insert_all symbols) 0 s) as [found path] eqn:E.
  simpl in Hfound. subst found.
  exists path. split; [reflexivity|].
  destruct (path_info_at_found _ _ _ (Z.le_refl 0) E) as (k & l & r & Hk & Hf & _).
  unfold find_value. rewrite Hk, Z.add_0_l, Nat2Z.id, Hf.
  unfold view_as_alphabet_T. rewrite Z.mod_small; [reflexivity|].
  rewrite Forall_forall in Hrange. apply Hrange, Hin.
Qed.

(** The symbol 'D' in the tree of "ABCDE". *)
Lemma find_value_inverts_path_info_witness :
  exists path : PathInfo,
    path_info PathInfo_default (insert_all [65; 66; 67; 68; 69]) 68 = (true, path)
    /\ find_value 1 (insert_all [65; 66; 67; 68; 69]) path = Some 68.
Proof.
  apply (@find_value_inverts_path_info 1 [65; 66; 67; 68; 69] 68 PathInfo_default).
  - repeat constructor; simpl; lia.
  - vm_compute. reflexivity.
  - simpl. auto.
Defined.

(** ** The shape of the tree and the depth of the inserted symbols *)

Lemma insert_depth_left_null (pv : Z) (r : shared_node) :
  insert_depth (Node pv nullptr r) = 1%nat.
Proof. reflexivity. Qed.

Lemma insert_depth_right_null (pv : Z) (l : shared_node) :
  l <> nullptr -> insert_depth (Node pv l nullptr) = 1%nat.
Proof. destruct l; [contradiction | reflexivity]. Qed.

Lemma insert_depth_both (pv : Z) (l r : shared_node) :
  l <> nullptr -> r <> nullptr ->
  insert_depth (Node pv l r)
  = if size l <=? size r then S (insert_depth l) else S (insert_depth r).
Proof.
  intros Hl Hr.
  replace (size l <=? size r) with (count_nodes l <=? count_nodes r).
  - destruct l; [contradiction|]. destruct r; [contradiction|]. reflexivity.
  - rewrite !count_nodes_size by assumption.
    destruct (size l <=? size r) eqn:E; [apply Z.leb_le | apply Z.leb_gt];
      [apply Z.leb_le in E | apply Z.leb_gt in E]; lia.
Qed.

Lemma insert_at_balanced (t : shared_node) (v : Z) :
  balanced t -> balanced (insert_at t v).
Proof.
  induction t as [|pv l IHl r IHr]; [auto|].
  intros (Hs & Hbl & Hbr).
  pose proof (size_nonneg r) as Hr0.
  insert_at_cases l r; cbn [balanced size] in *.
  - assert (r = nullptr) by (apply size_zero; lia). subst r.
    cbn [size]. repeat split; auto; lia.
  - pose proof (size_pos Hl). repeat split; auto; lia.
  - rewrite (insert_at_size _ Hl). repeat split; auto; try apply IHl; auto; lia.
  - rewrite (insert_at_size _ Hr). repeat split; auto; try apply IHr; auto; lia.
Qed.

Lemma insert_depth_log2 (t : shared_node) :
  balanced t -> t <> nullptr ->
  Z.of_nat (insert_depth t) = Z.log2 (size t + 1).
Proof.
  induction t as [|pv l IHl r IHr]; [contradiction|].
  intros (Hs & Hbl & Hbr) _.
  pose proof (size_nonneg r) as Hr0.
  destruct (null_dec l) as [->|Hl].
  - rewrite insert_depth_left_null. cbn [size] in *.
    replace (size r) with 0 by lia. reflexivity.
  - pose proof (size_pos Hl) as Hl0.
    destruct (null_dec r) as [->|Hr].
    + rewrite (insert_depth_right_null _ Hl). cbn [size] in *.
      replace (size l) with 1 by lia. reflexivity.
    + pose proof (size_pos Hr) as Hr1.
      rewrite (insert_depth_both _ Hl Hr). rewrite size_Node.
      destruct (size l <=? size r) eqn:E;
        [apply Z.leb_le in E | apply Z.leb_gt in E].
      * rewrite Nat2Z.inj_succ, (IHl Hbl Hl).
        replace (size l + size r + 1 + 1) with (2 * (size l + 1)) by lia.
        rewrite Z.log2_double by lia. reflexivity.
      * rewrite Nat2Z.inj_succ, (IHr Hbr Hr).
        replace (size l + size r + 1 + 1) with (2 * (size r + 1) + 1) by lia.
        rewrite Z.log2_succ_double by lia. reflexivity.
Qed.

Lemma at_depth_insert_at (t : shared_node) (v : Z) :
  forall (k : nat) (x : Z), at_depth t k x -> at_depth (insert_at t v) k x.
Proof.
  induction t as [|pv l IHl r IHr]; intros k x H; [contradiction|].
  insert_at_cases l r; destruct k as [|k]; cbn [at_depth] in *; auto;
    destruct H as [H | H]; auto; contradiction.
Qed.

Lemma at_depth_new (t : shared_node) (v : Z) :
  t <> nullptr -> at_depth (insert_at t v) (insert_depth t) v.
Proof.
  induction t as [|pv l IHl r IHr]; [contradiction|]. intros _.
  destruct (null_dec l) as [->|Hl].
  - rewrite insert_at_left_null, insert_depth_left_null. simpl. auto.
  - destruct (null_dec r) as [->|Hr].
    + rewrite (insert_at_right_null _ _ Hl), (insert_depth_right_null _ Hl).
      simpl. auto.
    + rewrite (insert_at_both _ _ Hl Hr), (insert_depth_both _ Hl Hr).
      destruct (size l <=? size r); cbn [at_depth]; auto.
Qed.

Lemma at_depth_In (t : shared_node) :
  forall (k : nat) (v : Z), at_depth t k v -> In v (values t).
Proof.
  induction t as [|pv l IHl r IHr]; intros k v H; [contradiction|].
  simpl. destruct k as [|k]; cbn [at_depth] in H; [left; assumption|].
  right. apply in_or_app. destruct H as [H | H]; eauto.
Qed.

Lemma path_info_at_absent (t : shared_node) :
  forall (p : PathInfo) (d v : Z),
    ~ In v (values t) -> fst (path_info_at p t d v) = false.
Proof.
  induction t as [|pv l IHl r IHr]; intros p d v Hn; [reflexivity|].
  simpl in *.
  destruct (pv =? v) eqn:Epv; [apply Z.eqb_eq in Epv; tauto|].
  assert (Hnl : ~ In v (values l)) by (intros H; apply Hn; right; apply in_or_app; auto).
  assert (Hnr : ~ In v (values r)) by (intros H; apply Hn; right; apply in_or_app; auto).
  pose proof (IHl p (d + 1) v Hnl) as Hl.
  destruct (path_info_at p l (d + 1) v) as [found_left p1].
  simpl in Hl. subst found_left.
  pose proof (IHr (set_bit_path p1 d true) (d + 1) v Hnr) as Hr.
  destruct (path_info_at (set_bit_path p1 d true) r (d + 1) v) as [found_right p3].
  simpl in Hr. subst found_right. reflexivity.
Qed.

Lemma NoDup_app_disjoint {A} (l1 l2 : list A) (x : A) :
  NoDup (l1 ++ l2) -> In x l1 -> In x l2 -> False.
Proof.
  induction l1 as [|a l1 IH]; simpl; intros Hnd H1 H2; [contradiction|].
  inversion Hnd as [|? ? Hna Hnd']; subst.
  destruct H1 as [-> | H1].
  - apply Hna, in_or_app. auto.
  - auto.
Qed.

(** In a tree without repeated values, [path_info_at] reports the depth of
    the node that holds the value. *)
Lemma path_info_at_depth (t : shared_node) :
  forall (p : PathInfo) (d : Z) (k : nat) (v : Z),
    NoDup (values t) -> at_depth t k v ->
    exists p', path_info_at p t d v = (true, p') /\ depth p' = d + Z.of_nat k.
Proof.
  induction t as [|pv l IHl r IHr]; intros p d k v Hnd Hat; [contradiction|].
  cbn [values] in Hnd. inversion Hnd as [|? ? Hpv Hnd']; subst.
  cbn [path_info_at].
  destruct (pv =? v) eqn:Epv.
  - apply Z.eqb_eq in Epv. subst pv.
    destruct k as [|k].
    + eexists. split; [reflexivity | simpl; lia].
    + exfalso. apply Hpv, in_or_app. cbn [at_depth] in Hat.
      destruct Hat as [H | H]; apply at_depth_In in H; auto.
  - apply Z.eqb_neq in Epv.
    destruct k as [|k]; cbn [at_depth] in Hat; [contradiction|].
    destruct Hat as [Hat | Hat].
    + destruct (IHl p (d + 1) k v (NoDup_app_remove_r _ _ Hnd') Hat)
        as (p1 & E1 & Hd1).
      rewrite E1. eexists. split; [reflexivity|].
      rewrite set_bit_path_depth. lia.
    + assert (Hnl : ~ In v (values l)).
      { intros H. apply (NoDup_app_disjoint _ _ v Hnd' H).
        apply (at_depth_In _ _ _ Hat). }
      pose proof (path_info_at_absent l p (d + 1) v Hnl) as Hl.
      destruct (path_info_at p l (d + 1) v) as [found_left p1].
      simpl in Hl. subst found_left.
      destruct (IHr (set_bit_path p1 d true) (d + 1) k v
                    (NoDup_app_remove_l _ _ Hnd') Hat) as (p3 & E3 & Hd3).
      rewrite E3. eexists. split; [reflexivity|].
      rewrite set_bit_path_depth. lia.
Qed.

(** The tree built from [n] valid symbols is balanced, has [n] nodes, and
    holds the symbol inserted at position [j] (from 0) at depth
    [log2 (j + 1)]. *)
Lemma insert_all_shape (symbols : list Z) :
  Forall (fun s => s <> INVALID) symbols -> symbols <> [] ->
  balanced (insert_all symbols)
  /\ size (insert_all symbols) = Z.of_nat (length symbols)
  /\ forall (j : nat) (s : Z),
       nth_error symbols j = Some s ->
       at_depth (insert_all symbols) (Z.to_nat (Z.log2 (Z.of_nat j + 1))) s.
Proof.
  induction symbols as [|x symbols IH] using rev_ind; [contradiction|].
  intros Hall _.
  pose proof (insert_all_values Hall ltac:(intros E; destruct symbols; discriminate))
    as [Hroot' _].
  apply Forall_app in Hall. destruct Hall as [Hall Hx].
  destruct symbols as [|s0 symbols'].
  - cbn. repeat split; auto.
    intros [|[|j]] s H; simpl in H; try discriminate.
    injection H as <-. reflexivity.
  - remember (s0 :: symbols') as symbols eqn:Es.
    assert (Hne : symbols <> []) by (subst; discriminate).
    destruct (IH Hall Hne) as (Hbal & Hsize & Hpos).
    destruct (insert_all_values Hall Hne) as [Hroot _].
    pose proof (root_value_not_null Hroot) as Hnn.
    rewrite insert_all_snoc, (insert_valid_root _ _ Hroot).
    split; [apply insert_at_balanced, Hbal|].
    split; [rewrite (insert_at_size _ Hnn), length_app, Hsize; simpl; lia|].
    intros j s Hj.
    destruct (Nat.lt_ge_cases j (length symbols)) as [Hlt | Hge].
    + rewrite nth_error_app1 in Hj by assumption.
      apply at_depth_insert_at, Hpos, Hj.
    + rewrite nth_error_app2 in Hj by assumption.
      destruct (j - length symbols)%nat as [|m] eqn:Em; simpl in Hj;
        [|destruct m; discriminate].
      injection Hj as <-.
      assert (j = length symbols) by lia. subst j.
      rewrite <- Hsize, <- (insert_depth_log2 Hbal Hnn), Nat2Z.id.
      apply at_depth_new, Hnn.
Qed.

(** The depth [path_info] reports for the symbol inserted at position [j]
    of a sequence of distinct symbols. *)
Lemma path_info_depth_log2 (symbols : list Z) (j : nat) (s : Z) :
  Forall (fun x => 0 <= x) symbols -> NoDup symbols ->
  nth_error symbols j = Some s ->
  exists path,
    path_info PathInfo_default (insert_all symbols) s = (true, path)
    /\ depth path = Z.log2 (Z.of_nat j + 1).
Proof.
  intros Hpos Hnd Hj.
  assert (Hall : Forall (fun s => s <> INVALID) symbols).
  { revert Hpos. apply Forall_impl. unfold INVALID. intros; lia. }
  assert (Hne : symbols <> []) by (intros ->; destruct j; discriminate).
  destruct (insert_all_shape Hall Hne) as (_ & _ & Hat).
  destruct (insert_all_values Hall Hne) as [_ Hperm].
  assert (Hndv : NoDup (values (insert_all symbols)))
    by (apply (Permutation_NoDup (Permutation_sym Hperm)), Hnd).
  destruct (path_info_at_depth _ PathInfo_default 0 _ _ Hndv (Hat j s Hj))
    as (path & E & Hd).
  exists path. split; [exact E|].
  rewrite Hd, Z2Nat.id by apply Z.log2_nonneg. lia.
Qed.

(** C8. When distinct symbols are inserted one after the other (in a tree
    whose depths are indices of the bit path), both an earlier and a later
    symbol sit in the final tree: [path_info] finds each of them, the node
    of each is reached by [find_value] at the depth and bit path reported,
    and the depth of the symbol inserted earlier is not greater than the
    depth of the symbol inserted later. *)
Theorem earlier_inserted_not_deeper
        (sizeof_alphabet_T : nat) (symbols : list Z) (i j : nat) (si sj : Z) :
  Forall (fun x => 0 <= x < 2 ^ (8 * Z.of_nat sizeof_alphabet_T)) symbols ->
  NoDup symbols ->
  height (insert_all symbols) < bit_path_size sizeof_alphabet_T ->
  nth_error symbols i = Some si -> nth_error symbols j = Some sj ->
  (i <= j)%nat ->
  exists path_i path_j : PathInfo,
    path_info PathInfo_default (insert_all symbols) si = (true, path_i)
    /\ path_info PathInfo_default (insert_all symbols) sj = (true, path_j)
    /\ find_value sizeof_alphabet_T (insert_all symbols) path_i = Some si
    /\ find_value sizeof_alphabet_T (insert_all symbols) path_j = Some sj
    /\ depth path_i <= depth path_j.
Proof.
  intros Hrange Hnd _ Hi Hj Hij.
  assert (Hpos : Forall (fun x => 0 <= x) symbols).
  { revert Hrange. apply Forall_impl. intros x Hx. lia. }
  destruct (path_info_depth_log2 _ Hpos Hnd Hi) as (pi & Ei & Hdi).
  destruct (path_info_depth_log2 _ Hpos Hnd Hj) as (pj & Ej & Hdj).
  exists pi, pj. split; [exact Ei|]. split; [exact Ej|].
  assert (Hfind : forall s p,
             In s symbols ->
             path_info PathInfo_default (insert_all symbols) s = (true, p) ->
             find_value sizeof_alphabet_T (insert_all symbols) p = Some s).
  { intros s p Hs E. unfold path_info in E.
    destruct (path_info_at_found _ _ _ (Z.le_refl 0) E) as (k & l & r & Hk & Hf & _).
    unfold find_value. rewrite Hk, Z.add_0_l, Nat2Z.id, Hf.
    unfold view_as_alphabet_T. rewrite Z.mod_small; [reflexivity|].
    rewrite Forall_forall in Hrange. apply Hrange, Hs. }
  split; [apply Hfind; [apply (nth_error_In _ _ Hi) | exact Ei]|].
  split; [apply Hfind; [apply (nth_error_In _ _ Hj) | exact Ej]|].
  rewrite Hdi, Hdj. apply Z.log2_le_mono. lia.
Qed.

(** 'B' and 'D' in the tree of "ABCDE". *)
Lemma earlier_inserted_not_deeper_witness :
  exists path_i path_j : PathInfo,
    path_info PathInfo_default (insert_all [65; 66; 67; 68; 69]) 66 = (true, path_i)
    /\ path_info PathInfo_default (insert_all [65; 66; 67; 68; 69]) 68 = (true, path_j)
    /\ find_value 1 (insert_all [65; 66; 67; 68; 69]) path_i = Some 66
    /\ find_value 1 (insert_all [65; 66; 67; 68; 69]) path_j = Some 68
    /\ depth path_i <= depth path_j.
Proof.
  apply (@earlier_inserted_not_deeper 1 [65; 66; 67; 68; 69] 1 3 66 68).
  - repeat constructor; simpl; lia.
  - repeat constructor; simpl; intuition lia.
  - vm_compute. reflexivity.
  - reflexivity.
  - reflexivity.
  - lia.
Defined.

(** ** The contract of [std::sort] and the insertion sort *)

Lemma insert_sorted_perm (b : bool) (x : Letter) (sorted : list Letter) :
  Permutation (x :: sorted) (insert_sorted b x sorted).
Proof.
  induction sorted as [|y rest IH]; simpl; [apply Permutation_refl|].
  destruct (if b then freq y <? freq x else freq y <=? freq x).
  - apply Permutation_refl.
  - rewrite perm_swap. apply perm_skip, IH.
Qed.

Lemma insert_sorted_sorted (b : bool) (x : Letter) (sorted : list Letter) :
  StronglySorted (fun a b => freq b <= freq a) sorted ->
  StronglySorted (fun a b => freq b <= freq a) (insert_sorted b x sorted).
Proof.
  induction sorted as [|y rest IH]; intros Hs; simpl.
  - constructor; constructor.
  - inversion Hs as [|? ? Hrest Hy]; subst.
    destruct (if b then freq y <? freq x else freq y <=? freq x) eqn:E.
    + assert (Hyx : freq y <= freq x).
      { destruct b; [apply Z.ltb_lt in E | apply Z.leb_le in E]; lia. }
      constructor; [assumption|].
      constructor; [assumption|].
      revert Hy. apply Forall_impl. intros a Ha. lia.
    + assert (Hxy : freq x <= freq y).
      { destruct b; [apply Z.ltb_ge in E | apply Z.leb_gt in E]; lia. }
      constructor; [apply IH, Hrest|].
      apply Forall_forall. intros a Ha.
      apply (Permutation_in _ (Permutation_sym (insert_sorted_perm b x rest))) in Ha.
      destruct Ha as [<- | Ha]; [assumption|].
      rewrite Forall_forall in Hy. apply Hy, Ha.
Qed.

Lemma fold_insert_sorted (b : bool) (alphabet : list Letter) :
  forall acc,
    StronglySorted (fun a b => freq b <= freq a) acc ->
    Permutation (acc ++ alphabet)
                (fold_left (fun sorted x => insert_sorted b x sorted) alphabet acc)
    /\ StronglySorted (fun a b => freq b <= freq a)
                      (fold_left (fun sorted x => insert_sorted b x sorted) alphabet acc).
Proof.
  induction alphabet as [|x alphabet IH]; intros acc Hs; simpl.
  - rewrite app_nil_r. split; [apply Permutation_refl | assumption].
  - destruct (IH (insert_sorted b x acc) (insert_sorted_sorted b x Hs)) as [Hp Hs'].
    split; [|assumption].
    rewrite <- Hp. rewrite <- insert_sorted_perm.
    symmetry. apply Permutation_middle.
Qed.

Lemma insertion_sort_contract : sort_contract insertion_sort.
Proof.
  intros alphabet. apply (fold_insert_sorted true alphabet (acc := [])). constructor.
Qed.

Lemma sort_contract_nil (sort : list Letter -> list Letter) :
  sort_contract sort -> sort [] = [].
Proof.
  intros H. destruct (H []) as [Hp _]. apply Permutation_nil, Hp.
Qed.

(** *** libstdc++'s [std::sort] on at most sixteen letters *)

Lemma deref_app (l1 : list Letter) (x : Letter) (l2 : list Letter) :
  Libstdcxx.deref (l1 ++ x :: l2) (Z.of_nat (length l1)) = Some x.
Proof.
  unfold Libstdcxx.deref.
  replace (Z.of_nat (length l1) <? 0) with false by (symmetry; apply Z.ltb_ge; lia).
  rewrite Nat2Z.id, nth_error_app2, Nat.sub_diag by lia. reflexivity.
Qed.

Lemma assign_app (l1 : list Letter) (y x : Letter) (l2 : list Letter) :
  Libstdcxx.assign (l1 ++ y :: l2) (Z.of_nat (length l1)) x = Some (l1 ++ x :: l2).
Proof.
  unfold Libstdcxx.assign.
  replace (0 <=? Z.of_nat (length l1)) with true by (symmetry; apply Z.leb_le; lia).
  replace (Z.of_nat (length l1) <? Z.of_nat (length (l1 ++ y :: l2))) with true
    by (symmetry; apply Z.ltb_lt; rewrite length_app; cbn [length]; lia).
  cbn [andb]. rewrite Nat2Z.id. f_equal.
  rewrite firstn_app, firstn_all, Nat.sub_diag, firstn_O, app_nil_r. f_equal.
  change (S (length l1)) with (1 + length l1)%nat.
  rewrite <- skipn_skipn, skipn_app, skipn_all, Nat.sub_diag. reflexivity.
Qed.

(** [move_backward] shifts a range by one element to the right. *)
Lemma move_backward_shift (mid : list Letter) :
  forall (pre : list Letter) (z : Letter) (post : list Letter),
    Libstdcxx.move_backward (length mid) (pre ++ mid ++ z :: post)
                            (Z.of_nat (length pre + length mid))
                            (Z.of_nat (length pre + length mid) + 1)
    = Some (pre ++ hd z mid :: mid ++ post).
Proof.
  induction mid as [|m mid IH] using rev_ind; intros pre z post.
  - reflexivity.
  - rewrite length_app. cbn [length].
    replace (length mid + 1)%nat with (S (length mid)) by lia.
    cbn [Libstdcxx.move_backward].
    replace (Z.of_nat (length pre + S (length mid)) - 1)
      with (Z.of_nat (length (pre ++ mid))) by (rewrite length_app; lia).
    replace (pre ++ (mid ++ [m]) ++ z :: post) with ((pre ++ mid) ++ m :: z :: post)
      by (rewrite <- !app_assoc; reflexivity).
    rewrite deref_app.
    replace (Z.of_nat (length pre + S (length mid)) + 1 - 1)
      with (Z.of_nat (length ((pre ++ mid) ++ [m])))
      by (rewrite !length_app; cbn [length]; lia).
    replace ((pre ++ mid) ++ m :: z :: post) with (((pre ++ mid) ++ [m]) ++ z :: post)
      by (rewrite <- !app_assoc; reflexivity).
    rewrite assign_app.
    replace (((pre ++ mid) ++ [m]) ++ m :: post) with (pre ++ mid ++ m :: m :: post)
      by (rewrite <- !app_assoc; reflexivity).
    replace (Z.of_nat (length (pre ++ mid))) with (Z.of_nat (length pre + length mid))
      by (rewrite length_app; reflexivity).
    replace (Z.of_nat (length ((pre ++ mid) ++ [m])))
      with (Z.of_nat (length pre + length mid) + 1)
      by (rewrite !length_app; cbn [length]; lia).
    rewrite IH. f_equal. f_equal.
    rewrite <- app_assoc. destruct mid; reflexivity.
Qed.

Lemma insert_sorted_snoc (x y : Letter) (sorted : list Letter) :
  freq y < freq x ->
  insert_sorted true x (sorted ++ [y]) = insert_sorted true x sorted ++ [y].
Proof.
  intros Hy. induction sorted as [|e sorted IH]; cbn [app insert_sorted].
  - replace (freq y <? freq x) with true by (symmetry; apply Z.ltb_lt; lia).
    reflexivity.
  - destruct (freq e <? freq x); [reflexivity|]. rewrite IH. reflexivity.
Qed.

Lemma insert_sorted_last (x : Letter) (sorted : list Letter) :
  (forall e, In e sorted -> freq x <= freq e) ->
  insert_sorted true x sorted = sorted ++ [x].
Proof.
  induction sorted as [|e sorted IH]; intros H; cbn [app insert_sorted];
    [reflexivity|].
  replace (freq e <? freq x) with false
    by (symmetry; apply Z.ltb_ge, H; left; reflexivity).
  rewrite IH; [reflexivity|]. intros e' He'. apply H. right. exact He'.
Qed.

Lemma StronglySorted_snoc (sorted : list Letter) (y : Letter) :
  StronglySorted (fun a b => freq b <= freq a) (sorted ++ [y]) ->
  StronglySorted (fun a b => freq b <= freq a) sorted
  /\ forall e, In e sorted -> freq y <= freq e.
Proof.
  induction sorted as [|e sorted IH]; intros H.
  - split; [constructor | intros e []].
  - cbn [app] in H. inversion H as [|? ? Hs Hall]; subst.
    destruct (IH Hs) as [Hs' Hy]. rewrite Forall_forall in Hall.
    split.
    + constructor; [exact Hs'|]. apply Forall_forall. intros e' He'.
      apply Hall, in_or_app. left. exact He'.
    + intros e' [<- | He'].
      * apply Hall, in_or_app. right. left. reflexivity.
      * apply Hy, He'.
Qed.

(** The loop of [__unguarded_linear_insert] in front of a sorted range
    whose first letter stops it: it puts the letter behind the letters of
    at least its frequency. *)
Lemma linear_insert_loop_sorted (val : Letter) (sorted : list Letter) :
  forall (steps : nat) (hole : Letter) (rest : list Letter),
    StronglySorted (fun a b => freq b <= freq a) sorted ->
    (exists f tl, sorted = f :: tl /\ Libstdcxx.comp val f = false) ->
    (length sorted < steps)%nat ->
    Libstdcxx.linear_insert_loop steps (sorted ++ hole :: rest) val
                                 (Z.of_nat (length sorted))
                                 (Z.of_nat (length sorted) - 1)
    = Some (insert_sorted true val sorted ++ rest).
Proof.
  induction sorted as [|y sorted IH] using rev_ind;
    intros steps hole rest Hs (f & tl & Ef & Hf) Hsteps; [discriminate|].
  destruct steps as [|steps]; [lia|].
  rewrite length_app in *. cbn [length] in *.
  cbn [Libstdcxx.linear_insert_loop].
  replace (Z.of_nat (length sorted + 1) - 1) with (Z.of_nat (length sorted)) by lia.
  rewrite <- app_assoc. cbn [app]. rewrite deref_app.
  destruct (StronglySorted_snoc _ _ Hs) as [Hs' Hy].
  destruct (Libstdcxx.comp val y) eqn:Ec; unfold Libstdcxx.comp in Ec.
  - apply Z.ltb_lt in Ec.
    replace (sorted ++ y :: hole :: rest) with ((sorted ++ [y]) ++ hole :: rest)
      by (rewrite <- app_assoc; reflexivity).
    replace (Z.of_nat (length sorted + 1)) with (Z.of_nat (length (sorted ++ [y])))
      by (rewrite length_app; reflexivity).
    rewrite assign_app, <- app_assoc. cbn [app].
    rewrite IH; [| exact Hs' | | lia].
    + rewrite insert_sorted_snoc, <- app_assoc by exact Ec. reflexivity.
    + destruct sorted as [|e sorted'].
      * cbn [app] in Ef. injection Ef as <- _.
        unfold Libstdcxx.comp in Hf. apply Z.ltb_ge in Hf. lia.
      * cbn [app] in Ef. injection Ef as <- _. eauto.
  - apply Z.ltb_ge in Ec.
    replace (sorted ++ y :: hole :: rest) with ((sorted ++ [y]) ++ hole :: rest)
      by (rewrite <- app_assoc; reflexivity).
    replace (Z.of_nat (length sorted + 1)) with (Z.of_nat (length (sorted ++ [y])))
      by (rewrite length_app; reflexivity).
    rewrite assign_app. f_equal.
    rewrite insert_sorted_last, <- !app_assoc; [reflexivity|].
    intros e He. apply in_app_or in He. destruct He as [He | [<- | []]]; [|lia].
    specialize (Hy e He). lia.
Qed.

Lemma length_insert_sorted (b : bool) (x : Letter) (sorted : list Letter) :
  length (insert_sorted b x sorted) = S (length sorted).
Proof.
  rewrite <- (Permutation_length (insert_sorted_perm b x sorted)). reflexivity.
Qed.

(** The loop of [__insertion_sort] behind a sorted range. *)
Lemma insertion_sort_loop_sorted (rest : list Letter) :
  forall sorted : list Letter,
    sorted <> [] ->
    StronglySorted (fun a b => freq b <= freq a) sorted ->
    Libstdcxx.insertion_sort_loop (length rest) (sorted ++ rest) 0
                                  (Z.of_nat (length sorted))
    = Some (fold_left (fun s x => insert_sorted true x s) rest sorted).
Proof.
  induction rest as [|x rest IH]; intros sorted Hne Hs.
  - cbn. rewrite app_nil_r. reflexivity.
  - destruct sorted as [|f tl] eqn:Esorted; [contradiction|].
    rewrite <- Esorted in *.
    cbn [length Libstdcxx.insertion_sort_loop fold_left].
    rewrite deref_app.
    assert (E0 : Libstdcxx.deref (sorted ++ x :: rest) 0 = Some f)
      by (rewrite Esorted; reflexivity).
    rewrite E0.
    assert (Hnext : Libstdcxx.insertion_sort_loop
                      (length rest) (insert_sorted true x sorted ++ rest) 0
                      (Z.of_nat (length sorted) + 1)
                    = Some (fold_left (fun s x => insert_sorted true x s) rest
                                      (insert_sorted true x sorted))).
    { replace (Z.of_nat (length sorted) + 1)
        with (Z.of_nat (length (insert_sorted true x sorted)))
        by (rewrite length_insert_sorted; lia).
      apply IH; [|apply insert_sorted_sorted, Hs].
      intros E. apply (f_equal (@length Letter)) in E.
      rewrite length_insert_sorted in E. discriminate. }
    destruct (Libstdcxx.comp x f) eqn:Ec.
    + replace (Z.to_nat (Z.of_nat (length sorted) - 0)) with (length sorted) by lia.
      pose proof (move_backward_shift sorted [] x rest) as Hm.
      cbn [app length Nat.add] in Hm. rewrite Hm.
      assert (Ea : Libstdcxx.assign (hd x sorted :: sorted ++ rest) 0 x
                   = Some (x :: sorted ++ rest)) by reflexivity.
      rewrite Ea.
      assert (Ei : insert_sorted true x sorted = x :: sorted).
      { rewrite Esorted. cbn [insert_sorted]. unfold Libstdcxx.comp in Ec.
        rewrite Ec. reflexivity. }
      rewrite <- Hnext, Ei. reflexivity.
    + unfold Libstdcxx.__unguarded_linear_insert. rewrite deref_app.
      rewrite linear_insert_loop_sorted;
        [exact Hnext | exact Hs | rewrite Esorted; eauto
         | rewrite length_app; cbn [length]; lia].
Qed.

(** On at most sixteen letters [std::sort] is a plain insertion sort: it
    only touches the array inside, and it leaves the letters of equal
    frequency in their order. *)
Lemma libstdcxx_sort_small (alphabet : list Letter) :
  (length alphabet <= 16)%nat ->
  Libstdcxx.sort alphabet = Some (insertion_sort alphabet).
Proof.
  intros Hlen. destruct alphabet as [|a rest]; [reflexivity|].
  unfold Libstdcxx.sort.
  replace (0 =? Z.of_nat (length (a :: rest))) with false
    by (symmetry; apply Z.eqb_neq; cbn [length]; lia).
  cbn [Libstdcxx.__introsort_loop].
  replace (Z.of_nat (length (a :: rest)) - 0 >? Libstdcxx._S_threshold) with false
    by (symmetry; rewrite Z.gtb_ltb; apply Z.ltb_ge;
        unfold Libstdcxx._S_threshold; cbn [length] in *; lia).
  unfold Libstdcxx.__final_insertion_sort.
  replace (Z.of_nat (length (a :: rest)) - 0 >? Libstdcxx._S_threshold) with false
    by (symmetry; rewrite Z.gtb_ltb; apply Z.ltb_ge;
        unfold Libstdcxx._S_threshold; cbn [length] in *; lia).
  unfold Libstdcxx.__insertion_sort.
  replace (0 =? Z.of_nat (length (a :: rest))) with false
    by (symmetry; apply Z.eqb_neq; cbn [length]; lia).
  replace (Z.to_nat (Z.of_nat (length (a :: rest)) - (0 + 1))) with (length rest)
    by (cbn [length]; lia).
  change (0 + 1) with (Z.of_nat (length [a])).
  change (a :: rest) with ([a] ++ rest).
  rewrite insertion_sort_loop_sorted; [reflexivity | discriminate|].
  repeat constructor.
Qed.

Lemma libstdcxx_sort_small_contract (alphabet : list Letter) :
  (length alphabet <= 16)%nat ->
  libstdcxx_sort alphabet = insertion_sort alphabet
  /\ Permutation alphabet (libstdcxx_sort alphabet)
  /\ StronglySorted (fun a b => freq b <= freq a) (libstdcxx_sort alphabet).
Proof.
  intros Hlen. unfold libstdcxx_sort. rewrite (libstdcxx_sort_small _ Hlen).
  split; [reflexivity|]. apply insertion_sort_contract.
Qed.

(** ** The frequency table *)

Lemma lookup_freq_add_occurrence (alphabet : list Letter) (o : Occurrence) (s : Z) :
  lookup_freq (add_occurrence alphabet o) s
  = if letter_value o =? s
    then Some (match lookup_freq alphabet s with
               | Some f => wrap_size_t (f + count o)
               | None => count o
               end)
    else lookup_freq alphabet s.
Proof.
  induction alphabet as [|a rest IH]; simpl.
  - destruct (letter_value o =? s); reflexivity.
  - destruct (letter_value o =? value a) eqn:Eoa; simpl.
    + apply Z.eqb_eq in Eoa. rewrite Eoa.
      destruct (value a =? s); reflexivity.
    + destruct (value a =? s) eqn:Eas.
      * apply Z.eqb_eq in Eas. subst s. rewrite Eoa. reflexivity.
      * apply IH.
Qed.

Lemma lookup_freq_None (alphabet : list Letter) (s : Z) :
  lookup_freq alphabet s = None <-> ~ In s (map value alphabet).
Proof.
  induction alphabet as [|a rest IH]; simpl; [tauto|].
  destruct (value a =? s) eqn:E.
  - apply Z.eqb_eq in E. split; [discriminate | tauto].
  - apply Z.eqb_neq in E. rewrite IH. tauto.
Qed.

Lemma lookup_freq_In (alphabet : list Letter) (a : Letter) :
  NoDup (map value alphabet) -> In a alphabet ->
  lookup_freq alphabet (value a) = Some (freq a).
Proof.
  induction alphabet as [|x rest IH]; simpl; intros Hnd Hin; [contradiction|].
  inversion Hnd as [|? ? Hx Hnd']; subst.
  destruct Hin as [-> | Hin].
  - rewrite Z.eqb_refl. reflexivity.
  - destruct (value x =? value a) eqn:E.
    + apply Z.eqb_eq in E. exfalso. apply Hx. rewrite E.
      apply in_map, Hin.
    + apply IH; assumption.
Qed.

Lemma add_occurrence_values (alphabet : list Letter) (o : Occurrence) :
  map value (add_occurrence alphabet o)
  = if existsb (fun a => letter_value o =? value a) alphabet
    then map value alphabet
    else map value alphabet ++ [letter_value o].
Proof.
  induction alphabet as [|a rest IH]; simpl; [reflexivity|].
  destruct (letter_value o =? value a) eqn:E; simpl; [reflexivity|].
  rewrite IH. destruct (existsb _ rest); reflexivity.
Qed.

Lemma add_occurrence_NoDup (alphabet : list Letter) (o : Occurrence) :
  NoDup (map value alphabet) -> NoDup (map value (add_occurrence alphabet o)).
Proof.
  intros Hnd. rewrite add_occurrence_values.
  destruct (existsb _ alphabet) eqn:E; [assumption|].
  apply NoDup_app; [assumption | repeat constructor; simpl; tauto |].
  intros s Hs [<- | []].
  apply in_map_iff in Hs. destruct Hs as (a & Ha & Hin).
  assert (existsb (fun a => letter_value o =? value a) alphabet = true).
  { apply existsb_exists. exists a. split; [assumption|].
    rewrite Ha. apply Z.eqb_refl. }
  congruence.
Qed.

Lemma construct_alphabet_snoc (occurrences : list Occurrence) (o : Occurrence) :
  construct_alphabet (occurrences ++ [o])
  = add_occurrence (construct_alphabet occurrences) o.
Proof. unfold construct_alphabet. rewrite fold_left_app. reflexivity. Qed.

Lemma letter_freq_snoc (occurrences : list Occurrence) (o : Occurrence) (s : Z) :
  letter_freq (occurrences ++ [o]) s
  = letter_freq occurrences s + (if letter_value o =? s then count o else 0).
Proof.
  induction occurrences as [|x rest IH]; simpl; [lia | rewrite IH; lia].
Qed.

Lemma letter_freq_absent (occurrences : list Occurrence) (s : Z) :
  ~ In s (map letter_value occurrences) -> letter_freq occurrences s = 0.
Proof.
  induction occurrences as [|x rest IH]; simpl; intros H; [reflexivity|].
  destruct (letter_value x =? s) eqn:E.
  - apply Z.eqb_eq in E. tauto.
  - rewrite IH; tauto.
Qed.

Lemma construct_alphabet_NoDup (occurrences : list Occurrence) :
  NoDup (map value (construct_alphabet occurrences)).
Proof.
  induction occurrences as [|o occurrences IH] using rev_ind.
  - constructor.
  - rewrite construct_alphabet_snoc. apply add_occurrence_NoDup, IH.
Qed.

(** The table records, for each symbol of the runs and for no other, the
    sum of the counts of its runs, reduced to a [size_t]. *)
Lemma construct_alphabet_lookup (occurrences : list Occurrence) (s : Z) :
  Forall (fun o => 0 <= count o < 2 ^ 64) occurrences ->
  match lookup_freq (construct_alphabet occurrences) s with
  | Some f => f = wrap_size_t (letter_freq occurrences s)
              /\ In s (map letter_value occurrences)
  | None => ~ In s (map letter_value occurrences)
  end.
Proof.
  induction occurrences as [|o occurrences IH] using rev_ind; intros Hc.
  - simpl. tauto.
  - apply Forall_app in Hc. destruct Hc as [Hc Ho].
    inversion Ho as [|? ? Hoc _]; subst.
    specialize (IH Hc).
    rewrite construct_alphabet_snoc, lookup_freq_add_occurrence.
    pose proof (letter_freq_snoc occurrences o s) as Hsnoc.
    assert (Hin : In s (map letter_value (occurrences ++ [o]))
                  <-> In s (map letter_value occurrences) \/ letter_value o = s).
    { rewrite map_app, in_app_iff. simpl. tauto. }
    destruct (letter_value o =? s) eqn:E.
    + apply Z.eqb_eq in E.
      destruct (lookup_freq (construct_alphabet occurrences) s) as [f|].
      * destruct IH as [-> _]. split; [|tauto].
        rewrite Hsnoc. unfold wrap_size_t. apply Zplus_mod_idemp_l.
      * rewrite Hsnoc, (letter_freq_absent _ _ IH). split; [|tauto].
        unfold wrap_size_t. rewrite Z.mod_small; lia.
    + apply Z.eqb_neq in E. rewrite Hsnoc, Z.add_0_r.
      destruct (lookup_freq (construct_alphabet occurrences) s) as [f|]; tauto.
Qed.

(** *** Runs and values *)

Lemma letter_freq_count_occ (occurrences : list Occurrence) (s : Z) :
  Forall (fun o => 1 <= count o <= 255) occurrences ->
  letter_freq occurrences s
  = Z.of_nat (count_occ Z.eq_dec (flat_map expand occurrences) s).
Proof.
  induction occurrences as [|o rest IH]; intros Hc; simpl; [reflexivity|].
  inversion Hc as [|? ? Ho Hrest]; subst.
  rewrite count_occ_app, Nat2Z.inj_add, <- (IH Hrest). unfold expand.
  destruct (letter_value o =? s) eqn:E.
  - apply Z.eqb_eq in E. rewrite count_occ_repeat_eq by congruence. lia.
  - apply Z.eqb_neq in E. rewrite count_occ_repeat_neq by congruence. lia.
Qed.

Lemma letters_of_runs (occurrences : list Occurrence) (s : Z) :
  Forall (fun o => 1 <= count o <= 255) occurrences ->
  In s (map letter_value occurrences) <-> In s (flat_map expand occurrences).
Proof.
  intros Hc. rewrite in_map_iff, in_flat_map. rewrite Forall_forall in Hc.
  split; intros (o & H1 & H2).
  - exists o. split; [assumption|]. subst s. unfold expand.
    specialize (Hc o H2).
    destruct (Z.to_nat (count o)) eqn:E; [lia | left; reflexivity].
  - exists o. split; [|assumption]. apply repeat_spec in H2. congruence.
Qed.

Lemma Forall_count_size_t (occurrences : list Occurrence) :
  Forall (fun o => 1 <= count o <= 255) occurrences ->
  Forall (fun o => 0 <= count o < 2 ^ 64) occurrences.
Proof. apply Forall_impl. intros a H. lia. Qed.

Section Alphabet.

Variable sizeof_alphabet_T : nat.
Variable std_sort : list Letter -> list Letter.
Hypothesis std_sort_contract : sort_contract std_sort.

Let values_ := encode_values sizeof_alphabet_T.
Let alphabet_ := encode_alphabet sizeof_alphabet_T std_sort.

Lemma encode_occurrences_count (data : list byte) :
  Forall (fun o => 1 <= count o <= 255) (encode_occurrences sizeof_alphabet_T data).
Proof. apply store_contiguous_count. Qed.

Lemma encode_occurrences_expand (data : list byte) :
  flat_map expand (encode_occurrences sizeof_alphabet_T data) = values_ data.
Proof. apply store_contiguous_expand. Qed.

Lemma encode_alphabet_perm (data : list byte) :
  Permutation (construct_alphabet (encode_occurrences sizeof_alphabet_T data))
              (alphabet_ data).
Proof. apply std_sort_contract. Qed.

Lemma encode_alphabet_NoDup (data : list byte) :
  NoDup (map value (alphabet_ data)).
Proof.
  apply (Permutation_NoDup (Permutation_map value (encode_alphabet_perm data))).
  apply construct_alphabet_NoDup.
Qed.

Lemma encode_alphabet_In (data : list byte) (s : Z) :
  In s (map value (alphabet_ data)) <-> In s (values_ data).
Proof.
  rewrite <- encode_occurrences_expand.
  rewrite <- (letters_of_runs s (encode_occurrences_count data)).
  pose proof (construct_alphabet_lookup s
                (Forall_count_size_t (encode_occurrences_count data))) as Hl.
  pose proof (lookup_freq_None
                (construct_alphabet (encode_occurrences sizeof_alphabet_T data)) s) as Hn.
  split.
  - intros Hin.
    apply (Permutation_in _ (Permutation_sym
             (Permutation_map value (encode_alphabet_perm data)))) in Hin.
    destruct (lookup_freq _ s); [tauto|].
    exfalso. apply Hn; [reflexivity | assumption].
  - intros Hin.
    apply (Permutation_in _ (Permutation_map value (encode_alphabet_perm data))).
    destruct (lookup_freq _ s) as [f|] eqn:E; [|contradiction].
    destruct (in_dec Z.eq_dec s
                (map value (construct_alphabet (encode_occurrences sizeof_alphabet_T data))))
      as [Hi | Hni]; [assumption|].
    apply Hn in Hni. discriminate.
Qed.

Lemma encode_alphabet_freq (data : list byte) (a : Letter) :
  In a (alphabet_ data) ->
  freq a = wrap_size_t (Z.of_nat (count_occ Z.eq_dec (values_ data) (value a))).
Proof.
  intros Hin.
  apply (Permutation_in _ (Permutation_sym (encode_alphabet_perm data))) in Hin.
  pose proof (lookup_freq_In _ _ (construct_alphabet_NoDup _) Hin) as Hl.
  pose proof (construct_alphabet_lookup (value a)
                (Forall_count_size_t (encode_occurrences_count data))) as Hc.
  rewrite Hl in Hc. destruct Hc as [-> _].
  rewrite (letter_freq_count_occ _ (encode_occurrences_count data)).
  rewrite encode_occurrences_expand. reflexivity.
Qed.

End Alphabet.

(** ** The order of the alphabet *)

(** C4, as the code has it.  With libstdc++'s [std::sort] on an input of
    at most sixteen distinct symbols, and with every [std::sort] that meets
    its contract on any input, the alphabet of [encode] is sorted by
    frequency, largest first; it holds each symbol of the input once, and
    the frequency of an entry is the number of times its symbol occurs in
    the input (as a [size_t]).  The order of entries of equal frequency is
    the one [std::sort] leaves. *)
Theorem alphabet_sorted_by_frequency
        (sizeof_alphabet_T : nat) (std_sort : list Letter -> list Letter)
        (data : list byte) :
  sort_contract std_sort
  \/ (std_sort = libstdcxx_sort
      /\ (length (construct_alphabet (encode_occurrences sizeof_alphabet_T data))
          <= 16)%nat) ->
  StronglySorted (fun a b => freq b <= freq a)
                 (encode_alphabet sizeof_alphabet_T std_sort data)
  /\ NoDup (map value (encode_alphabet sizeof_alphabet_T std_sort data))
  /\ (forall s, In s (map value (encode_alphabet sizeof_alphabet_T std_sort data))
                <-> In s (encode_values sizeof_alphabet_T data))
  /\ (forall a, In a (encode_alphabet sizeof_alphabet_T std_sort data) ->
                freq a = wrap_size_t
                           (Z.of_nat (count_occ Z.eq_dec
                                        (encode_values sizeof_alphabet_T data)
                                        (value a)))).
Proof.
  intros [Hsort | [-> Hlen]].
  - split; [apply Hsort|].
    split; [apply encode_alphabet_NoDup, Hsort|].
    split; [intros s; apply encode_alphabet_In, Hsort|].
    intros a. apply encode_alphabet_freq, Hsort.
  - assert (E : encode_alphabet sizeof_alphabet_T libstdcxx_sort data
                = encode_alphabet sizeof_alphabet_T insertion_sort data)
      by (unfold encode_alphabet; apply libstdcxx_sort_small_contract, Hlen).
    rewrite E.
    split; [apply insertion_sort_contract|].
    split; [apply encode_alphabet_NoDup, insertion_sort_contract|].
    split; [intros s; apply encode_alphabet_In, insertion_sort_contract|].
    intros a. apply encode_alphabet_freq, insertion_sort_contract.
Qed.

(** The alphabet of the buffer "ABBC", sorted by libstdc++. *)
Lemma alphabet_sorted_by_frequency_witness :
  StronglySorted (fun a b => freq b <= freq a)
                 (encode_alphabet 1 libstdcxx_sort [x41; x42; x42; x43])
  /\ NoDup (map value (encode_alphabet 1 libstdcxx_sort [x41; x42; x42; x43]))
  /\ (forall s, In s (map value (encode_alphabet 1 libstdcxx_sort [x41; x42; x42; x43]))
                <-> In s (encode_values 1 [x41; x42; x42; x43]))
  /\ (forall a, In a (encode_alphabet 1 libstdcxx_sort [x41; x42; x42; x43]) ->
                freq a = wrap_size_t
                           (Z.of_nat (count_occ Z.eq_dec
                                        (encode_values 1 [x41; x42; x42; x43])
                                        (value a)))).
Proof.
  apply (@alphabet_sorted_by_frequency 1 libstdcxx_sort [x41; x42; x42; x43]).
  right. split; [reflexivity | vm_compute; lia].
Defined.

(** C4, as the specification words it, fails on the seventeen bytes
    "ABCDEFGHIJKLMNOPQ".  Every byte occurs once.  libstdc++'s [std::sort]
    partitions a range of more than 16 elements around the median of three
    and swaps elements of equal frequency on the way: it leaves the
    alphabet I Q P O N M L K J A H G F E D C B, in which I comes before A
    although A is met first. *)
Lemma first_seen_order_not_kept :
  Libstdcxx.sort
    (construct_alphabet
       (encode_occurrences 1 [x41; x42; x43; x44; x45; x46; x47; x48; x49;
                              x4a; x4b; x4c; x4d; x4e; x4f; x50; x51]))
  = Some (map (fun v => mkLetter v 1)
              [73; 81; 80; 79; 78; 77; 76; 75; 74; 65; 72; 71; 70; 69; 68; 67; 66])
  /\ map value
         (encode_alphabet 1 libstdcxx_sort
                          [x41; x42; x43; x44; x45; x46; x47; x48; x49;
                           x4a; x4b; x4c; x4d; x4e; x4f; x50; x51])
     = [73; 81; 80; 79; 78; 77; 76; 75; 74; 65; 72; 71; 70; 69; 68; 67; 66]
  /\ ~ keeps_first_seen_order 1 libstdcxx_sort
                              [x41; x42; x43; x44; x45; x46; x47; x48; x49;
                               x4a; x4b; x4c; x4d; x4e; x4f; x50; x51].
Proof.
  split; [vm_compute; reflexivity|].
  split; [vm_compute; reflexivity|].
  intros H.
  specialize (H 9%nat 0%nat (mkLetter 65 1) (mkLetter 73 1)).
  assert (Hlt : (9 < 0)%nat).
  { apply H.
    - vm_compute. reflexivity.
    - vm_compute. reflexivity.
    - simpl. lia.
    - reflexivity.
    - vm_compute. lia. }
  lia.
Qed.

(** ** Empty input *)

Lemma encode_values_nil (sizeof_alphabet_T : nat) :
  encode_values sizeof_alphabet_T [] = [].
Proof.
  unfold encode_values. destruct sizeof_alphabet_T; reflexivity.
Qed.

(** C10. For an empty input [encode] writes the byte of [max_depth_bits]
    (the bits needed for height 0), the byte 255 for the alphabet size minus
    one, no alphabet entry, no path bit, and four zero bytes for the
    counter. *)
Theorem encode_empty_input
        (sizeof_alphabet_T : nat) (BitsNeeded : Z -> Z)
        (std_sort : list Letter -> list Letter) :
  sort_contract std_sort ->
  encode sizeof_alphabet_T BitsNeeded std_sort []
  = [view_as_byte_t (BitsNeeded 0); xff; x00; x00; x00; x00].
Proof.
  intros Hsort.
  unfold encode, encode_writer, encode_header, encode_max_depth_bits,
    encode_tree, encode_alphabet, encode_occurrences.
  rewrite encode_values_nil. simpl store_contiguous.
  unfold construct_alphabet. cbn [fold_left].
  rewrite (sort_contract_nil Hsort). reflexivity.
Qed.

(** The empty buffer with one-byte symbols. *)
Lemma encode_empty_input_witness :
  encode 1 Bits.BitsNeeded insertion_sort []
  = [view_as_byte_t (Bits.BitsNeeded 0); xff; x00; x00; x00; x00].
Proof.
  apply (@encode_empty_input 1 Bits.BitsNeeded insertion_sort).
  apply insertion_sort_contract.
Defined.

(** ** Bits *)

Lemma bits_value_range (p : list bool) :
  0 <= bits_value p < 2 ^ Z.of_nat (length p).
Proof.
  induction p as [|b p IH]; [simpl; lia|].
  cbn [bits_value length]. rewrite Nat2Z.inj_succ, Z.pow_succ_r by lia.
  destruct b; simpl Z.b2z; lia.
Qed.

Lemma bits_value_snoc (p : list bool) (b : bool) :
  bits_value (p ++ [b]) = bits_value p + Z.b2z b * 2 ^ Z.of_nat (length p).
Proof.
  induction p as [|x p IH]; [simpl; lia|].
  cbn [bits_value length app]. rewrite IH, Nat2Z.inj_succ, Z.pow_succ_r by lia.
  lia.
Qed.

Lemma testbit_small (x c : Z) : 0 <= x < 2 ^ c -> 0 <= c -> Z.testbit x c = false.
Proof.
  intros Hx Hc. rewrite Z.testbit_eqb by assumption.
  rewrite Z.div_small by assumption. reflexivity.
Qed.

Lemma lor_shiftl_1 (x c : Z) :
  0 <= x < 2 ^ c -> 0 <= c -> Z.lor x (Z.shiftl 1 c) = x + 2 ^ c.
Proof.
  intros Hx Hc. rewrite Z.shiftl_1_l.
  assert (E : Z.land x (2 ^ c) = 0); [|pose proof (Z.add_lor_land x (2 ^ c)); lia].
  apply Z.bits_inj'. intros i Hi.
  rewrite Z.land_spec, Z.bits_0, Z.pow2_bits_eqb by assumption.
  destruct (c =? i) eqn:E; [|apply andb_false_r].
  apply Z.eqb_eq in E. subst i. rewrite testbit_small by assumption. reflexivity.
Qed.

Lemma land_shiftl_1 (b c : Z) :
  0 <= c -> (Z.land b (Z.shiftl 1 c) =? 0) = negb (Z.testbit b c).
Proof.
  intros Hc. rewrite Z.shiftl_1_l.
  assert (E : Z.land b (2 ^ c) = if Z.testbit b c then 2 ^ c else 0).
  { apply Z.bits_inj'. intros i Hi.
    rewrite Z.land_spec, Z.pow2_bits_eqb by assumption.
    destruct (c =? i) eqn:Eci.
    - apply Z.eqb_eq in Eci. subst i. rewrite andb_true_r.
      destruct (Z.testbit b c); [|rewrite Z.bits_0; reflexivity].
      rewrite Z.pow2_bits_true by assumption. reflexivity.
    - rewrite andb_false_r.
      destruct (Z.testbit b c); [|rewrite Z.bits_0; reflexivity].
      rewrite Z.pow2_bits_false; [reflexivity|].
      apply Z.eqb_neq, Eci. }
  rewrite E. destruct (Z.testbit b c); simpl; [|reflexivity].
  apply Z.eqb_neq. pose proof (Z.pow_pos_nonneg 2 c). lia.
Qed.

Lemma byte_bits_value (p : list bool) :
  (length p <= 8)%nat ->
  byte_bits (bits_value p) = p ++ repeat false (8 - length p).
Proof.
  intros H.
  do 9 (destruct p as [|[] p]; try reflexivity).
  all: simpl in H; lia.
Qed.

Lemma length_byte_bits (b : Z) : length (byte_bits b) = 8%nat.
Proof. reflexivity. Qed.

Lemma unpack_app (a b : list byte) : unpack (a ++ b) = unpack a ++ unpack b.
Proof. unfold unpack. apply flat_map_app. Qed.

Lemma length_unpack (bytes : list byte) :
  length (unpack bytes) = (8 * length bytes)%nat.
Proof.
  induction bytes as [|b bytes IH]; [reflexivity|].
  change (unpack (b :: bytes)) with (byte_bits (Z_of_byte b) ++ unpack bytes).
  rewrite length_app, IH, length_byte_bits. simpl length. lia.
Qed.

(** ** The writer *)

Lemma wrap_uint32_t_succ (n : Z) :
  wrap_uint32_t (wrap_uint32_t n + 1) = wrap_uint32_t (n + 1).
Proof. unfold wrap_uint32_t. apply Zplus_mod_idemp_l. Qed.

Lemma put_bit_holds (header : list byte) (bits : list bool) (b : bool) (w : Writer) :
  writer_holds header bits w ->
  writer_holds header (bits ++ [b]) (put_bit b w).
Proof.
  intros (full & partial & Hres & Hbits & Hlen & Hon & Hbyte & Hwritten).
  pose proof (bits_value_range partial) as Hrange.
  pose proof (bits_value_range (partial ++ [b])) as Hrange'.
  assert (Hpow : 2 ^ Z.of_nat (length (partial ++ [b])) <= 256).
  { change 256 with (2 ^ 8). apply Z.pow_le_mono_r; [lia|].
    rewrite length_app. simpl. lia. }
  set (w1 := if b then write_bit w else w).
  assert (H1 : result w1 = result w
               /\ written_bits_on_result_byte w1 = written_bits_on_result_byte w
               /\ written_bits w1 = written_bits w
               /\ result_byte w1 = bits_value (partial ++ [b])).
  { subst w1. rewrite bits_value_snoc in *.
    destruct b; unfold write_bit;
      cbn [result written_bits_on_result_byte written_bits result_byte Z.b2z] in *.
    - repeat split. rewrite Hon, Hbyte, lor_shiftl_1 by lia.
      rewrite Z.mod_small; lia.
    - repeat split. lia. }
  destruct H1 as (R1 & R2 & R3 & R4).
  unfold put_bit. fold w1. unfold check_bit. rewrite R1, R2, R3, R4, Hon, Hwritten.
  assert (Hcount : wrap_uint32_t (wrap_uint32_t (Z.of_nat (length bits)) + 1)
                   = wrap_uint32_t (Z.of_nat (length (bits ++ [b])))).
  { rewrite wrap_uint32_t_succ, length_app. simpl length.
    f_equal. lia. }
  destruct (Z.of_nat (length partial) + 1 =? 8) eqn:E8.
  - apply Z.eqb_eq in E8.
    exists (full ++ [view_as_byte_t (bits_value (partial ++ [b]))]), [].
    simpl. rewrite Hres, <- app_assoc. split; [reflexivity|].
    split.
    { rewrite unpack_app, app_nil_r, Hbits, <- app_assoc. f_equal.
      unfold unpack. cbn [flat_map]. rewrite app_nil_r.
      rewrite Z_of_byte_view_small by lia.
      rewrite byte_bits_value by (rewrite length_app; cbn [length]; lia).
      replace (8 - length (partial ++ [b]))%nat with O
        by (rewrite length_app; cbn [length]; lia).
      symmetry. apply app_nil_r. }
    repeat split; [lia | assumption].
  - apply Z.eqb_neq in E8.
    exists full, (partial ++ [b]).
    simpl. split; [assumption|].
    split; [rewrite Hbits, app_assoc; reflexivity|].
    rewrite length_app. simpl length.
    repeat split; [lia | lia | assumption].
Qed.

Lemma for_loop_put_bits (header : list byte) (f : Z -> bool)
      (body : Z -> Writer -> Writer) (steps : nat) :
  forall (i : Z) (bits : list bool) (w : Writer),
    (forall j w', i <= j -> body j w' = put_bit (f j) w') ->
    writer_holds header bits w ->
    writer_holds header (bits ++ map f (zrange i steps))
                 (for_loop_from steps i body w).
Proof.
  induction steps as [|steps IH]; intros i bits w Hbody Hw; simpl.
  - rewrite app_nil_r. assumption.
  - replace (bits ++ f i :: map f (zrange (i + 1) steps))
      with ((bits ++ [f i]) ++ map f (zrange (i + 1) steps))
      by (rewrite <- app_assoc; reflexivity).
    apply IH.
    + intros j w' Hj. apply Hbody. lia.
    + rewrite Hbody by lia. apply put_bit_holds, Hw.
Qed.

Lemma method1_holds (header : list byte) (max_depth_bits : Z) (path : PathInfo)
      (bits : list bool) (w : Writer) :
  writer_holds header bits w ->
  writer_holds header (bits ++ code_bits max_depth_bits path)
               (method1 max_depth_bits path w).
Proof.
  intros Hw. unfold method1, code_bits, for_loop. rewrite app_assoc.
  apply for_loop_put_bits; [reflexivity|].
  apply for_loop_put_bits; [|assumption].
  intros j w' Hj. unfold put_bit. rewrite land_shiftl_1 by assumption.
  destruct (Z.testbit (depth path) j); reflexivity.
Qed.

Lemma for_loop_repeat (header : list byte) (code : list bool)
      (g : Writer -> Writer) (steps : nat) :
  (forall bits w, writer_holds header bits w ->
                  writer_holds header (bits ++ code) (g w)) ->
  forall (i : Z) (bits : list bool) (w : Writer),
    writer_holds header bits w ->
    writer_holds header (bits ++ concat (repeat code steps))
                 (for_loop_from steps i (fun _ w => g w) w).
Proof.
  intros Hg. induction steps as [|steps IH]; intros i bits w Hw; simpl.
  - rewrite app_nil_r. assumption.
  - rewrite app_assoc. apply IH, Hg, Hw.
Qed.

Lemma flat_map_repeat {A B} (f : A -> list B) (a : A) (n : nat) :
  flat_map f (repeat a n) = concat (repeat (f a) n).
Proof.
  induction n as [|n IH]; simpl; [reflexivity | rewrite IH; reflexivity].
Qed.

Lemma write_occurrence_holds (header : list byte) (binary_tree : shared_node)
      (max_depth_bits : Z) (o : Occurrence) (bits : list bool) (w : Writer) :
  writer_holds header bits w ->
  writer_holds header
    (bits ++ flat_map (fun v => code_bits max_depth_bits
                                  (snd (path_info PathInfo_default binary_tree v)))
                      (expand o))
    (write_occurrence binary_tree max_depth_bits w o).
Proof.
  intros Hw. unfold write_occurrence, for_loop, expand.
  rewrite flat_map_repeat.
  apply for_loop_repeat; [|assumption].
  intros bits' w'. apply method1_holds.
Qed.

Lemma fold_write_occurrence_holds (header : list byte) (binary_tree : shared_node)
      (max_depth_bits : Z) (occurrences : list Occurrence) :
  forall (bits : list bool) (w : Writer),
    writer_holds header bits w ->
    writer_holds header
      (bits ++ flat_map (fun v => code_bits max_depth_bits
                                    (snd (path_info PathInfo_default binary_tree v)))
                        (flat_map expand occurrences))
      (fold_left (write_occurrence binary_tree max_depth_bits) occurrences w).
Proof.
  induction occurrences as [|o occurrences IH]; intros bits w Hw; simpl.
  - rewrite app_nil_r. assumption.
  - rewrite flat_map_app, app_assoc.
    apply IH, write_occurrence_holds, Hw.
Qed.

(** The writer of [encode] has written the path bits of the input, symbol
    by symbol, behind the header. *)
Lemma encode_writer_holds (sizeof_alphabet_T : nat) (BitsNeeded : Z -> Z)
      (std_sort : list Letter -> list Letter) (data : list byte) :
  writer_holds (encode_header sizeof_alphabet_T BitsNeeded std_sort data)
               (encode_path_bits sizeof_alphabet_T BitsNeeded std_sort data)
               (encode_writer sizeof_alphabet_T BitsNeeded std_sort data).
Proof.
  unfold encode_writer, encode_path_bits, symbol_code, symbol_path.
  rewrite <- (encode_occurrences_expand sizeof_alphabet_T data).
  apply (@fold_write_occurrence_holds _ _ _ _ []).
  exists [], []. simpl. rewrite app_nil_r. repeat split. lia.
Qed.

(** The layout of the output of [encode]: header, packed path bits with
    fewer than eight padding bits, counter. *)
Lemma encode_layout (sizeof_alphabet_T : nat) (BitsNeeded : Z -> Z)
      (std_sort : list Letter -> list Letter) (data : list byte) :
  exists (body : list byte) (padding : nat),
    encode sizeof_alphabet_T BitsNeeded std_sort data
    = encode_header sizeof_alphabet_T BitsNeeded std_sort data
      ++ body
      ++ bytes_of_uint32_t
           (wrap_uint32_t
              (Z.of_nat (length (encode_path_bits sizeof_alphabet_T BitsNeeded
                                                  std_sort data))))
    /\ unpack body
       = encode_path_bits sizeof_alphabet_T BitsNeeded std_sort data
         ++ repeat false padding
    /\ (padding < 8)%nat.
Proof.
  destruct (encode_writer_holds sizeof_alphabet_T BitsNeeded std_sort data)
    as (full & partial & Hres & Hbits & Hlen & Hon & Hbyte & Hwritten).
  unfold encode. rewrite Hon, Hwritten, Hres, Hbyte.
  destruct partial as [|b partial].
  - exists full, O. simpl. rewrite app_nil_r in Hbits.
    rewrite <- app_assoc, app_nil_r. auto with arith.
  - replace (0 <? Z.of_nat (length (b :: partial))) with true
      by (symmetry; apply Z.ltb_lt; simpl length; lia).
    exists (full ++ [view_as_byte_t (bits_value (b :: partial))]),
           (8 - length (b :: partial))%nat.
    rewrite <- !app_assoc. split; [reflexivity|].
    split; [|simpl length; lia].
    rewrite unpack_app, Hbits, <- app_assoc. f_equal.
    unfold unpack. cbn [flat_map]. rewrite app_nil_r.
    pose proof (bits_value_range (b :: partial)) as Hr.
    assert (2 ^ Z.of_nat (length (b :: partial)) <= 2 ^ 8)
      by (apply Z.pow_le_mono_r; lia).
    rewrite Z_of_byte_view_small by lia.
    apply byte_bits_value. lia.
Qed.

(** *** The bits [encode] writes for a symbol *)

Lemma writer_holds_bits (header : list byte) (bits : list bool) (w : Writer) :
  writer_holds header bits w -> writer_bits (length header) w = bits.
Proof.
  intros (full & partial & Hres & Hbits & Hlen & Hon & Hbyte & _).
  unfold writer_bits.
  rewrite Hres, skipn_app, skipn_all, Nat.sub_diag, skipn_O, app_nil_l.
  rewrite Hon, Nat2Z.id, Hbyte, byte_bits_value by lia.
  rewrite firstn_app, firstn_all, Nat.sub_diag, firstn_O, app_nil_r.
  symmetry. exact Hbits.
Qed.

Lemma method1_bits_code (max_depth_bits : Z) (path : PathInfo) :
  method1_bits max_depth_bits path = code_bits max_depth_bits path.
Proof.
  unfold method1_bits.
  change O with (length (@nil byte)).
  rewrite (@writer_holds_bits [] ([] ++ code_bits max_depth_bits path)); [reflexivity|].
  apply method1_holds.
  exists [], []. cbn. repeat split. lia.
Qed.

Lemma encode_symbol_bits_code (sizeof_alphabet_T : nat) (BitsNeeded : Z -> Z)
      (std_sort : list Letter -> list Letter) (data : list byte) (v : Z) :
  encode_symbol_bits sizeof_alphabet_T BitsNeeded std_sort data v
  = symbol_code sizeof_alphabet_T BitsNeeded std_sort data v.
Proof. unfold encode_symbol_bits. apply method1_bits_code. Qed.

(** The body of the output of [encode] is made of the bits [method1]
    writes, symbol by symbol. *)
Lemma encode_writes_symbol_bits (sizeof_alphabet_T : nat) (BitsNeeded : Z -> Z)
      (std_sort : list Letter -> list Letter) (data : list byte) :
  encode_writes sizeof_alphabet_T BitsNeeded std_sort data
                (encode_symbol_bits sizeof_alphabet_T BitsNeeded std_sort data).
Proof.
  destruct (encode_layout sizeof_alphabet_T BitsNeeded std_sort data)
    as (body & padding & E & Hbody & Hpad).
  assert (Hcodes : flat_map (encode_symbol_bits sizeof_alphabet_T BitsNeeded
                                                std_sort data)
                            (encode_values sizeof_alphabet_T data)
                   = encode_path_bits sizeof_alphabet_T BitsNeeded std_sort data).
  { unfold encode_path_bits. apply flat_map_ext. intros v.
    apply encode_symbol_bits_code. }
  exists body, padding. rewrite Hcodes. auto.
Qed.

(** ** The reader *)

Lemma holds_at_cons (stream : list bool) (pos : nat) (b : bool) (bits : list bool) :
  holds_at stream pos (b :: bits) ->
  nth_error stream pos = Some b /\ holds_at stream (S pos) bits.
Proof.
  intros (pre & post & -> & <-). split.
  - rewrite nth_error_app2, Nat.sub_diag by lia. reflexivity.
  - exists (pre ++ [b]), post. rewrite <- app_assoc, length_app. simpl.
    split; [reflexivity | lia].
Qed.

Lemma holds_at_app (stream : list bool) (pos : nat) (b1 b2 : list bool) :
  holds_at stream pos (b1 ++ b2) ->
  holds_at stream pos b1 /\ holds_at stream (pos + length b1) b2.
Proof.
  intros (pre & post & -> & <-). split.
  - exists pre, (b2 ++ post). rewrite <- app_assoc. auto.
  - exists (pre ++ b1), post. rewrite <- !app_assoc, length_app. auto.
Qed.

Lemma nth_error_byte_bits (b : Z) (c : nat) :
  (c < 8)%nat -> nth_error (byte_bits b) c = Some (Z.testbit b (Z.of_nat c)).
Proof.
  intros H. do 8 (destruct c as [|c]; [reflexivity|]). lia.
Qed.

Lemma nth_error_unpack (data : list byte) :
  forall (i c : nat),
    (c < 8)%nat ->
    nth_error (unpack data) (8 * i + c)
    = option_map (fun b => Z.testbit (Z_of_byte b) (Z.of_nat c)) (nth_error data i).
Proof.
  induction data as [|b data IH]; intros i c Hc.
  - simpl unpack. destruct i; simpl nth_error at 2; apply nth_error_nil.
  - change (unpack (b :: data)) with (byte_bits (Z_of_byte b) ++ unpack data).
    destruct i as [|i].
    + rewrite nth_error_app1 by (rewrite length_byte_bits; lia).
      rewrite Nat.mul_0_r, Nat.add_0_l. simpl nth_error at 2.
      apply nth_error_byte_bits, Hc.
    + rewrite nth_error_app2 by (rewrite length_byte_bits; lia).
      rewrite length_byte_bits.
      replace (8 * S i + c - 8)%nat with (8 * i + c)%nat by lia.
      apply IH, Hc.
Qed.

Lemma read_bit_spec (data : list byte) (pos : nat) (n : Z) (rd : Reader) (b : bool) :
  reader_at pos n rd ->
  nth_error (unpack data) pos = Some b ->
  exists rd',
    read_bit data rd = Some (Z.b2z b, rd') /\ reader_at (S pos) (n + 1) rd'.
Proof.
  intros (c & Hc & Hon & Hpos & Hn) Hb.
  rewrite <- Hpos, nth_error_unpack in Hb by assumption.
  unfold read_bit, data_at.
  destruct (nth_error data (read_bytes rd)) as [x|]; [|discriminate].
  simpl in Hb. injection Hb as Hb. simpl option_map. cbv iota.
  rewrite Hon, land_shiftl_1, Hb, Hn by lia.
  eexists. split.
  - f_equal. f_equal. destruct b; reflexivity.
  - destruct (Z.of_nat c + 1 =? 8) eqn:E8;
      [apply Z.eqb_eq in E8 | apply Z.eqb_neq in E8].
    + exists O. simpl. repeat split; lia.
    + exists (S c). simpl read_bits_on_result_byte. simpl read_bytes.
      simpl bits_read. repeat split; lia.
Qed.

Lemma depth_bit_step (d i : Z) :
  0 <= i ->
  Z.lor (d mod 2 ^ i) (Z.shiftl (Z.b2z (Z.testbit d i)) i) = d mod 2 ^ (i + 1).
Proof.
  intros Hi. apply Z.bits_inj'. intros j Hj.
  rewrite Z.lor_spec, !Z.testbit_mod_pow2 by lia.
  rewrite Z.shiftl_spec by assumption.
  destruct (Z.testbit d i) eqn:Ed; simpl Z.b2z.
  - destruct (Z.eq_dec j i) as [->|Hne].
    + rewrite Z.sub_diag, Ed. simpl.
      replace (i <? i) with false by (symmetry; apply Z.ltb_ge; lia).
      replace (i <? i + 1) with true by (symmetry; apply Z.ltb_lt; lia).
      reflexivity.
    + replace (Z.testbit 1 (j - i)) with false.
      * rewrite orb_false_r. f_equal.
        destruct (j <? i) eqn:E1; [apply Z.ltb_lt in E1 | apply Z.ltb_ge in E1];
          symmetry; [apply Z.ltb_lt | apply Z.ltb_ge]; lia.
      * symmetry. destruct (Z.lt_ge_cases (j - i) 0) as [Hlt | Hge].
        -- apply Z.testbit_neg_r, Hlt.
        -- change 1 with (2 ^ 0). apply Z.pow2_bits_false. lia.
  - rewrite Z.bits_0, orb_false_r.
    destruct (Z.eq_dec j i) as [->|Hne].
    + rewrite Ed, !andb_false_r. reflexivity.
    + f_equal.
      destruct (j <? i) eqn:E1; [apply Z.ltb_lt in E1 | apply Z.ltb_ge in E1];
        symmetry; [apply Z.ltb_lt | apply Z.ltb_ge]; lia.
Qed.

Lemma length_zrange (n : nat) : forall i, length (zrange i n) = n.
Proof. induction n as [|n IH]; intros i; simpl; [reflexivity | now rewrite IH]. Qed.

Lemma length_code_bits (max_depth_bits : Z) (path : PathInfo) :
  length (code_bits max_depth_bits path)
  = (Z.to_nat max_depth_bits + Z.to_nat (depth path))%nat.
Proof.
  unfold code_bits. rewrite length_app, !length_map, !length_zrange. reflexivity.
Qed.

Lemma read_depth_spec (data : list byte) (d : Z) (steps : nat) :
  forall (i : Z) (path : PathInfo) (rd : Reader) (pos : nat) (n : Z),
    0 <= i -> depth path = d mod 2 ^ i ->
    reader_at pos n rd ->
    holds_at (unpack data) pos (map (Z.testbit d) (zrange i steps)) ->
    exists rd',
      read_depth data steps i path rd
      = Some (mkPathInfo (bit_path path) (d mod 2 ^ (i + Z.of_nat steps)), rd')
      /\ reader_at (pos + steps) (n + Z.of_nat steps) rd'.
Proof.
  induction steps as [|steps IH]; intros i path rd pos n Hi Hd Hrd Hs.
  - exists rd. simpl. rewrite Z.add_0_r, Nat.add_0_r, Z.add_0_r, <- Hd.
    destruct path; auto.
  - cbn [zrange map] in Hs. apply holds_at_cons in Hs. destruct Hs as [Hb Hs].
    destruct (read_bit_spec data Hrd Hb) as (rd1 & E1 & Hrd1).
    cbn [read_depth]. rewrite E1. cbn [fst snd].
    set (path1 := set_depth path _).
    assert (Hd1 : depth path1 = d mod 2 ^ (i + 1)).
    { subst path1. unfold set_depth. cbn [depth]. rewrite Hd.
      apply depth_bit_step, Hi. }
    destruct (IH (i + 1) path1 rd1 (S pos) (n + 1) ltac:(lia) Hd1 Hrd1 Hs)
      as (rd' & E & Hrd').
    exists rd'. rewrite E. split.
    + subst path1. unfold set_depth. cbn [bit_path].
      replace (i + Z.of_nat (S steps)) with (i + 1 + Z.of_nat steps) by lia.
      reflexivity.
    + replace (pos + S steps)%nat with (S pos + steps)%nat by lia.
      replace (n + Z.of_nat (S steps)) with (n + 1 + Z.of_nat steps) by lia.
      assumption.
Qed.

Lemma read_bit_path_spec (data : list byte) (bp : Z) (steps : nat) :
  forall (i : Z) (path : PathInfo) (rd : Reader) (pos : nat) (n : Z),
    0 <= i ->
    reader_at pos n rd ->
    holds_at (unpack data) pos (map (Z.testbit bp) (zrange i steps)) ->
    exists path' rd',
      read_bit_path data steps i path rd = Some (path', rd')
      /\ reader_at (pos + steps) (n + Z.of_nat steps) rd'
      /\ depth path' = depth path
      /\ (forall j, i <= j < i + Z.of_nat steps ->
                    Z.testbit (bit_path path') j = Z.testbit bp j)
      /\ (forall j, 0 <= j < i ->
                    Z.testbit (bit_path path') j = Z.testbit (bit_path path) j).
Proof.
  induction steps as [|steps IH]; intros i path rd pos n Hi Hrd Hs.
  - exists path, rd. simpl. rewrite Nat.add_0_r, Z.add_0_r.
    repeat split; auto. intros j Hj. lia.
  - cbn [zrange map] in Hs. apply holds_at_cons in Hs. destruct Hs as [Hb Hs].
    destruct (read_bit_spec data Hrd Hb) as (rd1 & E1 & Hrd1).
    cbn [read_bit_path]. rewrite E1. cbn [fst snd].
    replace (negb (Z.b2z (Z.testbit bp i) =? 0)) with (Z.testbit bp i)
      by (destruct (Z.testbit bp i); reflexivity).
    destruct (IH (i + 1) (set_bit_path path i (Z.testbit bp i)) rd1 (S pos) (n + 1)
                 ltac:(lia) Hrd1 Hs) as (path' & rd' & E & Hrd' & Hdepth & Hin & Hlow).
    exists path', rd'. rewrite E. split; [reflexivity|].
    split.
    { replace (pos + S steps)%nat with (S pos + steps)%nat by lia.
      replace (n + Z.of_nat (S steps)) with (n + 1 + Z.of_nat steps) by lia.
      assumption. }
    split; [rewrite Hdepth; apply set_bit_path_depth|].
    split.
    + intros j Hj. destruct (Z.eq_dec j i) as [->|Hne].
      * rewrite Hlow by lia. rewrite set_bit_path_testbit, Z.eqb_refl by assumption.
        reflexivity.
      * apply Hin. lia.
    + intros j Hj. rewrite Hlow by lia.
      rewrite set_bit_path_testbit by assumption.
      replace (i =? j) with false by (symmetry; apply Z.eqb_neq; lia).
      reflexivity.
Qed.

(** [find_value] looks at the depth and at the bits below it only. *)
Lemma find_value_ext (sizeof_alphabet_T : nat) (t : shared_node) (p q : PathInfo) :
  depth p = depth q ->
  (forall j, 0 <= j < depth q -> Z.testbit (bit_path p) j = Z.testbit (bit_path q) j) ->
  find_value sizeof_alphabet_T t p = find_value sizeof_alphabet_T t q.
Proof.
  intros Hd Hb. unfold find_value. rewrite Hd.
  rewrite (@find_node_ext (Z.to_nat (depth q)) 0 (bit_path p) (bit_path q) t).
  - reflexivity.
  - intros j Hj. apply Hb. lia.
Qed.

(** The [while] loop of [decode] on a stream that holds the codes of
    [symbols]: it appends one occurrence per symbol and stops when it has
    counted the last bit. *)
Lemma decode_loop_spec (sizeof_alphabet_T : nat) (data : list byte)
      (binary_tree : shared_node) (max_depth_bits written : Z)
      (path_of : Z -> PathInfo) (found : Z -> Z) (symbols : list Z) :
  0 < max_depth_bits ->
  forall (fuel : nat) (rd : Reader) (occurrences : list Occurrence) (pos : nat) (n : Z),
    (forall v, In v symbols ->
               0 <= depth (path_of v) < 2 ^ max_depth_bits
               /\ find_value sizeof_alphabet_T binary_tree (path_of v) = Some (found v)) ->
    reader_at pos n rd ->
    holds_at (unpack data) pos
             (flat_map (fun v => code_bits max_depth_bits (path_of v)) symbols) ->
    written = n + Z.of_nat (length (flat_map (fun v => code_bits max_depth_bits (path_of v))
                                             symbols)) ->
    (length (flat_map (fun v => code_bits max_depth_bits (path_of v)) symbols)
     <= fuel)%nat ->
    exists rd',
      decode_loop sizeof_alphabet_T fuel data binary_tree max_depth_bits written
                  rd occurrences
      = Some (rd', occurrences ++ map (fun v => mkOccurrence (found v) 1) symbols)
      /\ reader_at
           (pos + length (flat_map (fun v => code_bits max_depth_bits (path_of v))
                                   symbols))
           written rd'.
Proof.
  intros Hmdb.
  induction symbols as [|v symbols IH];
    intros fuel rd occurrences pos n Hsym Hrd Hs Hw Hfuel.
  - simpl in Hw. rewrite Z.add_0_r in Hw. subst written.
    assert (Hn : bits_read rd = n) by (destruct Hrd as (c & _ & _ & _ & H); exact H).
    exists rd. simpl map. rewrite app_nil_r. simpl length. rewrite Nat.add_0_r.
    destruct fuel; simpl; rewrite Hn, Z.ltb_irrefl; auto.
  - cbn [flat_map] in *.
    set (rest := flat_map (fun v => code_bits max_depth_bits (path_of v)) symbols) in *.
    rewrite length_app, length_code_bits in Hw, Hfuel.
    destruct (Hsym v (or_introl eq_refl)) as [Hdepth Hfound].
    assert (Hn : bits_read rd = n) by (destruct Hrd as (c & _ & _ & _ & H); exact H).
    destruct fuel as [|fuel]; [lia|].
    cbn [decode_loop]. rewrite Hn.
    replace (n <? written) with true by (symmetry; apply Z.ltb_lt; lia).
    apply holds_at_app in Hs. destruct Hs as [Hcode Hrest].
    unfold code_bits in Hcode. apply holds_at_app in Hcode.
    destruct Hcode as [Hdbits Hpbits].
    rewrite length_map, length_zrange in Hpbits.
    destruct (read_depth_spec data (depth (path_of v)) (Z.to_nat max_depth_bits)
                PathInfo_default (Z.le_refl 0)
                (eq_sym (Z.mod_1_r (depth (path_of v)))) Hrd Hdbits)
      as (rd1 & E1 & Hrd1).
    rewrite E1. cbn [fst snd depth].
    rewrite Z.add_0_l, Z2Nat.id, Z.mod_small by lia.
    destruct (read_bit_path_spec data (bit_path (path_of v))
                (Z.to_nat (depth (path_of v)))
                (mkPathInfo (bit_path PathInfo_default) (depth (path_of v)))
                (Z.le_refl 0) Hrd1 Hpbits)
      as (p2 & rd2 & E2 & Hrd2 & Hd2 & Hb2 & _).
    rewrite E2. cbn [fst snd].
    rewrite (find_value_ext sizeof_alphabet_T binary_tree p2 (path_of v)),
      Hfound.
    + destruct (IH fuel rd2 (occurrences ++ [mkOccurrence (found v) 1])
                  (pos + Z.to_nat max_depth_bits + Z.to_nat (depth (path_of v)))%nat
                  (n + Z.of_nat (Z.to_nat max_depth_bits)
                   + Z.of_nat (Z.to_nat (depth (path_of v)))))
        as (rd' & E & Hrd').
      * intros x Hx. apply Hsym. right. assumption.
      * assumption.
      * rewrite length_code_bits in Hrest.
        rewrite <- Nat.add_assoc. assumption.
      * lia.
      * lia.
      * exists rd'. rewrite E, <- app_assoc. split; [reflexivity|].
        rewrite length_app, length_code_bits. fold rest.
        replace (pos + (Z.to_nat max_depth_bits + Z.to_nat (depth (path_of v))
                        + length rest))%nat
          with (pos + Z.to_nat max_depth_bits + Z.to_nat (depth (path_of v))
                + length rest)%nat by lia.
        assumption.
    + rewrite Hd2. reflexivity.
    + intros j Hj. apply Hb2. rewrite Z2Nat.id by lia. lia.
Qed.

(** ** Reading the header and the counter *)

Lemma data_at_app_r (pre post : list byte) (k : nat) :
  data_at (pre ++ post) (length pre + k) = data_at post k.
Proof.
  unfold data_at. rewrite nth_error_app2 by lia.
  replace (length pre + k - length pre)%nat with k by lia. reflexivity.
Qed.

Lemma read_alphabet_app (mid : list byte) :
  forall (pre post : list byte),
    read_alphabet (pre ++ mid ++ post) (length mid) (length pre)
    = Some (map (fun b => mkLetter (Z_of_byte b) 0) mid,
            (length pre + length mid)%nat).
Proof.
  induction mid as [|x mid IH]; intros pre post.
  - simpl. rewrite Nat.add_0_r. reflexivity.
  - cbn [read_alphabet length].
    rewrite <- (Nat.add_0_r (length pre)) at 1. rewrite data_at_app_r.
    cbn [data_at nth_error app option_map].
    replace (pre ++ x :: mid ++ post) with ((pre ++ [x]) ++ mid ++ post)
      by (rewrite <- app_assoc; reflexivity).
    replace (S (length pre)) with (length (pre ++ [x]))
      by (rewrite length_app; simpl; lia).
    rewrite IH. cbn [fst snd map]. rewrite length_app. cbn [length].
    do 2 f_equal. lia.
Qed.

Lemma uint32_t_bytes (z : Z) :
  0 <= z < 2 ^ 32 ->
  (Z.shiftr z (8 * 0)) mod 256
  + 256 * ((Z.shiftr z (8 * 1)) mod 256)
  + 65536 * ((Z.shiftr z (8 * 2)) mod 256)
  + 16777216 * ((Z.shiftr z (8 * 3)) mod 256) = z.
Proof.
  intros Hz. rewrite !Z.shiftr_div_pow2 by lia.
  change (2 ^ (8 * 0)) with 1. change (2 ^ (8 * 1)) with 256.
  change (2 ^ (8 * 2)) with 65536. change (2 ^ (8 * 3)) with 16777216.
  change (2 ^ 32) with 4294967296 in Hz.
  rewrite Z.div_1_r.
  Z.div_mod_to_equations. lia.
Qed.

Lemma read_uint32_t_tail_app (pre : list byte) (z : Z) :
  0 <= z < 2 ^ 32 ->
  read_uint32_t_tail (pre ++ bytes_of_uint32_t z) = Some z.
Proof.
  intros Hz. unfold read_uint32_t_tail, bytes_of_uint32_t.
  cbn [map]. rewrite length_app. cbn [length].
  replace (length pre + 4 <? 4)%nat with false
    by (symmetry; apply Nat.ltb_ge; lia).
  replace (length pre + 4 - 4)%nat with (length pre) by lia.
  rewrite <- (Nat.add_0_r (length pre)) at 1.
  rewrite !data_at_app_r. cbn [data_at nth_error option_map].
  rewrite !Z_of_byte_view. f_equal. apply uint32_t_bytes, Hz.
Qed.

(** ** Trees of the same shape *)

Lemma same_shape_size (t1 : shared_node) :
  forall t2, same_shape t1 t2 -> size t1 = size t2.
Proof.
  induction t1 as [|v1 l1 IHl r1 IHr]; intros [|v2 l2 r2] H;
    try contradiction; [reflexivity|].
  destruct H as [Hl Hr]. cbn [size]. rewrite (IHl _ Hl), (IHr _ Hr). reflexivity.
Qed.

Lemma same_shape_null (t1 t2 : shared_node) :
  same_shape t1 t2 -> (t1 = nullptr <-> t2 = nullptr).
Proof.
  destruct t1, t2; simpl; intros H; try contradiction; split; auto; discriminate.
Qed.

Lemma insert_at_same_shape (t1 : shared_node) (v1 v2 : Z) :
  forall t2, same_shape t1 t2 -> same_shape (insert_at t1 v1) (insert_at t2 v2).
Proof.
  induction t1 as [|p1 l1 IHl r1 IHr]; intros [|p2 l2 r2] H;
    try contradiction; [exact I|].
  destruct H as [Hl Hr].
  pose proof (same_shape_null _ _ Hl) as Nl.
  pose proof (same_shape_null _ _ Hr) as Nr.
  pose proof (same_shape_size _ _ Hl) as Sl.
  pose proof (same_shape_size _ _ Hr) as Sr.
  destruct (null_dec l1) as [E1|Hl1].
  - assert (E2 : l2 = nullptr) by tauto. subst l1 l2.
    rewrite !insert_at_left_null. simpl. auto.
  - assert (Hl2 : l2 <> nullptr) by tauto.
    destruct (null_dec r1) as [E1|Hr1].
    + assert (E2 : r2 = nullptr) by tauto. subst r1 r2.
      rewrite !insert_at_right_null by assumption. simpl. auto.
    + assert (Hr2 : r2 <> nullptr) by tauto.
      rewrite !insert_at_both by assumption. rewrite <- Sl, <- Sr.
      destruct (size l1 <=? size r1); simpl; auto.
Qed.

Lemma fold_insert_same_shape (symbols1 : list Z) :
  forall (symbols2 : list Z) (t1 t2 : shared_node),
    length symbols1 = length symbols2 ->
    Forall (fun s => s <> INVALID) symbols1 ->
    Forall (fun s => s <> INVALID) symbols2 ->
    same_shape t1 t2 ->
    (root_value t1 = INVALID <-> root_value t2 = INVALID) ->
    same_shape (fold_left insert symbols1 t1) (fold_left insert symbols2 t2).
Proof.
  induction symbols1 as [|v1 symbols1 IH]; intros [|v2 symbols2] t1 t2 Hlen H1 H2 Hs Hr;
    try discriminate; [assumption|].
  inversion H1 as [|? ? Hv1 H1']; inversion H2 as [|? ? Hv2 H2']; subst.
  cbn [fold_left]. apply IH; auto.
  - destruct t1 as [|p1 l1 r1], t2 as [|p2 l2 r2]; try contradiction; [exact I|].
    unfold insert. simpl in Hr.
    destruct (Z.eqb_spec p1 INVALID) as [E1|E1],
             (Z.eqb_spec p2 INVALID) as [E2|E2]; try tauto.
    apply insert_at_same_shape, Hs.
  - destruct t1 as [|p1 l1 r1], t2 as [|p2 l2 r2]; try contradiction; [tauto|].
    unfold insert. simpl in Hr.
    destruct (Z.eqb_spec p1 INVALID) as [E1|E1],
             (Z.eqb_spec p2 INVALID) as [E2|E2]; try tauto;
      try (simpl; tauto).
    rewrite !insert_at_root_value. simpl. tauto.
Qed.

Lemma find_node_same_shape (k : nat) :
  forall (d bits : Z) (t1 t2 n1 : shared_node),
    same_shape t1 t2 ->
    find_node k d bits t1 = Some n1 ->
    exists n2, find_node k d bits t2 = Some n2 /\ same_shape n1 n2.
Proof.
  induction k as [|k IH]; intros d bits t1 t2 n1 Hs H.
  - simpl in *. injection H as <-. eauto.
  - destruct t1 as [|p1 l1 r1], t2 as [|p2 l2 r2]; try contradiction;
      [discriminate|].
    destruct Hs as [Hl Hr]. cbn [find_node] in *.
    apply IH with (t1 := if Z.testbit bits d then r1 else l1); [|assumption].
    destruct (Z.testbit bits d); assumption.
Qed.

Lemma find_value_same_shape (sizeof_alphabet_T : nat) (t1 t2 : shared_node)
      (path : PathInfo) (x : Z) :
  same_shape t1 t2 ->
  find_value sizeof_alphabet_T t1 path = Some x ->
  exists y, find_value sizeof_alphabet_T t2 path = Some y.
Proof.
  intros Hs. unfold find_value.
  destruct (find_node (Z.to_nat (depth path)) 0 (bit_path path) t1) as [n1|] eqn:E1;
    [|discriminate].
  destruct (@find_node_same_shape _ _ _ _ _ _ Hs E1) as (n2 & E2 & Hn).
  rewrite E2. destruct n1, n2; try contradiction; try discriminate. eauto.
Qed.

(** ** The symbols of the input and their nodes *)

Lemma little_endian_range (bs : list byte) :
  0 <= little_endian bs < 2 ^ (8 * Z.of_nat (length bs)).
Proof.
  induction bs as [|b bs IH]; [simpl; lia|].
  cbn [little_endian length]. pose proof (Z_of_byte_range b).
  replace (8 * Z.of_nat (S (length bs))) with (8 + 8 * Z.of_nat (length bs)) by lia.
  rewrite Z.pow_add_r by lia. change (2 ^ 8) with 256. lia.
Qed.

Lemma view_as_values_range (sizeof_alphabet_T : nat) (max_values : nat) :
  forall data,
    Forall (fun v => 0 <= v < 2 ^ (8 * Z.of_nat sizeof_alphabet_T))
           (view_as_values sizeof_alphabet_T max_values data).
Proof.
  induction max_values as [|k IH]; intros data; cbn [view_as_values];
    constructor; [|apply IH].
  pose proof (little_endian_range (firstn sizeof_alphabet_T data)) as H.
  pose proof (firstn_le_length sizeof_alphabet_T data) as Hl.
  assert (2 ^ (8 * Z.of_nat (length (firstn sizeof_alphabet_T data)))
          <= 2 ^ (8 * Z.of_nat sizeof_alphabet_T))
    by (apply Z.pow_le_mono_r; lia).
  lia.
Qed.

Lemma view_as_values_bytes (data : list byte) :
  view_as_values 1 (length data) data = map Z_of_byte data.
Proof.
  induction data as [|b data IH]; [reflexivity|].
  cbn [length view_as_values firstn skipn little_endian map].
  rewrite IH. f_equal. lia.
Qed.

Lemma encode_values_bytes (data : list byte) :
  encode_values 1 data = map Z_of_byte data.
Proof.
  unfold encode_values. rewrite Nat.div_1_r. apply view_as_values_bytes.
Qed.

Lemma build_tree_insert_all (alphabet : list Letter) :
  build_tree alphabet = insert_all (map value alphabet).
Proof.
  unfold build_tree, insert_all. generalize BinaryTree_new.
  induction alphabet as [|a alphabet IH]; intros t; simpl; [reflexivity | apply IH].
Qed.

(** A set of [n] distinct numbers below [bound] has at most [bound]
    elements. *)
Lemma distinct_below (l : list Z) (bound : nat) :
  NoDup l -> Forall (fun v => 0 <= v < Z.of_nat bound) l ->
  (length l <= bound)%nat.
Proof.
  intros Hnd Hall.
  assert (E : length (map Z.of_nat (seq 0 bound)) = bound)
    by (rewrite length_map; apply length_seq).
  rewrite <- E. apply NoDup_incl_length; [assumption|].
  intros v Hv. rewrite Forall_forall in Hall. specialize (Hall v Hv).
  apply in_map_iff. exists (Z.to_nat v). split; [lia|].
  apply in_seq. lia.
Qed.

Section Codec.

Variable sizeof_alphabet_T : nat.
Variable std_sort : list Letter -> list Letter.
Hypothesis std_sort_contract : sort_contract std_sort.
Variable data : list byte.

Let values_ := encode_values sizeof_alphabet_T data.
Let alphabet_ := encode_alphabet sizeof_alphabet_T std_sort data.
Let tree_ := encode_tree sizeof_alphabet_T std_sort data.

Lemma encode_values_range :
  Forall (fun v => 0 <= v < 2 ^ (8 * Z.of_nat sizeof_alphabet_T)) values_.
Proof. apply view_as_values_range. Qed.

Lemma encode_alphabet_range :
  Forall (fun v => 0 <= v < 2 ^ (8 * Z.of_nat sizeof_alphabet_T)) (map value alphabet_).
Proof.
  apply Forall_forall. intros v Hv.
  apply (encode_alphabet_In _ std_sort_contract) in Hv.
  pose proof encode_values_range as H. rewrite Forall_forall in H. apply H, Hv.
Qed.

Lemma encode_alphabet_not_nil : values_ <> [] -> map value alphabet_ <> [].
Proof.
  intros Hne E. destruct values_ as [|v vs] eqn:Ev; [contradiction|].
  assert (Hin : In v (map value alphabet_)).
  { apply (encode_alphabet_In _ std_sort_contract). fold values_.
    rewrite Ev. left. reflexivity. }
  rewrite E in Hin. contradiction.
Qed.

Lemma encode_alphabet_length_values :
  (length alphabet_ <= length values_)%nat.
Proof.
  rewrite <- (length_map value).
  apply NoDup_incl_length; [apply encode_alphabet_NoDup, std_sort_contract|].
  intros v Hv. apply (encode_alphabet_In _ std_sort_contract), Hv.
Qed.

(** The tree of [encode]: it holds the alphabet, one node per letter. *)
Lemma encode_tree_values :
  values_ <> [] ->
  root_value tree_ <> INVALID
  /\ Permutation (values tree_) (map value alphabet_)
  /\ size tree_ = Z.of_nat (length alphabet_).
Proof.
  intros Hne. unfold tree_, encode_tree. rewrite build_tree_insert_all.
  fold alphabet_.
  pose proof (alphabet_T_not_INVALID encode_alphabet_range) as Hvalid.
  pose proof (encode_alphabet_not_nil Hne) as Hnn.
  destruct (insert_all_values Hvalid Hnn) as [Hroot Hperm].
  destruct (insert_all_shape Hvalid Hnn) as (_ & Hsize & _).
  rewrite length_map in Hsize. auto.
Qed.

Lemma encode_tree_height : height tree_ <= Z.of_nat (length alphabet_).
Proof.
  destruct values_ as [|v vs] eqn:Ev.
  - assert (E : alphabet_ = []).
    { destruct alphabet_ as [|a al] eqn:Ea; [reflexivity|].
      assert (Hin : In (value a) (map value alphabet_))
        by (rewrite Ea; left; reflexivity).
      apply (encode_alphabet_In _ std_sort_contract) in Hin.
      fold values_ in Hin. rewrite Ev in Hin. contradiction. }
    unfold tree_, encode_tree. fold alphabet_. rewrite E. simpl. lia.
  - assert (Hne : values_ <> []) by (rewrite Ev; discriminate).
    destruct (encode_tree_values Hne) as (Hroot & _ & Hsize).
    pose proof (height_lt_size (root_value_not_null Hroot)). lia.
Qed.

(** [path_info] finds every symbol of the input, at a depth that does not
    exceed the height of the tree, and its bits lead to the node of the
    symbol. *)
Lemma symbol_path_found (v : Z) :
  In v values_ ->
  exists (k : nat) (l r : shared_node),
    depth (symbol_path sizeof_alphabet_T std_sort data v) = Z.of_nat k
    /\ Z.of_nat k <= height tree_
    /\ find_node k 0 (bit_path (symbol_path sizeof_alphabet_T std_sort data v)) tree_
       = Some (Node v l r).
Proof.
  intros Hin.
  assert (Hne : values_ <> []) by (intros E; rewrite E in Hin; contradiction).
  destruct (encode_tree_values Hne) as (_ & Hperm & _).
  assert (Hv : In v (values tree_)).
  { apply (Permutation_in _ (Permutation_sym Hperm)).
    apply (encode_alphabet_In _ std_sort_contract), Hin. }
  pose proof (path_info_at_complete tree_ PathInfo_default 0 v Hv) as Hfound.
  unfold symbol_path, path_info. fold tree_.
  destruct (path_info_at PathInfo_default tree_ 0 v) as [found path] eqn:E.
  simpl in Hfound. subst found. cbn [snd].
  destruct (path_info_at_found _ _ _ (Z.le_refl 0) E) as (k & l & r & Hk & Hf & Hh).
  exists k, l, r. rewrite Hk. auto.
Qed.

End Codec.

(** ** [decode] on the output of [encode] *)

Lemma flat_map_all_nil {A B} (f : A -> list B) (l : list A) :
  (forall x, In x l -> f x = []) -> flat_map f l = [].
Proof.
  induction l as [|x l IH]; intros H; simpl; [reflexivity|].
  rewrite (H x (or_introl eq_refl)), IH; [reflexivity|].
  intros y Hy. apply H. right. assumption.
Qed.

Section DecodeEncode.

Variable sizeof_alphabet_T : nat.
Variable BitsNeeded : Z -> Z.
Variable std_sort : list Letter -> list Letter.
Hypothesis std_sort_contract : sort_contract std_sort.
Hypothesis BitsNeeded_contract : bits_needed_contract BitsNeeded.
Variable data : list byte.

Let values_ := encode_values sizeof_alphabet_T data.
Let alphabet_ := encode_alphabet sizeof_alphabet_T std_sort data.
Let tree_ := encode_tree sizeof_alphabet_T std_sort data.
Let max_depth_bits_ :=
  encode_max_depth_bits sizeof_alphabet_T BitsNeeded std_sort data.
Let bits_ := encode_path_bits sizeof_alphabet_T BitsNeeded std_sort data.
Let path_of_ := symbol_path sizeof_alphabet_T std_sort data.

Hypothesis values_not_nil : values_ <> [].
Hypothesis alphabet_fits : (length alphabet_ <= 256)%nat.
Hypothesis counter_fits : Z.of_nat (length bits_) < 2 ^ 32.

(** The alphabet as [decode] reads it back, and its tree. *)
Let alphabet_bytes_ := map (fun l => view_as_byte_t (value l)) alphabet_.
Let decoded_alphabet_ := map (fun b => mkLetter (Z_of_byte b) 0) alphabet_bytes_.
Let decoded_tree_ := build_tree decoded_alphabet_.
Let found_ (v : Z) : Z :=
  match find_value sizeof_alphabet_T decoded_tree_ (path_of_ v) with
  | Some y => y
  | None => 0
  end.

Lemma max_depth_bits_range :
  0 <= max_depth_bits_ <= 31 /\ height tree_ < 2 ^ max_depth_bits_.
Proof.
  apply BitsNeeded_contract. split; [apply height_nonneg|].
  pose proof (encode_tree_height sizeof_alphabet_T std_sort_contract data) as H.
  fold alphabet_ tree_ in H. change (2 ^ 31) with 2147483648. lia.
Qed.

Lemma alphabet_not_nil : (1 <= length alphabet_)%nat.
Proof.
  pose proof (encode_alphabet_not_nil sizeof_alphabet_T std_sort_contract data
                values_not_nil) as H.
  fold alphabet_ in H. destruct alphabet_; [contradiction | simpl; lia].
Qed.

Lemma decoded_tree_same_shape : same_shape tree_ decoded_tree_.
Proof.
  unfold tree_, encode_tree, decoded_tree_. rewrite !build_tree_insert_all.
  fold alphabet_. unfold insert_all.
  apply fold_insert_same_shape.
  - unfold decoded_alphabet_, alphabet_bytes_. rewrite !length_map. reflexivity.
  - apply (alphabet_T_not_INVALID
             (encode_alphabet_range sizeof_alphabet_T std_sort_contract data)).
  - unfold decoded_alphabet_, alphabet_bytes_. rewrite !map_map. simpl.
    apply Forall_forall. intros s Hs. apply in_map_iff in Hs.
    destruct Hs as (a & <- & _).
    pose proof (Z_of_byte_range (view_as_byte_t (value a))).
    unfold INVALID. lia.
  - simpl. auto.
  - tauto.
Qed.

Lemma symbol_decodes (v : Z) :
  In v values_ ->
  0 <= depth (path_of_ v) < 2 ^ max_depth_bits_
  /\ find_value sizeof_alphabet_T decoded_tree_ (path_of_ v) = Some (found_ v).
Proof.
  intros Hin.
  destruct (symbol_path_found sizeof_alphabet_T std_sort_contract data v Hin)
    as (k & l & r & Hk & Hh & Hf).
  fold path_of_ tree_ in Hk, Hh, Hf.
  pose proof max_depth_bits_range as [_ Hheight].
  split; [lia|].
  assert (Hv : find_value sizeof_alphabet_T tree_ (path_of_ v)
               = Some (view_as_alphabet_T sizeof_alphabet_T v)).
  { unfold find_value. rewrite Hk, Nat2Z.id, Hf. reflexivity. }
  destruct (@find_value_same_shape _ _ _ _ _ decoded_tree_same_shape Hv)
    as (y & Hy).
  unfold found_. rewrite Hy. reflexivity.
Qed.

Lemma header_bytes :
  exists b0 b1,
    encode_header sizeof_alphabet_T BitsNeeded std_sort data
    = [b0; b1] ++ alphabet_bytes_
    /\ Z_of_byte b0 = max_depth_bits_
    /\ Z_of_byte b1 + 1 = Z.of_nat (length alphabet_).
Proof.
  pose proof max_depth_bits_range as [Hm _].
  pose proof alphabet_not_nil as Hn.
  eexists. eexists. split; [reflexivity|]. split.
  - apply Z_of_byte_view_small. fold max_depth_bits_. lia.
  - fold alphabet_. unfold wrap_size_t.
    rewrite Z.mod_small by (change (2 ^ 64) with 18446744073709551616; lia).
    rewrite Z_of_byte_view_small; lia.
Qed.

(** [decode] on the output of [encode] reads the header back, leaves its
    loop when it has counted every path bit, and then holds one occurrence
    per input symbol (none if [max_depth_bits] is zero, since no bit at all
    was written then). *)
Lemma decode_state_encode :
  exists rd,
    decode_state sizeof_alphabet_T (encode sizeof_alphabet_T BitsNeeded std_sort data)
    = Some (rd, if max_depth_bits_ =? 0 then []
                else map (fun v => mkOccurrence (found_ v) 1) values_)
    /\ reader_at
         (8 * length (encode_header sizeof_alphabet_T BitsNeeded std_sort data)
          + length bits_)
         (Z.of_nat (length bits_)) rd.
Proof.
  destruct (encode_layout sizeof_alphabet_T BitsNeeded std_sort data)
    as (body & padding & Elayout & Ebody & _).
  destruct header_bytes as (b0 & b1 & Eheader & Hb0 & Hb1).
  pose proof max_depth_bits_range as [Hmdb Hheight].
  fold bits_ in Elayout, Ebody.
  unfold wrap_uint32_t in Elayout.
  rewrite Z.mod_small in Elayout by lia.
  rewrite Eheader in Elayout.
  set (encoded := encode sizeof_alphabet_T BitsNeeded std_sort data) in *.
  assert (Hread0 : data_at encoded 0 = Some max_depth_bits_)
    by (rewrite Elayout, <- Hb0; reflexivity).
  assert (Hread1 : data_at encoded 1 = Some (Z_of_byte b1))
    by (rewrite Elayout; reflexivity).
  assert (Hcounter : read_uint32_t_tail encoded = Some (Z.of_nat (length bits_))).
  { rewrite Elayout, app_assoc. apply read_uint32_t_tail_app. lia. }
  assert (Halpha : read_alphabet encoded (Z.to_nat (Z_of_byte b1 + 1)) 2
                   = Some (decoded_alphabet_, (2 + length alphabet_bytes_)%nat)).
  { rewrite Elayout, Hb1, Nat2Z.id.
    replace (length alphabet_) with (length alphabet_bytes_)
      by (unfold alphabet_bytes_; apply length_map).
    apply (read_alphabet_app alphabet_bytes_ [b0; b1]). }
  unfold decode_state. rewrite Hread0, Hread1, Hcounter, Halpha. cbn [fst snd].
  fold decoded_tree_.
  destruct (Z.eqb_spec max_depth_bits_ 0) as [E0|Hne].
  - (* no bit was written *)
    assert (Hnobits : bits_ = []).
    { unfold bits_, encode_path_bits. apply flat_map_all_nil.
      intros v Hv. fold values_ in Hv.
      destruct (symbol_decodes v Hv) as [Hd _].
      unfold symbol_code, code_bits. fold max_depth_bits_ path_of_.
      rewrite E0 in *. change (2 ^ 0) with 1 in Hd.
      replace (depth (path_of_ v)) with 0 by lia. reflexivity. }
    rewrite Hnobits, Eheader. simpl length. rewrite Nat.add_0_r.
    eexists. split; [reflexivity|].
    exists O. simpl. repeat split; lia.
  - destruct (@decode_loop_spec sizeof_alphabet_T encoded decoded_tree_
                max_depth_bits_ (Z.of_nat (length bits_)) path_of_ found_ values_
                ltac:(lia) (Z.to_nat (Z.of_nat (length bits_)))
                (mkReader (2 + length alphabet_bytes_) 0 0) []
                (8 * (2 + length alphabet_bytes_))%nat 0)
      as (rd & E & Hrd).
    + apply symbol_decodes.
    + exists O. simpl. repeat split; lia.
    + exists (unpack ([b0; b1] ++ alphabet_bytes_)),
             (repeat false padding
              ++ unpack (bytes_of_uint32_t (Z.of_nat (length bits_)))).
      split.
      * rewrite Elayout, !unpack_app, Ebody, <- !app_assoc. reflexivity.
      * rewrite length_unpack, length_app. reflexivity.
    + reflexivity.
    + rewrite Nat2Z.id. apply Nat.le_refl.
    + exists rd. rewrite E. split; [reflexivity|].
      rewrite Eheader. exact Hrd.
Qed.

(** Two distinct symbols make a tree of height 1 at least, for which a
    depth bit is needed. *)
Lemma two_symbols_depth_bit (a b : Z) :
  In a values_ -> In b values_ -> a <> b -> max_depth_bits_ <> 0.
Proof.
  clear counter_fits. intros Ha Hb Hab.
  apply (encode_alphabet_In sizeof_alphabet_T std_sort_contract) in Ha, Hb.
  pose proof (encode_alphabet_NoDup sizeof_alphabet_T std_sort_contract data) as Hnd.
  destruct (encode_tree_values sizeof_alphabet_T std_sort_contract data values_not_nil)
    as (Hroot & _ & Hsize).
  fold tree_ alphabet_ in Ha, Hb, Hnd, Hroot, Hsize.
  assert (Hlen : (2 <= length alphabet_)%nat).
  { rewrite <- (length_map value).
    destruct (map value alphabet_) as [|x [|y l]]; simpl in *; lia. }
  pose proof max_depth_bits_range as [_ Hheight].
  assert (Hh : 1 <= height tree_).
  { destruct tree_ as [|v l r]; [simpl in Hsize; lia|].
    rewrite size_Node in Hsize. rewrite height_Node.
    pose proof (child_height_nonneg l). pose proof (child_height_nonneg r).
    destruct (null_dec l) as [->|Hl].
    - destruct (null_dec r) as [->|Hr]; [simpl in Hsize; lia|].
      rewrite (child_height_not_null Hr). pose proof (height_nonneg r). lia.
    - rewrite (child_height_not_null Hl). pose proof (height_nonneg l). lia. }
  intros E. rewrite E in Hheight. change (2 ^ 0) with 1 in Hheight. lia.
Qed.

(** When [decode] rebuilds the very tree of [encode] and at least one depth
    bit is written per symbol, it returns the symbols of the input. *)
Lemma decode_encode_same_tree :
  decoded_tree_ = tree_ -> max_depth_bits_ <> 0 ->
  decode sizeof_alphabet_T (encode sizeof_alphabet_T BitsNeeded std_sort data)
  = Some (map (fun v => view_as_byte_t (view_as_alphabet_T sizeof_alphabet_T v))
              values_).
Proof.
  intros Htree Hmdb.
  destruct decode_state_encode as (rd & E & _).
  unfold decode. rewrite E. cbn [snd].
  apply Z.eqb_neq in Hmdb. rewrite Hmdb, map_map. cbn [letter_value].
  f_equal. apply map_ext_in. intros v Hv. f_equal.
  destruct (symbol_path_found sizeof_alphabet_T std_sort_contract data v Hv)
    as (k & l & r & Hk & _ & Hf).
  fold path_of_ tree_ in Hk, Hf.
  unfold found_, find_value. rewrite Htree, Hk, Nat2Z.id, Hf. reflexivity.
Qed.

End DecodeEncode.

(** ** [BitsNeeded] as the specification describes it *)

Lemma BitsNeeded_enough (h : Z) : 0 <= h -> h < 2 ^ Bits.BitsNeeded h.
Proof.
  intros Hh. unfold Bits.BitsNeeded.
  assert (h + 1 <= 2 ^ Z.log2_up (h + 1)); [|lia].
  apply Z.log2_up_le_pow2; lia.
Qed.

Lemma BitsNeeded_le (h b : Z) :
  0 <= h -> h < 2 ^ b -> 0 <= Bits.BitsNeeded h <= b.
Proof.
  intros Hh Hb. unfold Bits.BitsNeeded. split; [apply Z.log2_up_nonneg|].
  apply Z.log2_up_le_pow2; lia.
Qed.

Lemma BitsNeeded_contract : bits_needed_contract Bits.BitsNeeded.
Proof.
  intros h Hh. split; [apply BitsNeeded_le | apply BitsNeeded_enough]; lia.
Qed.

(** ** Round trip for one-byte symbols *)

Lemma byte_alphabet_fits (std_sort : list Letter -> list Letter) (data : list byte) :
  sort_contract std_sort ->
  (length (encode_alphabet 1 std_sort data) <= 256)%nat.
Proof.
  intros Hsort. rewrite <- (length_map value).
  apply distinct_below; [apply encode_alphabet_NoDup, Hsort|].
  apply (encode_alphabet_range 1 Hsort data).
Qed.

Lemma byte_decoded_tree (std_sort : list Letter -> list Letter) (data : list byte) :
  sort_contract std_sort ->
  build_tree (map (fun b => mkLetter (Z_of_byte b) 0)
                  (map (fun l => view_as_byte_t (value l))
                       (encode_alphabet 1 std_sort data)))
  = encode_tree 1 std_sort data.
Proof.
  intros Hsort. unfold encode_tree. rewrite !build_tree_insert_all. f_equal.
  rewrite !map_map. cbn [value]. apply map_ext_in. intros a Ha.
  apply Z_of_byte_view_small.
  pose proof (encode_alphabet_range 1 Hsort data) as Hr.
  rewrite Forall_forall in Hr. apply (Hr (value a)), in_map, Ha.
Qed.

(** A buffer with two different bytes has a depth bit. *)
Lemma two_bytes_depth_bit
      (BitsNeeded : Z -> Z) (std_sort : list Letter -> list Letter)
      (data : list byte) (a b : byte) :
  sort_contract std_sort ->
  bits_needed_contract BitsNeeded ->
  In a data -> In b data -> a <> b ->
  encode_max_depth_bits 1 BitsNeeded std_sort data <> 0.
Proof.
  intros Hsort Hbits Ha Hb Hab.
  apply (@two_symbols_depth_bit 1 BitsNeeded std_sort Hsort Hbits data)
    with (a := Z_of_byte a) (b := Z_of_byte b).
  - rewrite encode_values_bytes. destruct data; [contradiction | discriminate].
  - apply byte_alphabet_fits, Hsort.
  - rewrite encode_values_bytes. apply in_map, Ha.
  - rewrite encode_values_bytes. apply in_map, Hb.
  - intros E. apply Hab. rewrite <- (view_of_byte a), <- (view_of_byte b), E.
    reflexivity.
Qed.

(** C1, as the code has it.  For one-byte symbols, a non-empty buffer, a
    header that announces at least one depth bit and fewer than 2^32 path
    bits, [decode] returns the buffer [encode] was given. *)
Theorem decode_encode_bytes
        (BitsNeeded : Z -> Z) (std_sort : list Letter -> list Letter)
        (data : list byte) :
  sort_contract std_sort ->
  bits_needed_contract BitsNeeded ->
  data <> [] ->
  encode_max_depth_bits 1 BitsNeeded std_sort data <> 0 ->
  Z.of_nat (length (encode_path_bits 1 BitsNeeded std_sort data)) < 2 ^ 32 ->
  decode 1 (encode 1 BitsNeeded std_sort data) = Some data.
Proof.
  intros Hsort Hbits Hdata Hmdb Hcounter.
  rewrite (@decode_encode_same_tree 1 BitsNeeded std_sort Hsort Hbits data).
  - f_equal. rewrite encode_values_bytes, map_map.
    rewrite <- (map_id data) at 2. apply map_ext. intros b.
    unfold view_as_alphabet_T. change (2 ^ (8 * Z.of_nat 1)) with 256.
    rewrite Z.mod_small by apply Z_of_byte_range. apply view_of_byte.
  - rewrite encode_values_bytes. destruct data; [contradiction | discriminate].
  - apply byte_alphabet_fits, Hsort.
  - exact Hcounter.
  - apply byte_decoded_tree, Hsort.
  - exact Hmdb.
Qed.

(** The round trip on the buffer "AAAB" of the specification. *)
Lemma decode_encode_bytes_witness :
  decode 1 (encode 1 Bits.BitsNeeded insertion_sort [x41; x41; x41; x42])
  = Some [x41; x41; x41; x42].
Proof.
  apply (@decode_encode_bytes Bits.BitsNeeded insertion_sort [x41; x41; x41; x42]).
  - apply insertion_sort_contract.
  - apply BitsNeeded_contract.
  - discriminate.
  - vm_compute. discriminate.
  - vm_compute. reflexivity.
Defined.

(** C1, as the specification words it, fails for two-byte symbols: the
    six bytes of the symbols 0x0041, 0x0041, 0x0042 come back as the three
    bytes 0x41, 0x41, 0x42. *)
Lemma decode_encode_two_byte_symbols :
  decode 2 (encode 2 Bits.BitsNeeded insertion_sort [x41; x00; x41; x00; x42; x00])
  = Some [x41; x41; x42]
  /\ decode 2 (encode 2 Bits.BitsNeeded insertion_sort [x41; x00; x41; x00; x42; x00])
     <> Some [x41; x00; x41; x00; x42; x00].
Proof.
  split; [vm_compute; reflexivity | vm_compute; discriminate].
Qed.

(** Why the round trip asks for a depth bit: if [BitsNeeded] gives 0 for
    the height 0, as [Bits.BitsNeeded] does, a buffer that repeats one byte
    is written with no path bit at all, and [decode] returns the empty
    buffer. *)
Example decode_encode_single_symbol :
  encode 1 Bits.BitsNeeded insertion_sort [x41; x41; x41]
  = [x00; x00; x41; x00; x00; x00; x00]
  /\ decode 1 (encode 1 Bits.BitsNeeded insertion_sort [x41; x41; x41]) = Some [].
Proof. split; vm_compute; reflexivity. Qed.

(** ** The alphabet field *)

Lemma read_alphabet_buffer (buffer : list byte) (n : nat) :
  (2 + n <= length buffer)%nat ->
  read_alphabet buffer n 2
  = Some (map (fun b => mkLetter (Z_of_byte b) 0) (firstn n (skipn 2 buffer)),
          (2 + n)%nat).
Proof.
  intros Hlen.
  assert (E : buffer = firstn 2 buffer ++ firstn n (skipn 2 buffer)
                       ++ skipn n (skipn 2 buffer))
    by (rewrite !firstn_skipn; reflexivity).
  assert (L2 : length (firstn 2 buffer) = 2%nat) by (rewrite length_firstn; lia).
  assert (Ln : length (firstn n (skipn 2 buffer)) = n)
    by (rewrite length_firstn, length_skipn; lia).
  pose proof (read_alphabet_app (firstn n (skipn 2 buffer)) (firstn 2 buffer)
                                (skipn n (skipn 2 buffer))) as H.
  rewrite <- E, L2, Ln in H. exact H.
Qed.




(** ** The width of the depth field *)

(** The number held by the bits of [d] from index [i] on. *)
Lemma bits_value_testbits (d : Z) (n : nat) :
  forall i, 0 <= i ->
    bits_value (map (Z.testbit d) (zrange i n)) = (d / 2 ^ i) mod 2 ^ Z.of_nat n.
Proof.
  induction n as [|n IH]; intros i Hi.
  - cbn [zrange map bits_value]. change (2 ^ Z.of_nat 0) with 1.
    rewrite Z.mod_1_r. reflexivity.
  - cbn [zrange map bits_value]. rewrite IH by lia.
    rewrite Z.testbit_spec' by lia.
    rewrite Nat2Z.inj_succ, Z.pow_succ_r by lia.
    assert (Hp : 0 < 2 ^ i) by (apply Z.pow_pos_nonneg; lia).
    assert (Hn : 0 < 2 ^ Z.of_nat n) by (apply Z.pow_pos_nonneg; lia).
    rewrite (Z.rem_mul_r (d / 2 ^ i) 2 (2 ^ Z.of_nat n)) by lia.
    rewrite Z.pow_add_r by lia. change (2 ^ 1) with 2.
    rewrite Z.div_div by lia. reflexivity.
Qed.

(** The depth bits [method1] writes hold the depth, when it fits. *)
Lemma depth_field_value (max_depth_bits : Z) (path : PathInfo) :
  0 <= depth path < 2 ^ max_depth_bits ->
  bits_value (firstn (Z.to_nat max_depth_bits) (method1_bits max_depth_bits path))
  = depth path.
Proof.
  intros Hd.
  assert (Hm : 0 <= max_depth_bits).
  { destruct (Z.lt_ge_cases max_depth_bits 0) as [Hneg|]; [|assumption].
    rewrite Z.pow_neg_r in Hd by assumption. lia. }
  rewrite method1_bits_code. unfold code_bits.
  rewrite firstn_app, length_map, length_zrange, Nat.sub_diag, firstn_O, app_nil_r.
  rewrite firstn_all2 by (rewrite length_map, length_zrange; lia).
  rewrite bits_value_testbits by lia.
  change (2 ^ 0) with 1. rewrite Z.div_1_r, Z2Nat.id by assumption.
  apply Z.mod_small, Hd.
Qed.

Lemma alphabet_length_symbol_width
      (sizeof_alphabet_T : nat) (std_sort : list Letter -> list Letter)
      (data : list byte) :
  sort_contract std_sort ->
  Z.of_nat (length (encode_alphabet sizeof_alphabet_T std_sort data))
  <= 2 ^ (8 * Z.of_nat sizeof_alphabet_T).
Proof.
  intros Hsort.
  assert (Hpos : 0 < 2 ^ (8 * Z.of_nat sizeof_alphabet_T))
    by (apply Z.pow_pos_nonneg; lia).
  pose proof (@distinct_below
                (map value (encode_alphabet sizeof_alphabet_T std_sort data))
                (Z.to_nat (2 ^ (8 * Z.of_nat sizeof_alphabet_T)))
                (encode_alphabet_NoDup sizeof_alphabet_T Hsort data)) as H.
  rewrite Z2Nat.id, length_map in H by lia.
  specialize (H (encode_alphabet_range sizeof_alphabet_T Hsort data)). lia.
Qed.

(** C7.  With [BitsNeeded] as the specification describes it, for
    one-byte and for two-byte symbols: the first byte of the output is
    [BitsNeeded] of the height of the tree built from the alphabet, not
    cut by the conversion to a byte; read as [max_depth_bits] it satisfies
    [2^max_depth_bits - 1 >= height]; the depth of every symbol of the
    input fits in [max_depth_bits] bits, and the [max_depth_bits] depth
    bits that [method1] writes for the symbol into the output hold that
    depth. *)
Theorem max_depth_bits_holds_height
        (sizeof_alphabet_T : nat) (std_sort : list Letter -> list Letter)
        (data : list byte) :
  sort_contract std_sort ->
  sizeof_alphabet_T = 1%nat \/ sizeof_alphabet_T = 2%nat ->
  exists (b0 : byte) (rest : list byte),
    encode sizeof_alphabet_T Bits.BitsNeeded std_sort data = b0 :: rest
    /\ Z_of_byte b0
       = Bits.BitsNeeded (height (encode_tree sizeof_alphabet_T std_sort data))
    /\ 2 ^ Z_of_byte b0 - 1 >= height (encode_tree sizeof_alphabet_T std_sort data)
    /\ encode_writes sizeof_alphabet_T Bits.BitsNeeded std_sort data
                     (encode_symbol_bits sizeof_alphabet_T Bits.BitsNeeded
                                         std_sort data)
    /\ forall v, In v (encode_values sizeof_alphabet_T data) ->
                 0 <= depth (symbol_path sizeof_alphabet_T std_sort data v)
                 <= 2 ^ Z_of_byte b0 - 1
                 /\ bits_value
                      (firstn (Z.to_nat (Z_of_byte b0))
                              (encode_symbol_bits sizeof_alphabet_T Bits.BitsNeeded
                                                  std_sort data v))
                    = depth (symbol_path sizeof_alphabet_T std_sort data v).
Proof.
  intros Hsort Hw.
  assert (Hwidth : (sizeof_alphabet_T <= 4)%nat) by (destruct Hw; lia).
  destruct (encode_layout sizeof_alphabet_T Bits.BitsNeeded std_sort data)
    as (body & padding & E & _).
  unfold encode_header in E. cbn [app] in E.
  eexists. eexists. split; [exact E|].
  pose proof (height_nonneg (encode_tree sizeof_alphabet_T std_sort data)) as Hh0.
  pose proof (encode_tree_height sizeof_alphabet_T Hsort data) as Hh.
  pose proof (alphabet_length_symbol_width sizeof_alphabet_T data Hsort) as Hl.
  assert (Hp : 2 ^ (8 * Z.of_nat sizeof_alphabet_T) <= 2 ^ 32)
    by (apply Z.pow_le_mono_r; lia).
  assert (Hh33 : height (encode_tree sizeof_alphabet_T std_sort data) < 2 ^ 33)
    by (change (2 ^ 33) with 8589934592; change (2 ^ 32) with 4294967296 in Hp; lia).
  pose proof (@BitsNeeded_le _ 33 Hh0 Hh33) as Hb.
  pose proof (@BitsNeeded_enough _ Hh0) as He.
  unfold encode_max_depth_bits.
  rewrite Z_of_byte_view_small by lia.
  split; [reflexivity|].
  split; [lia|].
  split; [apply encode_writes_symbol_bits|].
  intros v Hv.
  destruct (symbol_path_found sizeof_alphabet_T Hsort data v Hv)
    as (k & l & r & Hk & Hkh & _).
  split; [lia|].
  unfold encode_symbol_bits, encode_max_depth_bits.
  fold (symbol_path sizeof_alphabet_T std_sort data v).
  apply depth_field_value. lia.
Qed.

(** The buffer "ABCD": a tree of height 2, two depth bits. *)
Lemma max_depth_bits_holds_height_witness :
  exists (b0 : byte) (rest : list byte),
    encode 1 Bits.BitsNeeded insertion_sort [x41; x42; x43; x44] = b0 :: rest
    /\ Z_of_byte b0
       = Bits.BitsNeeded (height (encode_tree 1 insertion_sort [x41; x42; x43; x44]))
    /\ 2 ^ Z_of_byte b0 - 1 >= height (encode_tree 1 insertion_sort [x41; x42; x43; x44])
    /\ encode_writes 1 Bits.BitsNeeded insertion_sort [x41; x42; x43; x44]
                     (encode_symbol_bits 1 Bits.BitsNeeded insertion_sort
                                         [x41; x42; x43; x44])
    /\ forall v, In v (encode_values 1 [x41; x42; x43; x44]) ->
                 0 <= depth (symbol_path 1 insertion_sort [x41; x42; x43; x44] v)
                 <= 2 ^ Z_of_byte b0 - 1
                 /\ bits_value
                      (firstn (Z.to_nat (Z_of_byte b0))
                              (encode_symbol_bits 1 Bits.BitsNeeded insertion_sort
                                                  [x41; x42; x43; x44] v))
                    = depth (symbol_path 1 insertion_sort [x41; x42; x43; x44] v).
Proof.
  apply (@max_depth_bits_holds_height 1 insertion_sort [x41; x42; x43; x44]).
  - apply insertion_sort_contract.
  - left. reflexivity.
Defined.

(** ** The counter *)

(** The counter [decode] finds at the end of the output of [encode]. *)
Lemma encode_counter (sizeof_alphabet_T : nat) (BitsNeeded : Z -> Z)
      (std_sort : list Letter -> list Letter) (data : list byte) :
  read_uint32_t_tail (encode sizeof_alphabet_T BitsNeeded std_sort data)
  = Some (wrap_uint32_t
            (Z.of_nat (length (encode_path_bits sizeof_alphabet_T BitsNeeded
                                                std_sort data)))).
Proof.
  destruct (encode_layout sizeof_alphabet_T BitsNeeded std_sort data)
    as (body & padding & E & _).
  rewrite E, app_assoc. apply read_uint32_t_tail_app.
  unfold wrap_uint32_t. apply Z.mod_pos_bound. lia.
Qed.

(** C2, as the code has it.  For one-byte and for two-byte symbols, the
    output of [encode] is the header, the packed path bits with fewer than
    eight padding bits, and the four bytes of the number of path bits
    reduced modulo 2^32.  When the input has a symbol, at most 256 distinct
    symbols and fewer than 2^32 path bits, [decode] leaves its loop having
    counted exactly the number of path bits, with its reader on the bit
    that follows the last path bit. *)
Theorem counter_counts_path_bits
        (sizeof_alphabet_T : nat) (BitsNeeded : Z -> Z)
        (std_sort : list Letter -> list Letter) (data : list byte) :
  sizeof_alphabet_T = 1%nat \/ sizeof_alphabet_T = 2%nat ->
  (exists (body : list byte) (padding : nat),
      encode sizeof_alphabet_T BitsNeeded std_sort data
      = encode_header sizeof_alphabet_T BitsNeeded std_sort data
        ++ body
        ++ bytes_of_uint32_t
             (wrap_uint32_t
                (Z.of_nat (length (encode_path_bits sizeof_alphabet_T BitsNeeded
                                                    std_sort data))))
      /\ unpack body
         = encode_path_bits sizeof_alphabet_T BitsNeeded std_sort data
           ++ repeat false padding
      /\ (padding < 8)%nat)
  /\ read_uint32_t_tail (encode sizeof_alphabet_T BitsNeeded std_sort data)
     = Some (wrap_uint32_t
               (Z.of_nat (length (encode_path_bits sizeof_alphabet_T BitsNeeded
                                                   std_sort data))))
  /\ (sort_contract std_sort ->
      bits_needed_contract BitsNeeded ->
      encode_values sizeof_alphabet_T data <> [] ->
      (length (encode_alphabet sizeof_alphabet_T std_sort data) <= 256)%nat ->
      Z.of_nat (length (encode_path_bits sizeof_alphabet_T BitsNeeded std_sort data))
      < 2 ^ 32 ->
      exists (rd : Reader) (occurrences : list Occurrence),
        decode_state sizeof_alphabet_T
                     (encode sizeof_alphabet_T BitsNeeded std_sort data)
        = Some (rd, occurrences)
        /\ bits_read rd
           = Z.of_nat (length (encode_path_bits sizeof_alphabet_T BitsNeeded
                                                std_sort data))
        /\ reader_at
             (8 * length (encode_header sizeof_alphabet_T BitsNeeded std_sort data)
              + length (encode_path_bits sizeof_alphabet_T BitsNeeded std_sort data))
             (Z.of_nat (length (encode_path_bits sizeof_alphabet_T BitsNeeded
                                                 std_sort data)))
             rd).
Proof.
  intros _. split; [apply encode_layout|]. split; [apply encode_counter|].
  intros Hsort Hbits Hvalues Halphabet Hcounter.
    destruct (@decode_state_encode sizeof_alphabet_T BitsNeeded std_sort Hsort Hbits
                data Hvalues Halphabet Hcounter) as (rd & E & Hrd).
    exists rd. eexists. split; [exact E|]. split; [|exact Hrd].
    destruct Hrd as (c & _ & _ & _ & H). exact H.
Qed.

(** On the buffer "AAAB": five path bits, counted exactly by [decode]. *)
Lemma counter_counts_path_bits_witness :
  exists (rd : Reader) (occurrences : list Occurrence),
    decode_state 1 (encode 1 Bits.BitsNeeded insertion_sort [x41; x41; x41; x42])
    = Some (rd, occurrences)
    /\ bits_read rd
       = Z.of_nat (length (encode_path_bits 1 Bits.BitsNeeded insertion_sort
                                            [x41; x41; x41; x42]))
    /\ reader_at
         (8 * length (encode_header 1 Bits.BitsNeeded insertion_sort [x41; x41; x41; x42])
          + length (encode_path_bits 1 Bits.BitsNeeded insertion_sort
                                     [x41; x41; x41; x42]))
         (Z.of_nat (length (encode_path_bits 1 Bits.BitsNeeded insertion_sort
                                             [x41; x41; x41; x42])))
         rd.
Proof.
  apply (@counter_counts_path_bits 1 Bits.BitsNeeded insertion_sort
                                   [x41; x41; x41; x42]).
  - left. reflexivity.
  - apply insertion_sort_contract.
  - apply BitsNeeded_contract.
  - discriminate.
  - vm_compute. lia.
  - vm_compute. reflexivity.
Defined.

(** *** An input with more than 2^32 path bits *)

Lemma two_values (l : list Z) (a b : Z) :
  a <> b -> NoDup l -> (forall s, In s l <-> s = a \/ s = b) ->
  l = [a; b] \/ l = [b; a].
Proof.
  intros Hab Hnd Hin.
  destruct l as [|x [|y [|z l]]].
  - exfalso. apply (Hin a). auto.
  - exfalso. assert (Ha : In a [x]) by (apply Hin; auto).
    assert (Hb : In b [x]) by (apply Hin; auto).
    simpl in Ha, Hb. destruct Ha as [Ha|[]], Hb as [Hb|[]]. congruence.
  - assert (Hx : x = a \/ x = b) by (apply Hin; simpl; auto).
    assert (Hy : y = a \/ y = b) by (apply Hin; simpl; auto).
    inversion Hnd as [|? ? Hnx _]; subst. simpl in Hnx.
    destruct Hx as [-> | ->], Hy as [-> | ->]; auto; exfalso; apply Hnx; auto.
  - exfalso.
    assert (Hx : x = a \/ x = b) by (apply Hin; simpl; auto).
    assert (Hy : y = a \/ y = b) by (apply Hin; simpl; auto).
    assert (Hz : z = a \/ z = b) by (apply Hin; simpl; auto).
    inversion Hnd as [|? ? Hnx Hnd']; subst.
    inversion Hnd' as [|? ? Hny _]; subst. simpl in Hnx, Hny.
    destruct Hx as [-> | ->], Hy as [-> | ->], Hz as [-> | ->]; tauto.
Qed.

Section OneAThenB.

Variable std_sort : list Letter -> list Letter.
Hypothesis std_sort_contract : sort_contract std_sort.
Variable n : nat.
Hypothesis n_large : (2 <= n)%nat.
Hypothesis n_size_t : Z.of_nat n < 2 ^ 64.

Lemma one_A_then_B_values :
  encode_values 1 (one_A_then_B n) = 65 :: repeat 66 n.
Proof.
  rewrite encode_values_bytes. unfold one_A_then_B.
  cbn [map]. rewrite map_repeat. reflexivity.
Qed.

Lemma one_A_then_B_alphabet :
  map value (encode_alphabet 1 std_sort (one_A_then_B n)) = [66; 65].
Proof.
  assert (Hsorted : StronglySorted (fun a b => freq b <= freq a)
                                   (encode_alphabet 1 std_sort (one_A_then_B n)))
    by apply std_sort_contract.
  pose proof (encode_alphabet_NoDup 1 std_sort_contract (one_A_then_B n)) as Hnd.
  pose proof (encode_alphabet_In 1 std_sort_contract (one_A_then_B n)) as Hin.
  pose proof (encode_alphabet_freq 1 std_sort_contract (one_A_then_B n)) as Hfreq.
  rewrite one_A_then_B_values in Hin, Hfreq.
  assert (Hin' : forall s, In s (map value (encode_alphabet 1 std_sort (one_A_then_B n)))
                           <-> s = 65 \/ s = 66).
  { intros s. rewrite Hin. simpl. split.
    - intros [H | H]; [auto | apply repeat_spec in H; auto].
    - intros [H | H]; [auto|]. right. subst s.
      destruct n as [|m]; [lia | simpl; auto]. }
  assert (Hne : 65 <> 66) by discriminate.
  destruct (two_values Hne Hnd Hin') as [E | E]; [exfalso | exact E].
  destruct (encode_alphabet 1 std_sort (one_A_then_B n)) as [|a [|b [|c al]]];
    try discriminate.
  simpl in E. injection E as Ea Eb.
  pose proof (Hfreq a (or_introl eq_refl)) as Fa.
  pose proof (Hfreq b (or_intror (or_introl eq_refl))) as Fb.
  rewrite Ea in Fa. rewrite Eb in Fb.
  cbn [count_occ] in Fa, Fb.
  destruct (Z.eq_dec 65 65) as [_|N] in Fa; [|contradiction].
  destruct (Z.eq_dec 65 66) as [N|_] in Fb; [discriminate|].
  rewrite count_occ_repeat_neq in Fa by discriminate.
  rewrite count_occ_repeat_eq in Fb by reflexivity.
  unfold wrap_size_t in Fa, Fb. rewrite Z.mod_small in Fb by lia.
  change (Z.of_nat 1 mod 2 ^ 64) with 1 in Fa.
  inversion Hsorted as [|? ? _ Hle]; subst.
  inversion Hle as [|? ? Hab _]; subst. lia.
Qed.

Lemma one_A_then_B_path_bits :
  length (encode_path_bits 1 Bits.BitsNeeded std_sort (one_A_then_B n))
  = (2 + n)%nat.
Proof.
  unfold encode_path_bits, symbol_code, symbol_path, encode_max_depth_bits,
    encode_tree.
  rewrite build_tree_insert_all, one_A_then_B_alphabet, one_A_then_B_values.
  cbn [flat_map]. rewrite length_app.
  rewrite (@flat_map_constant_length _ _ 1).
  - assert (E : length (code_bits (Bits.BitsNeeded (height (insert_all [66; 65])))
                                 (snd (path_info PathInfo_default
                                                 (insert_all [66; 65]) 65)))
                = 2%nat) by (vm_compute; reflexivity).
    rewrite E, repeat_length. lia.
  - intros v Hv. apply repeat_spec in Hv. subst v. vm_compute. reflexivity.
Qed.

End OneAThenB.

(** C2, as the specification words it, fails on a buffer of one 'A'
    followed by 2^32 times 'B': [encode] writes 2^32 + 2 path bits (one per
    'B', two for the 'A'), and the counter at the end of its output is 2. *)
Lemma counter_wraps_at_four_gibibytes :
  Z.of_nat (length (encode_path_bits 1 Bits.BitsNeeded insertion_sort
                                     four_gibibyte_input))
  = 4294967298
  /\ read_uint32_t_tail (encode 1 Bits.BitsNeeded insertion_sort four_gibibyte_input)
     = Some 2.
Proof.
  assert (Hn : (2 <= Z.to_nat 4294967296)%nat) by lia.
  assert (Hs : Z.of_nat (Z.to_nat 4294967296) < 2 ^ 64)
    by (rewrite Z2Nat.id; [reflexivity | discriminate]).
  pose proof (one_A_then_B_path_bits insertion_sort_contract Hn Hs) as Hlen.
  fold four_gibibyte_input in Hlen.
  assert (E : Z.of_nat (length (encode_path_bits 1 Bits.BitsNeeded insertion_sort
                                                 four_gibibyte_input))
              = 4294967298).
  { rewrite Hlen, Nat2Z.inj_add, Z2Nat.id by discriminate. reflexivity. }
  split; [exact E|].
  rewrite encode_counter, E. reflexivity.
Qed.

(** * Further properties of the tree and of the codec *)

(** ** What [path_info] leaves in the [PathInfo] *)

Lemma set_bit_path_clear_from (p : PathInfo) (i d : Z) (b : bool) :
  0 <= i -> i < d -> clear_from (bit_path p) d ->
  clear_from (bit_path (set_bit_path p i b)) d.
Proof.
  intros Hi Hid Hc j Hj. rewrite set_bit_path_testbit by assumption.
  replace (i =? j) with false by (symmetry; apply Z.eqb_neq; lia).
  apply Hc, Hj.
Qed.

Lemma clear_from_weaken (bits d d' : Z) :
  d <= d' -> clear_from bits d -> clear_from bits d'.
Proof. intros Hd Hc j Hj. apply Hc. lia. Qed.

(** [path_info_at] writes no bit below the depth of [parent]; if no bit
    was set from that depth on, a failed search leaves none set, and a
    successful one leaves none set from the reported depth on. *)
Lemma path_info_at_frame (t : shared_node) :
  forall (p : PathInfo) (d v : Z) (found : bool) (p' : PathInfo),
    0 <= d ->
    path_info_at p t d v = (found, p') ->
    (forall j, 0 <= j < d ->
               Z.testbit (bit_path p') j = Z.testbit (bit_path p) j)
    /\ (clear_from (bit_path p) d ->
        if found
        then clear_from (bit_path p') (depth p') /\ d <= depth p'
        else clear_from (bit_path p') d /\ depth p' = depth p).
Proof.
  induction t as [|pv l IHl r IHr]; intros p d v found p' Hd H.
  - simpl in H. injection H as <- <-. auto.
  - assert (Hd1 : 0 <= d + 1) by lia.
    assert (Hdd : d <= d + 1) by lia.
    cbn [path_info_at] in H. destruct (pv =? v).
    + injection H as <- <-. unfold set_depth. cbn [bit_path depth].
      split; [reflexivity|]. intros Hc. split; [assumption | lia].
    + destruct (path_info_at p l (d + 1) v) as [found_left p1] eqn:El.
      destruct (IHl _ _ _ _ _ Hd1 El) as [Hlow1 Hclear1].
      destruct found_left.
      * injection H as <- <-. rewrite set_bit_path_depth. split.
        -- intros j Hj. rewrite set_bit_path_testbit by assumption.
           replace (d =? j) with false by (symmetry; apply Z.eqb_neq; lia).
           apply Hlow1. lia.
        -- intros Hc.
           destruct (Hclear1 (@clear_from_weaken _ d (d + 1) Hdd Hc)) as [Hc1 Hle].
           split; [|lia]. apply set_bit_path_clear_from; [assumption | lia | assumption].
      * destruct (path_info_at (set_bit_path p1 d true) r (d + 1) v)
          as [found_right p3] eqn:Er.
        destruct (IHr _ _ _ _ _ Hd1 Er) as [Hlow3 Hclear3].
        assert (Hlow : forall j, 0 <= j < d ->
                         Z.testbit (bit_path p3) j = Z.testbit (bit_path p) j).
        { intros j Hj. rewrite Hlow3 by lia.
          rewrite set_bit_path_testbit by assumption.
          replace (d =? j) with false by (symmetry; apply Z.eqb_neq; lia).
          apply Hlow1. lia. }
        assert (Hres : forall b j, 0 <= j < d ->
                         Z.testbit (bit_path (set_bit_path p3 d b)) j
                         = Z.testbit (bit_path p) j).
        { intros b j Hj. rewrite set_bit_path_testbit by assumption.
          replace (d =? j) with false by (symmetry; apply Z.eqb_neq; lia).
          apply Hlow, Hj. }
        assert (Hstep : clear_from (bit_path p) d ->
                        clear_from (bit_path (set_bit_path p1 d true)) (d + 1)
                        /\ depth (set_bit_path p1 d true) = depth p).
        { intros Hc.
          destruct (Hclear1 (@clear_from_weaken _ d (d + 1) Hdd Hc)) as [Hc1 Hdp].
          split; [|rewrite set_bit_path_depth; exact Hdp].
          apply set_bit_path_clear_from; [assumption | lia | assumption]. }
        destruct found_right; injection H as <- <-; rewrite set_bit_path_depth;
          (split; [apply Hres|]); intros Hc;
          destruct (Hstep Hc) as [Hc2 Hdp2].
        -- destruct (Hclear3 Hc2) as [Hc3 Hle]. split; [|lia].
           apply set_bit_path_clear_from; [assumption | lia | assumption].
        -- destruct (Hclear3 Hc2) as [Hc3 Hdp3]. split; [|congruence].
           intros j Hj. rewrite set_bit_path_testbit by assumption.
           destruct (d =? j) eqn:E; [reflexivity|].
           apply Z.eqb_neq in E. apply Hc3. lia.
Qed.

Lemma clear_from_range (bits d : Z) :
  0 <= d -> clear_from bits d -> 0 <= bits < 2 ^ d.
Proof.
  intros Hd Hc.
  assert (E : bits = bits mod 2 ^ d).
  { apply Z.bits_inj'. intros j Hj. rewrite Z.testbit_mod_pow2 by assumption.
    destruct (j <? d) eqn:Ej; [reflexivity|].
    apply Z.ltb_ge in Ej. rewrite Hc by assumption. reflexivity. }
  rewrite E. apply Z.mod_pos_bound. apply Z.pow_pos_nonneg; lia.
Qed.

Lemma clear_from_default (d : Z) : clear_from (bit_path PathInfo_default) d.
Proof. intros j _. apply Z.bits_0. Qed.

(** X1. In a tree whose depths are indices of the bit path
    ([height < bit_path_size]: one- and two-byte symbols), [path_info]
    answers true exactly for the values some node of the tree holds,
    whatever the [PathInfo] it is given. *)
Theorem path_info_true_iff_in_tree
        (sizeof_alphabet_T : nat) (pathInfo : PathInfo) (root : shared_node) (v : Z) :
  height root < bit_path_size sizeof_alphabet_T ->
  fst (path_info pathInfo root v) = true <-> In v (values root).
Proof.
  intros _. unfold path_info. split.
  - intros H. destruct (in_dec Z.eq_dec v (values root)) as [Hin | Hnot];
      [assumption|].
    rewrite (path_info_at_absent root pathInfo 0 v Hnot) in H. discriminate.
  - apply path_info_at_complete.
Qed.

(** The tree of "ABCDE" with one-byte symbols, searched for 'D'. *)
Lemma path_info_true_iff_in_tree_witness :
  fst (path_info PathInfo_default (insert_all [65; 66; 67; 68; 69]) 68) = true
  <-> In 68 (values (insert_all [65; 66; 67; 68; 69])).
Proof.
  apply (@path_info_true_iff_in_tree 1 PathInfo_default
           (insert_all [65; 66; 67; 68; 69]) 68).
  vm_compute. reflexivity.
Defined.

(** X2. Started on a fresh [PathInfo], a failed [path_info] gives it back
    unchanged: every bit set on the way down is cleared on the way back;
    and a successful one sets bits below the reported depth only, the depth
    being at most the height of the tree. *)
Theorem path_info_leaves_no_residue
        (root : shared_node) (v : Z) (found : bool) (path : PathInfo) :
  path_info PathInfo_default root v = (found, path) ->
  if found
  then 0 <= depth path <= height root /\ 0 <= bit_path path < 2 ^ depth path
  else path = PathInfo_default.
Proof.
  unfold path_info. intros H.
  destruct (@path_info_at_frame _ _ _ _ _ _ (Z.le_refl 0) H) as [_ Hclear].
  specialize (Hclear (@clear_from_default 0)).
  destruct found.
  - destruct Hclear as [Hc Hd].
    destruct (path_info_at_found _ _ _ (Z.le_refl 0) H) as (k & _ & _ & Hk & _ & Hh).
    split; [lia|]. apply clear_from_range; assumption.
  - destruct Hclear as [Hc Hd]. destruct path as [bits d].
    cbn [bit_path depth] in *. unfold PathInfo_default. f_equal; [|exact Hd].
    pose proof (@clear_from_range _ 0 (Z.le_refl 0) Hc) as Hr.
    change (2 ^ 0) with 1 in Hr. lia.
Qed.

(** A search for 'Z' and a search for 'D' in the tree of "ABCDE". *)
Lemma path_info_leaves_no_residue_witness :
  snd (path_info PathInfo_default (insert_all [65; 66; 67; 68; 69]) 90)
  = PathInfo_default
  /\ 0 <= bit_path (snd (path_info PathInfo_default (insert_all [65; 66; 67; 68; 69]) 68))
     < 2 ^ depth (snd (path_info PathInfo_default (insert_all [65; 66; 67; 68; 69]) 68)).
Proof.
  split.
  - exact (@path_info_leaves_no_residue (insert_all [65; 66; 67; 68; 69]) 90 false
             _ eq_refl).
  - exact (proj2 (@path_info_leaves_no_residue (insert_all [65; 66; 67; 68; 69]) 68 true
                    _ eq_refl)).
Defined.

(** ** The place of the symbol of each rank *)

Lemma insert_path_left_null (pv : Z) (r : shared_node) :
  insert_path (Node pv nullptr r) = [false].
Proof. reflexivity. Qed.

Lemma insert_path_right_null (pv : Z) (l : shared_node) :
  l <> nullptr -> insert_path (Node pv l nullptr) = [true].
Proof. destruct l; [contradiction | reflexivity]. Qed.

Lemma insert_path_both (pv : Z) (l r : shared_node) :
  l <> nullptr -> r <> nullptr ->
  insert_path (Node pv l r)
  = if size l <=? size r then false :: insert_path l else true :: insert_path r.
Proof.
  intros Hl Hr.
  replace (size l <=? size r) with (count_nodes l <=? count_nodes r).
  - destruct l; [contradiction|]. destruct r; [contradiction|]. reflexivity.
  - rewrite !count_nodes_size by assumption.
    destruct (size l <=? size r) eqn:E; [apply Z.leb_le | apply Z.leb_gt];
      [apply Z.leb_le in E | apply Z.leb_gt in E]; lia.
Qed.

Lemma at_path_insert_at (t : shared_node) (v : Z) :
  forall (path : list bool) (x : Z),
    at_path t path x -> at_path (insert_at t v) path x.
Proof.
  induction t as [|pv l IHl r IHr]; intros path x H; [contradiction|].
  insert_at_cases l r; destruct path as [|[] path]; cbn [at_path] in *; auto;
    contradiction.
Qed.

Lemma at_path_new (t : shared_node) (v : Z) :
  t <> nullptr -> at_path (insert_at t v) (insert_path t) v.
Proof.
  induction t as [|pv l IHl r IHr]; [contradiction|]. intros _.
  destruct (null_dec l) as [->|Hl].
  - rewrite insert_at_left_null, insert_path_left_null. reflexivity.
  - destruct (null_dec r) as [->|Hr].
    + rewrite (insert_at_right_null _ _ Hl), (insert_path_right_null _ Hl).
      reflexivity.
    + rewrite (insert_at_both _ _ Hl Hr), (insert_path_both _ Hl Hr).
      destruct (size l <=? size r); cbn [at_path]; auto.
Qed.

Lemma at_path_In (t : shared_node) :
  forall (path : list bool) (v : Z), at_path t path v -> In v (values t).
Proof.
  induction t as [|pv l IHl r IHr]; intros path v H; [contradiction|].
  simpl. destruct path as [|b path]; cbn [at_path] in H; [left; assumption|].
  right. apply in_or_app. destruct b; eauto.
Qed.

Lemma insert_path_rank (t : shared_node) :
  balanced t -> t <> nullptr ->
  insert_path t = rank_path (Z.to_pos (size t + 1)).
Proof.
  induction t as [|pv l IHl r IHr]; [contradiction|].
  intros (Hs & Hbl & Hbr) _.
  pose proof (size_nonneg r) as Hr0.
  destruct (null_dec l) as [->|Hl].
  - rewrite insert_path_left_null. cbn [size] in *.
    replace (size r) with 0 by lia. reflexivity.
  - pose proof (size_pos Hl) as Hl0.
    destruct (null_dec r) as [->|Hr].
    + rewrite (insert_path_right_null _ Hl). cbn [size] in *.
      replace (size l) with 1 by lia. reflexivity.
    + pose proof (size_pos Hr) as Hr1.
      rewrite (insert_path_both _ Hl Hr), size_Node.
      destruct (size l <=? size r) eqn:E;
        [apply Z.leb_le in E | apply Z.leb_gt in E].
      * rewrite (IHl Hbl Hl).
        replace (size l + size r + 1 + 1) with (2 * (size l + 1)) by lia.
        destruct (size l + 1) eqn:Ek; try lia. reflexivity.
      * rewrite (IHr Hbr Hr).
        replace (size l + size r + 1 + 1) with (2 * (size r + 1) + 1) by lia.
        destruct (size r + 1) eqn:Ek; try lia. reflexivity.
Qed.

Lemma rank_path_length (rank : positive) :
  Z.of_nat (length (rank_path rank)) = Z.log2 (Z.pos rank).
Proof.
  induction rank as [q IH|q IH|]; cbn [rank_path length]; [| |reflexivity].
  - rewrite Nat2Z.inj_succ, IH, Pos2Z.inj_xI, Z.log2_succ_double by lia.
    reflexivity.
  - rewrite Nat2Z.inj_succ, IH, Pos2Z.inj_xO, Z.log2_double by lia.
    reflexivity.
Qed.

Lemma rank_path_value (rank : positive) :
  bits_value (rank_path rank) = Z.pos rank - 2 ^ Z.log2 (Z.pos rank).
Proof.
  induction rank as [q IH|q IH|]; cbn [rank_path bits_value Z.b2z];
    [| |reflexivity].
  - rewrite IH, (Pos2Z.inj_xI q), Z.log2_succ_double by lia.
    rewrite Z.pow_succ_r by apply Z.log2_nonneg. lia.
  - rewrite IH, (Pos2Z.inj_xO q), Z.log2_double by lia.
    rewrite Z.pow_succ_r by apply Z.log2_nonneg. lia.
Qed.

Lemma testbit_bits_value (p : list bool) :
  forall j, 0 <= j -> Z.testbit (bits_value p) j = nth (Z.to_nat j) p false.
Proof.
  induction p as [|b p IH]; intros j Hj.
  - simpl. rewrite Z.bits_0. destruct (Z.to_nat j); reflexivity.
  - cbn [bits_value].
    destruct (Z.eq_dec j 0) as [->|Hne].
    + rewrite Z.add_comm, Z.testbit_0_r. reflexivity.
    + replace j with (Z.succ (j - 1)) at 1 by lia.
      rewrite Z.add_comm, Z.testbit_succ_r by lia.
      rewrite IH by lia.
      replace (Z.to_nat j) with (S (Z.to_nat (j - 1))) by lia. reflexivity.
Qed.

(** In a tree without repeated values, [path_info_at] reports the turns
    that lead to the node of the value. *)
Lemma path_info_at_path (t : shared_node) :
  forall (p : PathInfo) (d : Z) (path : list bool) (v : Z),
    0 <= d -> NoDup (values t) -> at_path t path v ->
    clear_from (bit_path p) d ->
    exists p',
      path_info_at p t d v = (true, p')
      /\ depth p' = d + Z.of_nat (length path)
      /\ forall j, d <= j ->
                   Z.testbit (bit_path p') j = nth (Z.to_nat (j - d)) path false.
Proof.
  induction t as [|pv l IHl r IHr]; intros p d path v Hd Hnd Hat Hc;
    [contradiction|].
  assert (Hd1 : 0 <= d + 1) by lia.
  assert (Hdd : d <= d + 1) by lia.
  cbn [values] in Hnd. inversion Hnd as [|? ? Hpv Hnd']; subst.
  cbn [path_info_at].
  destruct (pv =? v) eqn:Epv.
  - apply Z.eqb_eq in Epv. subst pv.
    destruct path as [|b path].
    + eexists. split; [reflexivity|]. unfold set_depth. cbn [depth bit_path length].
      split; [lia|]. intros j Hj. rewrite (Hc j Hj).
      destruct (Z.to_nat (j - d)); reflexivity.
    + exfalso. apply Hpv, in_or_app. cbn [at_path] in Hat.
      apply at_path_In in Hat. destruct b; auto.
  - apply Z.eqb_neq in Epv.
    destruct path as [|b path]; cbn [at_path] in Hat; [contradiction|].
    destruct b.
    + assert (Hnl : ~ In v (values l)).
      { intros H. apply (NoDup_app_disjoint _ _ v Hnd' H).
        apply (at_path_In _ _ _ Hat). }
      pose proof (path_info_at_absent l p (d + 1) v Hnl) as Hl.
      destruct (path_info_at p l (d + 1) v) as [found_left p1] eqn:El.
      simpl in Hl. subst found_left.
      destruct (@path_info_at_frame _ _ _ _ _ _ Hd1 El) as [_ Hclear1].
      destruct (Hclear1 (@clear_from_weaken _ d (d + 1) Hdd Hc)) as [Hc1 _].
      assert (Hc2 : clear_from (bit_path (set_bit_path p1 d true)) (d + 1))
        by (apply set_bit_path_clear_from; [assumption | lia | assumption]).
      destruct (IHr (set_bit_path p1 d true) (d + 1) path v Hd1
                    (NoDup_app_remove_l _ _ Hnd') Hat Hc2) as (p3 & E3 & Hd3 & Hb3).
      rewrite E3. eexists. split; [reflexivity|].
      rewrite set_bit_path_depth. cbn [length]. split; [lia|].
      intros j Hj. rewrite set_bit_path_testbit by assumption.
      destruct (d =? j) eqn:E.
      * apply Z.eqb_eq in E. subst j. rewrite Z.sub_diag. reflexivity.
      * apply Z.eqb_neq in E. rewrite Hb3 by lia.
        replace (Z.to_nat (j - d)) with (S (Z.to_nat (j - (d + 1)))) by lia.
        reflexivity.
    + destruct (IHl p (d + 1) path v Hd1 (NoDup_app_remove_r _ _ Hnd') Hat
                    (@clear_from_weaken _ d (d + 1) Hdd Hc)) as (p1 & E1 & Hd1' & Hb1).
      rewrite E1. eexists. split; [reflexivity|].
      rewrite set_bit_path_depth. cbn [length]. split; [lia|].
      intros j Hj. rewrite set_bit_path_testbit by assumption.
      destruct (d =? j) eqn:E.
      * apply Z.eqb_eq in E. subst j. rewrite Z.sub_diag. reflexivity.
      * apply Z.eqb_neq in E. rewrite Hb1 by lia.
        replace (Z.to_nat (j - d)) with (S (Z.to_nat (j - (d + 1)))) by lia.
        reflexivity.
Qed.

(** The tree built from valid symbols holds the symbol of position [j]
    (from 0) at the end of the turns of the rank [j + 1]. *)
Lemma insert_all_paths (symbols : list Z) :
  Forall (fun s => s <> INVALID) symbols ->
  forall (j : nat) (s : Z),
    nth_error symbols j = Some s ->
    at_path (insert_all symbols) (rank_path (Pos.of_succ_nat j)) s.
Proof.
  induction symbols as [|x symbols IH] using rev_ind;
    intros Hall j s Hj; [destruct j; discriminate|].
  pose proof Hall as Hall'.
  apply Forall_app in Hall. destruct Hall as [Hall Hx].
  destruct symbols as [|s0 symbols'].
  - destruct j as [|[|j]]; simpl in Hj; try discriminate.
    injection Hj as <-. reflexivity.
  - remember (s0 :: symbols') as symbols eqn:Es.
    assert (Hne : symbols <> []) by (subst; discriminate).
    destruct (insert_all_shape Hall Hne) as (Hbal & Hsize & _).
    destruct (insert_all_values Hall Hne) as [Hroot _].
    pose proof (root_value_not_null Hroot) as Hnn.
    rewrite insert_all_snoc, (insert_valid_root _ _ Hroot).
    destruct (Nat.lt_ge_cases j (length symbols)) as [Hlt | Hge].
    + rewrite nth_error_app1 in Hj by assumption.
      apply at_path_insert_at, IH; assumption.
    + rewrite nth_error_app2 in Hj by assumption.
      destruct (j - length symbols)%nat as [|m] eqn:Em; simpl in Hj;
        [|destruct m; discriminate].
      injection Hj as <-.
      assert (j = length symbols) by lia. subst j.
      replace (Pos.of_succ_nat (length symbols))
        with (Z.to_pos (size (insert_all symbols) + 1)).
      * rewrite <- (insert_path_rank Hbal Hnn). apply at_path_new, Hnn.
      * rewrite Hsize. apply Pos2Z.inj. rewrite Z2Pos.id by lia.
        rewrite Zpos_P_of_succ_nat. lia.
Qed.

(** In a tree without repeated values, [path_info] packs the turns that
    lead to the node of the value. *)
Lemma path_info_from_path (t : shared_node) (path : list bool) (v : Z) :
  NoDup (values t) -> at_path t path v ->
  path_info PathInfo_default t v
  = (true, mkPathInfo (bits_value path) (Z.of_nat (length path))).
Proof.
  intros Hnd Hat.
  destruct (@path_info_at_path t PathInfo_default 0 path v (Z.le_refl 0) Hnd Hat
              (@clear_from_default 0)) as (p' & E & Hd & Hb).
  unfold path_info. rewrite E. f_equal.
  destruct p' as [bits d]. cbn [bit_path depth] in *. f_equal; [|lia].
  apply Z.bits_inj'. intros i Hi.
  rewrite Hb, testbit_bits_value, Z.sub_0_r by assumption. reflexivity.
Qed.

Lemma insert_all_NoDup (symbols : list Z) :
  Forall (fun x => 0 <= x) symbols -> NoDup symbols -> symbols <> [] ->
  Forall (fun s => s <> INVALID) symbols
  /\ NoDup (values (insert_all symbols)).
Proof.
  intros Hpos Hnd Hne.
  assert (Hall : Forall (fun s => s <> INVALID) symbols).
  { revert Hpos. apply Forall_impl. unfold INVALID. intros; lia. }
  split; [assumption|].
  destruct (insert_all_values Hall Hne) as [_ Hperm].
  apply (Permutation_NoDup (Permutation_sym Hperm)), Hnd.
Qed.

(** X3. In the tree built from distinct symbols, when its depths are
    indices of the bit path ([height < bit_path_size]: one- and two-byte
    symbols), the symbol inserted at position [j] (from 0) sits where the
    binary digits of [j + 1] lead: [path_info] reports the depth
    [log2 (j + 1)] and the bit path [j + 1 - 2 ^ log2 (j + 1)], whatever
    the symbols are. *)
Theorem path_info_of_rank
        (sizeof_alphabet_T : nat) (symbols : list Z) (j : nat) (s : Z) :
  Forall (fun x => 0 <= x) symbols -> NoDup symbols ->
  height (insert_all symbols) < bit_path_size sizeof_alphabet_T ->
  nth_error symbols j = Some s ->
  path_info PathInfo_default (insert_all symbols) s
  = (true, mkPathInfo (Z.of_nat j + 1 - 2 ^ Z.log2 (Z.of_nat j + 1))
                      (Z.log2 (Z.of_nat j + 1))).
Proof.
  intros Hpos Hnd _ Hj.
  assert (Hne : symbols <> []) by (intros ->; destruct j; discriminate).
  destruct (insert_all_NoDup Hpos Hnd Hne) as [Hall Hndv].
  rewrite (@path_info_from_path _ _ _ Hndv (insert_all_paths Hall j Hj)).
  assert (Hrank : Z.pos (Pos.of_succ_nat j) = Z.of_nat j + 1)
    by (rewrite Zpos_P_of_succ_nat; lia).
  rewrite rank_path_value, rank_path_length, Hrank. reflexivity.
Qed.

(** The sixth of seven symbols: depth 2, bits 10 (left, then right). *)
Lemma path_info_of_rank_witness :
  path_info PathInfo_default (insert_all [65; 66; 67; 68; 69; 70; 71]) 70
  = (true, mkPathInfo 2 2).
Proof.
  apply (@path_info_of_rank 1 [65; 66; 67; 68; 69; 70; 71] 5 70).
  - repeat constructor; lia.
  - repeat constructor; simpl; intuition lia.
  - vm_compute. reflexivity.
  - reflexivity.
Defined.

(** X4. Inserting further symbols does not move the symbols already in the
    tree: [path_info] reports the same depth and bit path for them. *)
Theorem path_info_stable_under_insert (symbols more : list Z) (s : Z) :
  Forall (fun x => 0 <= x) (symbols ++ more) -> NoDup (symbols ++ more) ->
  In s symbols ->
  path_info PathInfo_default (insert_all (symbols ++ more)) s
  = path_info PathInfo_default (insert_all symbols) s.
Proof.
  intros Hpos Hnd Hin.
  apply In_nth_error in Hin. destruct Hin as (j & Hj).
  assert (Hlt : (j < length symbols)%nat)
    by (apply nth_error_Some; rewrite Hj; discriminate).
  assert (Hne : symbols <> []) by (intros ->; destruct j; discriminate).
  assert (Hne' : symbols ++ more <> []) by (destruct symbols; [contradiction | discriminate]).
  assert (Hj' : nth_error (symbols ++ more) j = Some s)
    by (rewrite nth_error_app1; assumption).
  destruct (insert_all_NoDup Hpos Hnd Hne') as [Hall' Hndv'].
  rewrite (@path_info_from_path _ _ _ Hndv' (insert_all_paths Hall' j Hj')).
  apply Forall_app in Hpos. destruct Hpos as [Hpos _].
  apply NoDup_app_remove_r in Hnd.
  destruct (insert_all_NoDup Hpos Hnd Hne) as [Hall Hndv].
  rewrite (@path_info_from_path _ _ _ Hndv (insert_all_paths Hall j Hj)).
  reflexivity.
Qed.

(** 'B' keeps its place when "CDE" follows "AB". *)
Lemma path_info_stable_under_insert_witness :
  path_info PathInfo_default (insert_all ([65; 66] ++ [67; 68; 69])) 66
  = path_info PathInfo_default (insert_all [65; 66]) 66.
Proof.
  apply (@path_info_stable_under_insert [65; 66] [67; 68; 69] 66).
  - repeat constructor; lia.
  - repeat constructor; simpl; intuition lia.
  - simpl. auto.
Defined.

(** ** The shape of the tree *)

Lemma balanced_height (t : shared_node) :
  balanced t -> t <> nullptr -> height t = Z.log2 (size t).
Proof.
  induction t as [|pv l IHl r IHr]; [contradiction|].
  intros (Hs & Hbl & Hbr) _.
  pose proof (size_nonneg r) as Hr0.
  rewrite height_Node, size_Node.
  destruct (null_dec l) as [->|Hl].
  - cbn [size] in Hs. assert (r = nullptr) by (apply size_zero; lia). subst r.
    reflexivity.
  - pose proof (size_pos Hl) as Hl0.
    rewrite (child_height_not_null Hl), (IHl Hbl Hl).
    destruct (null_dec r) as [->|Hr].
    + cbn [size child_height] in *. replace (size l) with 1 by lia. reflexivity.
    + pose proof (size_pos Hr) as Hr1.
      rewrite (child_height_not_null Hr), (IHr Hbr Hr).
      pose proof (Z.log2_le_mono (size r) (size l) ltac:(lia)) as Hmono.
      rewrite Z.max_l by lia.
      destruct Hs as [Hs | Hs].
      * replace (size l + size r + 1) with (2 * size l + 1) by lia.
        rewrite Z.log2_succ_double by lia. lia.
      * replace (size l + size r + 1) with (2 * size l) by lia.
        rewrite Z.log2_double by lia. lia.
Qed.

(** X5. The tree built from [n >= 1] symbols is as flat as a tree of [n]
    nodes can be: [count_nodes] of the root is [n - 1], at every node the
    left subtree has as many nodes as the right one or one more, and the
    height is [log2 n]. *)
Theorem built_tree_shape (symbols : list Z) :
  Forall (fun x => 0 <= x) symbols -> symbols <> [] ->
  count_nodes (insert_all symbols) = Z.of_nat (length symbols) - 1
  /\ balanced (insert_all symbols)
  /\ height (insert_all symbols) = Z.log2 (Z.of_nat (length symbols)).
Proof.
  intros Hpos Hne.
  assert (Hall : Forall (fun s => s <> INVALID) symbols).
  { revert Hpos. apply Forall_impl. unfold INVALID. intros; lia. }
  destruct (insert_all_shape Hall Hne) as (Hbal & Hsize & _).
  destruct (insert_all_values Hall Hne) as [Hroot _].
  pose proof (root_value_not_null Hroot) as Hnn.
  split; [rewrite (count_nodes_size Hnn); lia|].
  split; [assumption|].
  rewrite (balanced_height Hbal Hnn), Hsize. reflexivity.
Qed.

(** Seven symbols: six nodes below the root, height 2. *)
Lemma built_tree_shape_witness :
  count_nodes (insert_all [65; 66; 67; 68; 69; 70; 71]) = 6
  /\ balanced (insert_all [65; 66; 67; 68; 69; 70; 71])
  /\ height (insert_all [65; 66; 67; 68; 69; 70; 71]) = 2.
Proof.
  apply (@built_tree_shape [65; 66; 67; 68; 69; 70; 71]).
  - repeat constructor; lia.
  - discriminate.
Defined.

(** ** [find_value] outside the tree *)

Lemma find_node_beyond_height (k : nat) :
  forall (d bits : Z) (t : shared_node),
    height t < Z.of_nat k ->
    find_node k d bits t = None \/ find_node k d bits t = Some nullptr.
Proof.
  induction k as [|k IH]; intros d bits t Hh.
  - pose proof (height_nonneg t). simpl in Hh. lia.
  - destruct t as [|pv l r]; [left; reflexivity|].
    cbn [find_node]. rewrite height_Node in Hh.
    set (c := if Z.testbit bits d then r else l).
    assert (Hc : child_height c <= Z.max (child_height l) (child_height r))
      by (subst c; destruct (Z.testbit bits d); lia).
    destruct (null_dec c) as [E|Hn].
    + rewrite E. destruct k; [right | left]; reflexivity.
    + apply IH. rewrite (child_height_not_null Hn) in Hc. lia.
Qed.

(** X6. [find_value] has a node to read only within the tree: for a depth
    greater than the height it runs into a null pointer, whatever the bit
    path. *)
Theorem find_value_beyond_height
        (sizeof_alphabet_T : nat) (root : shared_node) (pathInfo : PathInfo) :
  height root < depth pathInfo ->
  find_value sizeof_alphabet_T root pathInfo = None.
Proof.
  intros Hh. unfold find_value.
  destruct (@find_node_beyond_height (Z.to_nat (depth pathInfo)) 0
              (bit_path pathInfo) root) as [E | E].
  - pose proof (height_nonneg root). lia.
  - rewrite E. reflexivity.
  - rewrite E. reflexivity.
Qed.

(** Depth 3 in the tree of "ABCDE", whose height is 2. *)
Lemma find_value_beyond_height_witness :
  find_value 1 (insert_all [65; 66; 67; 68; 69]) (mkPathInfo 0 3) = None.
Proof.
  apply (@find_value_beyond_height 1 (insert_all [65; 66; 67; 68; 69])
                                   (mkPathInfo 0 3)).
  vm_compute. reflexivity.
Defined.

(** ** The length of a code *)

Lemma symbol_path_rank (sizeof_alphabet_T : nat)
      (std_sort : list Letter -> list Letter) (data : list byte)
      (j : nat) (a : Letter) :
  sort_contract std_sort ->
  nth_error (encode_alphabet sizeof_alphabet_T std_sort data) j = Some a ->
  depth (symbol_path sizeof_alphabet_T std_sort data (value a))
  = Z.log2 (Z.of_nat j + 1).
Proof.
  intros Hsort Hj.
  unfold symbol_path, encode_tree. rewrite build_tree_insert_all.
  destruct (@path_info_depth_log2
              (map value (encode_alphabet sizeof_alphabet_T std_sort data))
              j (value a)) as (path & E & Hd).
  - pose proof (encode_alphabet_range sizeof_alphabet_T Hsort data) as Hr.
    revert Hr. apply Forall_impl. intros x Hx. lia.
  - apply encode_alphabet_NoDup, Hsort.
  - rewrite nth_error_map, Hj. reflexivity.
  - rewrite E. exact Hd.
Qed.

Lemma StronglySorted_nth_error {A} (R : A -> A -> Prop) (l : list A) :
  StronglySorted R l ->
  forall (i j : nat) (a b : A),
    (i < j)%nat -> nth_error l i = Some a -> nth_error l j = Some b -> R a b.
Proof.
  induction 1 as [|x l Hs IH Hall]; intros i j a b Hij Hi Hj;
    [destruct i; discriminate|].
  destruct j as [|j]; [lia|]. cbn [nth_error] in Hj.
  destruct i as [|i]; cbn [nth_error] in Hi.
  - injection Hi as <-. rewrite Forall_forall in Hall.
    apply Hall. apply (nth_error_In _ _ Hj).
  - apply (IH i j); [lia | assumption | assumption].
Qed.

Lemma encode_alphabet_position (sizeof_alphabet_T : nat)
      (std_sort : list Letter -> list Letter) (data : list byte) (v : Z) :
  sort_contract std_sort ->
  In v (encode_values sizeof_alphabet_T data) ->
  exists (j : nat) (a : Letter),
    nth_error (encode_alphabet sizeof_alphabet_T std_sort data) j = Some a
    /\ value a = v
    /\ freq a = wrap_size_t
                  (Z.of_nat (count_occ Z.eq_dec (encode_values sizeof_alphabet_T data) v)).
Proof.
  intros Hsort Hin.
  apply (encode_alphabet_In sizeof_alphabet_T Hsort) in Hin.
  apply in_map_iff in Hin. destruct Hin as (a & Ha & Hin).
  destruct (In_nth_error _ _ Hin) as [j Hj].
  exists j, a. split; [exact Hj|]. split; [exact Ha|].
  rewrite <- Ha. apply (encode_alphabet_freq sizeof_alphabet_T Hsort), Hin.
Qed.

(** The [PathInfo] of the symbol at position [j] of the alphabet. *)
Lemma symbol_path_of_rank (sizeof_alphabet_T : nat)
      (std_sort : list Letter -> list Letter) (data : list byte)
      (j : nat) (a : Letter) :
  sort_contract std_sort ->
  nth_error (encode_alphabet sizeof_alphabet_T std_sort data) j = Some a ->
  symbol_path sizeof_alphabet_T std_sort data (value a)
  = mkPathInfo (Z.of_nat j + 1 - 2 ^ Z.log2 (Z.of_nat j + 1))
               (Z.log2 (Z.of_nat j + 1)).
Proof.
  intros Hsort Hj.
  unfold symbol_path, encode_tree. rewrite build_tree_insert_all.
  set (symbols := map value (encode_alphabet sizeof_alphabet_T std_sort data)).
  assert (Hpos : Forall (fun x => 0 <= x) symbols).
  { pose proof (encode_alphabet_range sizeof_alphabet_T Hsort data) as Hr.
    revert Hr. apply Forall_impl. intros x Hx. lia. }
  assert (Hnd : NoDup symbols) by (apply encode_alphabet_NoDup, Hsort).
  assert (Hj' : nth_error symbols j = Some (value a))
    by (unfold symbols; rewrite nth_error_map, Hj; reflexivity).
  assert (Hne : symbols <> []) by (intros E; rewrite E in Hj'; destruct j; discriminate).
  destruct (insert_all_NoDup Hpos Hnd Hne) as [Hall Hndv].
  rewrite (@path_info_from_path _ _ _ Hndv (insert_all_paths Hall j Hj')).
  assert (Hrank : Z.pos (Pos.of_succ_nat j) = Z.of_nat j + 1)
    by (rewrite Zpos_P_of_succ_nat; lia).
  cbn [snd]. rewrite rank_path_value, rank_path_length, Hrank. reflexivity.
Qed.

(** X7. For one-byte and for two-byte symbols, the output of [encode]
    holds, between header and counter, the bits [method1] writes for the
    symbols of the input, one symbol after the other; for the symbol at
    position [j] (from 0) of the sorted alphabet these are the
    [max_depth_bits] low bits of the depth [log2 (j + 1)], then the
    [log2 (j + 1)] low bits of the path [j + 1 - 2 ^ log2 (j + 1)]. *)
Theorem code_length_of_rank
        (sizeof_alphabet_T : nat) (BitsNeeded : Z -> Z)
        (std_sort : list Letter -> list Letter) (data : list byte)
        (j : nat) (a : Letter) :
  sort_contract std_sort ->
  sizeof_alphabet_T = 1%nat \/ sizeof_alphabet_T = 2%nat ->
  nth_error (encode_alphabet sizeof_alphabet_T std_sort data) j = Some a ->
  encode_writes sizeof_alphabet_T BitsNeeded std_sort data
                (encode_symbol_bits sizeof_alphabet_T BitsNeeded std_sort data)
  /\ encode_symbol_bits sizeof_alphabet_T BitsNeeded std_sort data (value a)
     = map (Z.testbit (Z.log2 (Z.of_nat j + 1)))
           (zrange 0 (Z.to_nat (encode_max_depth_bits sizeof_alphabet_T BitsNeeded
                                                      std_sort data)))
       ++ map (Z.testbit (Z.of_nat j + 1 - 2 ^ Z.log2 (Z.of_nat j + 1)))
              (zrange 0 (Z.to_nat (Z.log2 (Z.of_nat j + 1))))
  /\ length (encode_symbol_bits sizeof_alphabet_T BitsNeeded std_sort data (value a))
     = (Z.to_nat (encode_max_depth_bits sizeof_alphabet_T BitsNeeded std_sort data)
        + Z.to_nat (Z.log2 (Z.of_nat j + 1)))%nat.
Proof.
  intros Hsort _ Hj.
  split; [apply encode_writes_symbol_bits|].
  rewrite encode_symbol_bits_code. unfold symbol_code, code_bits.
  rewrite (symbol_path_of_rank _ _ _ Hsort Hj). cbn [depth bit_path].
  split; [reflexivity|].
  rewrite length_app, !length_map, !length_zrange. reflexivity.
Qed.

(** In "ABBBCC" the symbol C is second in the alphabet: the depth bit 1
    is followed by the path bit 0. *)
Lemma code_length_of_rank_witness :
  encode_writes 1 Bits.BitsNeeded insertion_sort [x41; x42; x42; x42; x43; x43]
                (encode_symbol_bits 1 Bits.BitsNeeded insertion_sort
                                    [x41; x42; x42; x42; x43; x43])
  /\ encode_symbol_bits 1 Bits.BitsNeeded insertion_sort
                        [x41; x42; x42; x42; x43; x43] 67
     = map (Z.testbit (Z.log2 (Z.of_nat 1 + 1)))
           (zrange 0 (Z.to_nat (encode_max_depth_bits 1 Bits.BitsNeeded insertion_sort
                                                      [x41; x42; x42; x42; x43; x43])))
       ++ map (Z.testbit (Z.of_nat 1 + 1 - 2 ^ Z.log2 (Z.of_nat 1 + 1)))
              (zrange 0 (Z.to_nat (Z.log2 (Z.of_nat 1 + 1))))
  /\ length (encode_symbol_bits 1 Bits.BitsNeeded insertion_sort
                                [x41; x42; x42; x42; x43; x43] 67)
     = (Z.to_nat (encode_max_depth_bits 1 Bits.BitsNeeded insertion_sort
                                        [x41; x42; x42; x42; x43; x43])
        + Z.to_nat (Z.log2 (Z.of_nat 1 + 1)))%nat.
Proof.
  apply (@code_length_of_rank 1 Bits.BitsNeeded insertion_sort
           [x41; x42; x42; x42; x43; x43] 1 (mkLetter 67 2)).
  - apply insertion_sort_contract.
  - left. reflexivity.
  - reflexivity.
Defined.

(** X8. For one-byte and for two-byte symbols: of two symbols of the
    input, the one that occurs more often never gets more bits in the
    output of [encode], which holds the bits [method1] writes for each
    symbol of the input. *)
Theorem more_frequent_code_not_longer
        (sizeof_alphabet_T : nat) (BitsNeeded : Z -> Z)
        (std_sort : list Letter -> list Letter) (data : list byte) (u v : Z) :
  sort_contract std_sort ->
  sizeof_alphabet_T = 1%nat \/ sizeof_alphabet_T = 2%nat ->
  Z.of_nat (length (encode_values sizeof_alphabet_T data)) < 2 ^ 64 ->
  In u (encode_values sizeof_alphabet_T data) ->
  In v (encode_values sizeof_alphabet_T data) ->
  (count_occ Z.eq_dec (encode_values sizeof_alphabet_T data) v
   < count_occ Z.eq_dec (encode_values sizeof_alphabet_T data) u)%nat ->
  encode_writes sizeof_alphabet_T BitsNeeded std_sort data
                (encode_symbol_bits sizeof_alphabet_T BitsNeeded std_sort data)
  /\ (length (encode_symbol_bits sizeof_alphabet_T BitsNeeded std_sort data u)
      <= length (encode_symbol_bits sizeof_alphabet_T BitsNeeded std_sort data v))%nat.
Proof.
  intros Hsort _ Hsize Hu Hv Hlt.
  split; [apply encode_writes_symbol_bits|].
  destruct (encode_alphabet_position sizeof_alphabet_T data u Hsort Hu)
    as (i & a & Hi & Ea & Fa).
  destruct (encode_alphabet_position sizeof_alphabet_T data v Hsort Hv)
    as (j & b & Hj & Eb & Fb).
  pose proof (count_occ_bound Z.eq_dec u (encode_values sizeof_alphabet_T data)) as Bu.
  pose proof (count_occ_bound Z.eq_dec v (encode_values sizeof_alphabet_T data)) as Bv.
  unfold wrap_size_t in Fa, Fb.
  rewrite Z.mod_small in Fa by lia. rewrite Z.mod_small in Fb by lia.
  assert (Hij : (i < j)%nat).
  { destruct (Nat.lt_trichotomy i j) as [H | [H | H]]; [exact H | |].
    - subst j. rewrite Hi in Hj. injection Hj as <-. lia.
    - assert (Hs : StronglySorted (fun a b => freq b <= freq a)
                     (encode_alphabet sizeof_alphabet_T std_sort data))
        by apply Hsort.
      pose proof (StronglySorted_nth_error Hs H Hj Hi) as Hle.
      cbv beta in Hle. lia. }
  rewrite !encode_symbol_bits_code. unfold symbol_code. rewrite !length_code_bits.
  rewrite <- Ea, <- Eb.
  rewrite (symbol_path_rank _ _ _ Hsort Hi), (symbol_path_rank _ _ _ Hsort Hj).
  assert (Z.log2 (Z.of_nat i + 1) <= Z.log2 (Z.of_nat j + 1))
    by (apply Z.log2_le_mono; lia).
  lia.
Qed.

(** In "ABBBCC" the byte B occurs three times and the byte A once. *)
Lemma more_frequent_code_not_longer_witness :
  encode_writes 1 Bits.BitsNeeded insertion_sort [x41; x42; x42; x42; x43; x43]
                (encode_symbol_bits 1 Bits.BitsNeeded insertion_sort
                                    [x41; x42; x42; x42; x43; x43])
  /\ (length (encode_symbol_bits 1 Bits.BitsNeeded insertion_sort
                                 [x41; x42; x42; x42; x43; x43] 66)
      <= length (encode_symbol_bits 1 Bits.BitsNeeded insertion_sort
                                    [x41; x42; x42; x42; x43; x43] 65))%nat.
Proof.
  apply (@more_frequent_code_not_longer 1 Bits.BitsNeeded insertion_sort
           [x41; x42; x42; x42; x43; x43] 66 65).
  - apply insertion_sort_contract.
  - left. reflexivity.
  - vm_compute. reflexivity.
  - vm_compute. tauto.
  - vm_compute. tauto.
  - vm_compute. lia.
Defined.

(** ** The frequencies of the alphabet *)

Lemma count_occ_remove_other (l : list Z) (x y : Z) :
  x <> y ->
  count_occ Z.eq_dec (remove Z.eq_dec x l) y = count_occ Z.eq_dec l y.
Proof.
  intros Hxy. induction l as [|z l IH]; [reflexivity|].
  cbn [remove]. destruct (Z.eq_dec x z) as [<- | Hxz].
  - rewrite IH. symmetry. apply count_occ_cons_neq, Hxy.
  - cbn [count_occ]. destruct (Z.eq_dec z y); rewrite IH; reflexivity.
Qed.

Lemma length_remove_count_occ (l : list Z) (x : Z) :
  (length (remove Z.eq_dec x l) + count_occ Z.eq_dec l x = length l)%nat.
Proof.
  induction l as [|z l IH]; [reflexivity|].
  cbn [remove count_occ]. destruct (Z.eq_dec x z) as [<- | Hxz].
  - destruct (Z.eq_dec x x); [|contradiction]. cbn [length]. lia.
  - destruct (Z.eq_dec z x); [congruence|]. cbn [length]. lia.
Qed.

(** A table that lists every element of [l] once, with its number of
    occurrences, has the length of [l] as the sum of its frequencies. *)
Lemma total_freq_count_occ (alphabet : list Letter) :
  forall l : list Z,
    NoDup (map value alphabet) ->
    (forall x, In x l -> In x (map value alphabet)) ->
    (forall a, In a alphabet ->
               freq a = Z.of_nat (count_occ Z.eq_dec l (value a))) ->
    total_freq alphabet = Z.of_nat (length l).
Proof.
  induction alphabet as [|a alphabet IH]; intros l Hnd Hin Hfreq.
  - destruct l as [|x l]; [reflexivity|].
    destruct (Hin x (or_introl eq_refl)).
  - cbn [map] in Hnd. inversion Hnd as [|? ? Hna Hnd']; subst.
    cbn [total_freq].
    rewrite (IH (remove Z.eq_dec (value a) l) Hnd').
    + rewrite (Hfreq a (or_introl eq_refl)).
      pose proof (length_remove_count_occ l (value a)). lia.
    + intros x Hx. apply in_remove in Hx. destruct Hx as [Hx Hne].
      destruct (Hin x Hx) as [E | Hr]; [congruence | exact Hr].
    + intros b Hb. rewrite count_occ_remove_other.
      * apply Hfreq. right. exact Hb.
      * intros E. apply Hna. rewrite E. apply in_map, Hb.
Qed.

Lemma length_view_as_values (sizeof_alphabet_T : nat) (max_values : nat) :
  forall data, length (view_as_values sizeof_alphabet_T max_values data) = max_values.
Proof.
  induction max_values as [|k IH]; intros data; [reflexivity|].
  cbn [view_as_values length]. rewrite IH. reflexivity.
Qed.

(** X9. The frequencies of the alphabet add up to the number of symbols
    of the input, [size / sizeof(alphabet_T)], as long as that number fits
    in a [size_t]. *)
Theorem frequencies_sum_to_symbol_count
        (sizeof_alphabet_T : nat) (std_sort : list Letter -> list Letter)
        (data : list byte) :
  sort_contract std_sort ->
  Z.of_nat (length data / sizeof_alphabet_T) < 2 ^ 64 ->
  total_freq (encode_alphabet sizeof_alphabet_T std_sort data)
  = Z.of_nat (length data / sizeof_alphabet_T).
Proof.
  intros Hsort Hsize.
  assert (Hlen : length (encode_values sizeof_alphabet_T data)
                 = (length data / sizeof_alphabet_T)%nat)
    by apply length_view_as_values.
  rewrite <- Hlen. apply total_freq_count_occ.
  - apply encode_alphabet_NoDup, Hsort.
  - intros x Hx. apply (encode_alphabet_In sizeof_alphabet_T Hsort), Hx.
  - intros a Ha.
    rewrite (encode_alphabet_freq sizeof_alphabet_T Hsort data a Ha).
    pose proof (count_occ_bound Z.eq_dec (value a)
                                (encode_values sizeof_alphabet_T data)) as Hb.
    unfold wrap_size_t. apply Z.mod_small. lia.
Qed.

(** The six bytes "ABBBCC" as three two-byte symbols. *)
Lemma frequencies_sum_to_symbol_count_witness :
  total_freq (encode_alphabet 2 insertion_sort [x41; x42; x42; x42; x43; x43])
  = Z.of_nat (length [x41; x42; x42; x42; x43; x43] / 2).
Proof.
  apply (@frequencies_sum_to_symbol_count 2 insertion_sort
           [x41; x42; x42; x42; x43; x43]).
  - apply insertion_sort_contract.
  - vm_compute. reflexivity.
Defined.

(** ** Bytes behind the last whole symbol *)

Lemma view_as_values_app (sizeof_alphabet_T : nat) (extra : list byte)
      (max_values : nat) :
  forall data,
    (max_values * sizeof_alphabet_T <= length data)%nat ->
    view_as_values sizeof_alphabet_T max_values (data ++ extra)
    = view_as_values sizeof_alphabet_T max_values data.
Proof.
  induction max_values as [|k IH]; intros data Hlen; [reflexivity|].
  cbn [view_as_values]. f_equal.
  - rewrite firstn_app.
    replace (sizeof_alphabet_T - length data)%nat with O by lia.
    rewrite firstn_O, app_nil_r. reflexivity.
  - rewrite skipn_app.
    replace (sizeof_alphabet_T - length data)%nat with O by lia.
    rewrite skipn_O. apply IH. rewrite length_skipn. lia.
Qed.

(** X10. [encode] works on [size / sizeof(alphabet_T)] symbols: bytes
    behind the last whole symbol do not change its output. *)
Theorem encode_drops_partial_symbol
        (sizeof_alphabet_T : nat) (BitsNeeded : Z -> Z)
        (std_sort : list Letter -> list Letter) (data extra : list byte) :
  (length data mod sizeof_alphabet_T = 0)%nat ->
  (length extra < sizeof_alphabet_T)%nat ->
  encode sizeof_alphabet_T BitsNeeded std_sort (data ++ extra)
  = encode sizeof_alphabet_T BitsNeeded std_sort data.
Proof.
  intros Hmod Hextra.
  assert (Hw : sizeof_alphabet_T <> O) by lia.
  pose proof (Nat.div_mod_eq (length data) sizeof_alphabet_T) as Hdm.
  assert (Hdiv : (length (data ++ extra) / sizeof_alphabet_T
                  = length data / sizeof_alphabet_T)%nat).
  { rewrite length_app.
    rewrite Hdm at 1. rewrite Hmod, Nat.add_0_r.
    rewrite (Nat.mul_comm sizeof_alphabet_T), Nat.div_add_l by exact Hw.
    rewrite (Nat.div_small (length extra)) by exact Hextra. lia. }
  assert (Hvalues : encode_values sizeof_alphabet_T (data ++ extra)
                    = encode_values sizeof_alphabet_T data).
  { unfold encode_values. rewrite Hdiv. apply view_as_values_app.
    rewrite Hdm at 2. lia. }
  unfold encode, encode_writer, encode_header, encode_max_depth_bits,
    encode_tree, encode_alphabet, encode_occurrences.
  rewrite Hvalues. reflexivity.
Qed.

(** Two two-byte symbols followed by one more byte. *)
Lemma encode_drops_partial_symbol_witness :
  encode 2 Bits.BitsNeeded insertion_sort ([x41; x00; x42; x00] ++ [x43])
  = encode 2 Bits.BitsNeeded insertion_sort [x41; x00; x42; x00].
Proof.
  apply (@encode_drops_partial_symbol 2 Bits.BitsNeeded insertion_sort
           [x41; x00; x42; x00] [x43]).
  - reflexivity.
  - simpl. lia.
Defined.

(** ** [decode] on buffers that are too short *)

Lemma data_at_range (data : list byte) (i : nat) (b : Z) :
  data_at data i = Some b -> 0 <= b < 256 /\ (i < length data)%nat.
Proof.
  unfold data_at. intros H.
  destruct (nth_error data i) as [x|] eqn:E; [|discriminate].
  injection H as <-. split; [apply Z_of_byte_range|].
  apply nth_error_Some. rewrite E. discriminate.
Qed.

Lemma read_alphabet_short (data : list byte) (alphabet_size : nat) :
  forall read_bytes : nat,
    (length data < read_bytes + alphabet_size)%nat -> alphabet_size <> O ->
    read_alphabet data alphabet_size read_bytes = None.
Proof.
  induction alphabet_size as [|k IH]; intros rb Hlen Hne; [contradiction|].
  cbn [read_alphabet].
  destruct (data_at data rb) as [b|] eqn:E; [|reflexivity].
  apply data_at_range in E. destruct E as [_ Hrb].
  rewrite IH; [reflexivity | lia | lia].
Qed.

(** X11. [decode] reads its counter from the last four bytes and as many
    alphabet entries as the second byte announces, without looking at the
    size of the buffer: on a buffer of fewer than four bytes, or one that
    ends before the announced alphabet does, it reads outside the
    buffer. *)
Theorem decode_short_buffer (sizeof_alphabet_T : nat) (data : list byte) :
  (length data < 4)%nat
  \/ (exists alphabet_size_minus_1,
         data_at data 1 = Some alphabet_size_minus_1
         /\ Z.of_nat (length data) < 3 + alphabet_size_minus_1) ->
  decode sizeof_alphabet_T data = None.
Proof.
  intros H. unfold decode, decode_state.
  destruct (data_at data 0) as [b0|]; [|reflexivity].
  destruct (data_at data 1) as [b1|] eqn:E1; [|reflexivity].
  destruct H as [Hshort | (s & Hs & Hlen)].
  - unfold read_uint32_t_tail.
    rewrite (proj2 (Nat.ltb_lt _ _) Hshort). reflexivity.
  - injection Hs as <-. apply data_at_range in E1.
    destruct (read_uint32_t_tail data) as [written|]; [|reflexivity].
    rewrite read_alphabet_short; [reflexivity | lia | lia].
Qed.

(** A buffer of eight bytes that announces seven alphabet entries. *)
Lemma decode_short_buffer_witness :
  decode 1 [x01; x06; x41; x42; x00; x00; x00; x00] = None.
Proof.
  apply (@decode_short_buffer 1 [x01; x06; x41; x42; x00; x00; x00; x00]).
  right. exists 6. split; [reflexivity | simpl; lia].
Defined.

(** X12. The six bytes [encode] writes for the empty buffer cannot be
    decoded: the size byte 255 announces 256 alphabet entries, and
    [decode] reads them outside the buffer. *)
Theorem empty_encoding_not_decodable
        (sizeof_alphabet_T : nat) (BitsNeeded : Z -> Z)
        (std_sort : list Letter -> list Letter) :
  sort_contract std_sort ->
  decode sizeof_alphabet_T (encode sizeof_alphabet_T BitsNeeded std_sort []) = None.
Proof.
  intros Hsort.
  assert (E : encode sizeof_alphabet_T BitsNeeded std_sort []
              = [view_as_byte_t (BitsNeeded 0); xff; x00; x00; x00; x00]).
  { unfold encode, encode_writer, encode_header, encode_max_depth_bits,
      encode_tree, encode_alphabet, encode_occurrences.
    rewrite encode_values_nil. simpl store_contiguous.
    unfold construct_alphabet. cbn [fold_left].
    rewrite (sort_contract_nil Hsort). reflexivity. }
  rewrite E. unfold decode, decode_state.
  cbn [data_at nth_error option_map].
  replace (read_uint32_t_tail [view_as_byte_t (BitsNeeded 0); xff; x00; x00; x00; x00])
    with (Some 0) by reflexivity.
  rewrite read_alphabet_short; [reflexivity | | ].
  - change (Z_of_byte xff) with 255. cbn [length]. lia.
  - change (Z_of_byte xff) with 255. lia.
Qed.

Lemma empty_encoding_not_decodable_witness :
  decode 1 (encode 1 Bits.BitsNeeded insertion_sort []) = None.
Proof.
  apply (@empty_encoding_not_decodable 1 Bits.BitsNeeded insertion_sort).
  apply insertion_sort_contract.
Defined.

(** ** The progress of the loop of [decode] *)

Lemma read_bit_bits_read (data : list byte) (rd : Reader) (r : Z * Reader) :
  read_bit data rd = Some r -> bits_read (snd r) = bits_read rd + 1.
Proof.
  unfold read_bit. destruct (data_at data (read_bytes rd)); [|discriminate].
  intros H. injection H as <-. cbn [snd].
  destruct (read_bits_on_result_byte rd + 1 =? 8); reflexivity.
Qed.

Lemma read_depth_bits_read (data : list byte) (steps : nat) :
  forall (i : Z) (path : PathInfo) (rd : Reader) (r : PathInfo * Reader),
    read_depth data steps i path rd = Some r ->
    bits_read (snd r) = bits_read rd + Z.of_nat steps.
Proof.
  induction steps as [|k IH]; intros i path rd r H; cbn [read_depth] in H.
  - injection H as <-. cbn [snd]. lia.
  - destruct (read_bit data rd) as [b|] eqn:E; [|discriminate].
    rewrite (IH _ _ _ _ H), (read_bit_bits_read _ _ E). lia.
Qed.

Lemma read_bit_path_bits_read (data : list byte) (steps : nat) :
  forall (d : Z) (path : PathInfo) (rd : Reader) (r : PathInfo * Reader),
    read_bit_path data steps d path rd = Some r ->
    bits_read (snd r) = bits_read rd + Z.of_nat steps.
Proof.
  induction steps as [|k IH]; intros d path rd r H; cbn [read_bit_path] in H.
  - injection H as <-. cbn [snd]. lia.
  - destruct (read_bit data rd) as [b|] eqn:E; [|discriminate].
    rewrite (IH _ _ _ _ H), (read_bit_bits_read _ _ E). lia.
Qed.

(** Without depth bits an iteration reads nothing: the loop does not
    end. *)
Lemma decode_loop_no_depth_bits (sizeof_alphabet_T : nat) (data : list byte)
      (binary_tree : shared_node) (written : Z) (rd : Reader) (fuel : nat) :
  bits_read rd < written ->
  forall occurrences,
    decode_loop sizeof_alphabet_T fuel data binary_tree 0 written rd occurrences
    = None.
Proof.
  intros Hlt. apply Z.ltb_lt in Hlt.
  induction fuel as [|k IH]; intros occurrences; cbn [decode_loop];
    rewrite Hlt; [reflexivity|].
  change (Z.to_nat 0) with O. cbn [read_depth fst snd].
  change (Z.to_nat (depth PathInfo_default)) with O. cbn [read_bit_path fst snd].
  destruct (find_value sizeof_alphabet_T binary_tree PathInfo_default);
    [apply IH | reflexivity].
Qed.

(** X13. A buffer whose first byte announces no depth bit and whose
    counter is not zero has no decoding: an iteration of the loop of
    [decode] then reads no bit, and the loop does not end, however long it
    runs. *)
Theorem decode_without_depth_bits
        (sizeof_alphabet_T : nat) (data : list byte) (written : Z) :
  data_at data 0 = Some 0 ->
  read_uint32_t_tail data = Some written ->
  0 < written ->
  decode sizeof_alphabet_T data = None
  /\ forall (fuel : nat) (binary_tree : shared_node) (read_bytes : nat)
            (occurrences : list Occurrence),
       decode_loop sizeof_alphabet_T fuel data binary_tree 0 written
                   (mkReader read_bytes 0 0) occurrences
       = None.
Proof.
  intros H0 Hw Hpos. split.
  - unfold decode, decode_state. rewrite H0, Hw.
    destruct (data_at data 1) as [b1|]; [|reflexivity].
    destruct (read_alphabet data (Z.to_nat (b1 + 1)) 2) as [a|]; [|reflexivity].
    rewrite decode_loop_no_depth_bits; [reflexivity | exact Hpos].
  - intros fuel binary_tree read_bytes occurrences.
    apply decode_loop_no_depth_bits. exact Hpos.
Qed.

(** No depth bit, the alphabet "A", a counter of three bits. *)
Lemma decode_without_depth_bits_witness :
  decode 1 [x00; x00; x41; x00; x03; x00; x00; x00] = None
  /\ forall (fuel : nat) (binary_tree : shared_node) (read_bytes : nat)
            (occurrences : list Occurrence),
       decode_loop 1 fuel [x00; x00; x41; x00; x03; x00; x00; x00] binary_tree 0 3
                   (mkReader read_bytes 0 0) occurrences
       = None.
Proof.
  apply (@decode_without_depth_bits 1 [x00; x00; x41; x00; x03; x00; x00; x00] 3).
  - reflexivity.
  - reflexivity.
  - lia.
Defined.

(** With a depth bit, every iteration reads at least one bit: the loop is
    over after [written - bits_read] iterations at most. *)
Lemma decode_loop_more_fuel (sizeof_alphabet_T : nat) (data : list byte)
      (binary_tree : shared_node) (max_depth_bits written : Z) :
  1 <= max_depth_bits ->
  forall (fuel extra : nat) (rd : Reader) (occurrences : list Occurrence),
    written - bits_read rd <= Z.of_nat fuel ->
    decode_loop sizeof_alphabet_T (fuel + extra) data binary_tree max_depth_bits
                written rd occurrences
    = decode_loop sizeof_alphabet_T fuel data binary_tree max_depth_bits
                  written rd occurrences.
Proof.
  intros Hmdb. induction fuel as [|k IH]; intros extra rd occurrences Hfuel.
  - assert (E : (bits_read rd <? written) = false) by (apply Z.ltb_ge; lia).
    cbn [Nat.add]. destruct extra; cbn [decode_loop]; rewrite E; reflexivity.
  - cbn [Nat.add decode_loop].
    destruct (bits_read rd <? written); [|reflexivity].
    destruct (read_depth data (Z.to_nat max_depth_bits) 0 PathInfo_default rd)
      as [p1|] eqn:E1; [|reflexivity].
    destruct (read_bit_path data (Z.to_nat (depth (fst p1))) 0 (fst p1) (snd p1))
      as [p2|] eqn:E2; [|reflexivity].
    destruct (find_value sizeof_alphabet_T binary_tree (fst p2)); [|reflexivity].
    apply IH.
    rewrite (read_bit_path_bits_read _ _ _ _ _ E2), (read_depth_bits_read _ _ _ _ _ E1).
    lia.
Qed.

(** X14. When the header announces at least one depth bit, the loop of
    [decode] is over (or has read outside the buffer) after as many
    iterations as bits are left to read: letting it run longer changes
    nothing. *)
Theorem decode_loop_ends
        (sizeof_alphabet_T : nat) (data : list byte) (binary_tree : shared_node)
        (max_depth_bits written : Z) (rd : Reader)
        (occurrences : list Occurrence) (extra : nat) :
  1 <= max_depth_bits ->
  decode_loop sizeof_alphabet_T (Z.to_nat (written - bits_read rd) + extra)
              data binary_tree max_depth_bits written rd occurrences
  = decode_loop sizeof_alphabet_T (Z.to_nat (written - bits_read rd))
                data binary_tree max_depth_bits written rd occurrences.
Proof.
  intros Hmdb. apply decode_loop_more_fuel; [exact Hmdb | lia].
Qed.

(** The encoding of "AB", run for five iterations more than its three
    bits ask for. *)
Lemma decode_loop_ends_witness :
  decode_loop 1 (Z.to_nat (3 - bits_read (mkReader 4 0 0)) + 5)
              [x01; x01; x41; x42; x02; x03; x00; x00; x00]
              (insert_all [65; 66]) 1 3 (mkReader 4 0 0) []
  = decode_loop 1 (Z.to_nat (3 - bits_read (mkReader 4 0 0)))
                [x01; x01; x41; x42; x02; x03; x00; x00; x00]
                (insert_all [65; 66]) 1 3 (mkReader 4 0 0) [].
Proof.
  apply (@decode_loop_ends 1 [x01; x01; x41; x42; x02; x03; x00; x00; x00]
           (insert_all [65; 66]) 1 3 (mkReader 4 0 0) [] 5).
  lia.
Defined.

Lemma decode_loop_length (sizeof_alphabet_T : nat) (data : list byte)
      (binary_tree : shared_node) (max_depth_bits written : Z) :
  0 <= max_depth_bits ->
  forall (fuel : nat) (rd : Reader) (occurrences : list Occurrence)
         (st : Reader * list Occurrence),
    decode_loop sizeof_alphabet_T fuel data binary_tree max_depth_bits
                written rd occurrences = Some st ->
    Z.of_nat (length (snd st))
    <= Z.of_nat (length occurrences) + Z.max 0 (written - bits_read rd).
Proof.
  intros Hmdb.
  destruct (Z.eq_dec max_depth_bits 0) as [-> | Hne].
  - intros fuel rd occurrences st H.
    destruct (Z.ltb_spec (bits_read rd) written) as [Hlt | Hge].
    + rewrite decode_loop_no_depth_bits in H by exact Hlt. discriminate.
    + assert (E : (bits_read rd <? written) = false) by (apply Z.ltb_ge; lia).
      destruct fuel; cbn [decode_loop] in H; rewrite E in H;
        injection H as <-; cbn [snd]; lia.
  - induction fuel as [|k IH]; intros rd occurrences st H; cbn [decode_loop] in H;
      (destruct (Z.ltb_spec (bits_read rd) written) as [Hlt | Hge];
       [|injection H as <-; cbn [snd]; lia]); [discriminate|].
    destruct (read_depth data (Z.to_nat max_depth_bits) 0 PathInfo_default rd)
      as [p1|] eqn:E1; [|discriminate].
    destruct (read_bit_path data (Z.to_nat (depth (fst p1))) 0 (fst p1) (snd p1))
      as [p2|] eqn:E2; [|discriminate].
    destruct (find_value sizeof_alphabet_T binary_tree (fst p2)); [|discriminate].
    apply IH in H.
    rewrite (read_bit_path_bits_read _ _ _ _ _ E2),
      (read_depth_bits_read _ _ _ _ _ E1) in H.
    rewrite length_app in H. cbn [length] in H. lia.
Qed.

Lemma read_uint32_t_tail_range (data : list byte) (z : Z) :
  read_uint32_t_tail data = Some z -> 0 <= z < 2 ^ 32.
Proof.
  unfold read_uint32_t_tail. destruct (length data <? 4)%nat; [discriminate|].
  destruct (data_at data (length data - 4)) as [b0|] eqn:E0; [|discriminate].
  destruct (data_at data (length data - 4 + 1)) as [b1|] eqn:E1; [|discriminate].
  destruct (data_at data (length data - 4 + 2)) as [b2|] eqn:E2; [|discriminate].
  destruct (data_at data (length data - 4 + 3)) as [b3|] eqn:E3; [|discriminate].
  intros H.
  assert (E : z = b0 + 256 * b1 + 65536 * b2 + 16777216 * b3) by congruence.
  apply data_at_range in E0, E1, E2, E3.
  change (2 ^ 32) with 4294967296. lia.
Qed.

(** X15. [decode] never returns more bytes than the counter at the end of
    the buffer counts bits. *)
Theorem decode_output_length
        (sizeof_alphabet_T : nat) (data out : list byte) :
  decode sizeof_alphabet_T data = Some out ->
  exists written,
    read_uint32_t_tail data = Some written
    /\ Z.of_nat (length out) <= written.
Proof.
  unfold decode, decode_state. intros H.
  destruct (data_at data 0) as [b0|] eqn:E0; [|discriminate].
  destruct (data_at data 1) as [b1|]; [|discriminate].
  destruct (read_uint32_t_tail data) as [written|] eqn:Ew; [|discriminate].
  destruct (read_alphabet data (Z.to_nat (b1 + 1)) 2) as [a|]; [|discriminate].
  destruct (decode_loop sizeof_alphabet_T (Z.to_nat written) data
                        (build_tree (fst a)) b0 written (mkReader (snd a) 0 0) [])
    as [st|] eqn:El; [|discriminate].
  injection H as <-. exists written. split; [reflexivity|].
  apply data_at_range in E0. apply read_uint32_t_tail_range in Ew.
  apply decode_loop_length in El; [|lia].
  rewrite length_map. cbn [length bits_read] in El. lia.
Qed.

(** The encoding of "AB": two bytes from three bits. *)
Lemma decode_output_length_witness :
  exists written,
    read_uint32_t_tail [x01; x01; x41; x42; x02; x03; x00; x00; x00] = Some written
    /\ Z.of_nat (length [x41; x42]) <= written.
Proof.
  apply (@decode_output_length 1 [x01; x01; x41; x42; x02; x03; x00; x00; x00]
           [x41; x42]).
  vm_compute. reflexivity.
Defined.

(** ** What [decode] can return *)

Lemma find_node_value (k : nat) :
  forall (d bits : Z) (t : shared_node) (v : Z) (l r : shared_node),
    find_node k d bits t = Some (Node v l r) -> In v (values t).
Proof.
  induction k as [|k IH]; intros d bits t v l r H; cbn [find_node] in H.
  - injection H as ->. left. reflexivity.
  - destruct t as [|pv tl tr]; [discriminate|].
    apply IH in H. cbn [values]. right. apply in_or_app.
    destruct (Z.testbit bits d); [right | left]; exact H.
Qed.

Lemma find_value_in_tree (sizeof_alphabet_T : nat) (t : shared_node)
      (pathInfo : PathInfo) (v : Z) :
  find_value sizeof_alphabet_T t pathInfo = Some v ->
  In v (map (view_as_alphabet_T sizeof_alphabet_T) (values t)).
Proof.
  unfold find_value.
  destruct (find_node (Z.to_nat (depth pathInfo)) 0 (bit_path pathInfo) t)
    as [[|x l r]|] eqn:E; try discriminate.
  intros H. injection H as <-. apply in_map, (find_node_value _ _ _ _ E).
Qed.

Lemma decode_loop_values (sizeof_alphabet_T : nat) (data : list byte)
      (binary_tree : shared_node) (max_depth_bits written : Z) (fuel : nat) :
  forall (rd : Reader) (occurrences : list Occurrence)
         (st : Reader * list Occurrence),
    decode_loop sizeof_alphabet_T fuel data binary_tree max_depth_bits
                written rd occurrences = Some st ->
    forall o, In o (snd st) ->
      In o occurrences
      \/ In (letter_value o)
            (map (view_as_alphabet_T sizeof_alphabet_T) (values binary_tree)).
Proof.
  induction fuel as [|k IH]; intros rd occurrences st H o Ho;
    cbn [decode_loop] in H;
    (destruct (bits_read rd <? written);
     [|injection H as <-; left; exact Ho]); [discriminate|].
  destruct (read_depth data (Z.to_nat max_depth_bits) 0 PathInfo_default rd)
    as [p1|]; [|discriminate].
  destruct (read_bit_path data (Z.to_nat (depth (fst p1))) 0 (fst p1) (snd p1))
    as [p2|]; [|discriminate].
  destruct (find_value sizeof_alphabet_T binary_tree (fst p2)) as [v|] eqn:Ev;
    [|discriminate].
  destruct (IH _ _ _ H o Ho) as [Hin | Hin]; [|right; exact Hin].
  apply in_app_or in Hin. destruct Hin as [Hin | [<- | []]]; [left; exact Hin|].
  right. apply (find_value_in_tree _ _ _ Ev).
Qed.

Lemma view_as_byte_t_alphabet_T (sizeof_alphabet_T : nat) (b : byte) :
  (1 <= sizeof_alphabet_T)%nat ->
  view_as_byte_t (view_as_alphabet_T sizeof_alphabet_T (Z_of_byte b)) = b.
Proof.
  intros Hw. unfold view_as_alphabet_T.
  pose proof (Z_of_byte_range b) as Hb.
  assert (2 ^ 8 <= 2 ^ (8 * Z.of_nat sizeof_alphabet_T))
    by (apply Z.pow_le_mono_r; lia).
  rewrite Z.mod_small by (change (2 ^ 8) with 256 in *; lia).
  apply view_of_byte.
Qed.

(** X16. Every byte [decode] returns is one of the alphabet entries of
    the header: a path always ends on a node that holds one of them, the
    root included. *)
Theorem decoded_bytes_come_from_alphabet
        (sizeof_alphabet_T : nat) (data out : list byte) :
  (1 <= sizeof_alphabet_T)%nat ->
  decode sizeof_alphabet_T data = Some out ->
  exists alphabet_size_minus_1,
    data_at data 1 = Some alphabet_size_minus_1
    /\ forall b, In b out ->
                 In b (firstn (Z.to_nat (alphabet_size_minus_1 + 1)) (skipn 2 data)).
Proof.
  intros Hw. unfold decode, decode_state. intros H.
  destruct (data_at data 0) as [b0|]; [|discriminate].
  destruct (data_at data 1) as [b1|] eqn:E1; [|discriminate].
  destruct (read_uint32_t_tail data) as [written|]; [|discriminate].
  destruct (read_alphabet data (Z.to_nat (b1 + 1)) 2) as [a|] eqn:Ea; [|discriminate].
  destruct (decode_loop sizeof_alphabet_T (Z.to_nat written) data
                        (build_tree (fst a)) b0 written (mkReader (snd a) 0 0) [])
    as [st|] eqn:El; [|discriminate].
  injection H as <-. exists b1. split; [reflexivity|].
  apply data_at_range in E1. destruct E1 as [Hb1 _].
  set (n := Z.to_nat (b1 + 1)) in *.
  assert (Hn : n <> O) by (unfold n; lia).
  assert (Hlen : (2 + n <= length data)%nat).
  { destruct (le_lt_dec (2 + n) (length data)) as [Hle | Hlt]; [exact Hle|].
    rewrite read_alphabet_short in Ea by assumption. discriminate. }
  rewrite (read_alphabet_buffer _ Hlen) in Ea. injection Ea as <-.
  cbn [fst snd] in El.
  set (entries := firstn n (skipn 2 data)) in *.
  assert (Hentries : entries <> []).
  { intros E. apply (f_equal (@length byte)) in E. unfold entries in E.
    rewrite length_firstn, length_skipn in E. cbn [length] in E. lia. }
  rewrite build_tree_insert_all, map_map in El. cbn [value] in El.
  assert (Hvalid : Forall (fun s => s <> INVALID) (map Z_of_byte entries)).
  { apply Forall_forall. intros x Hx. apply in_map_iff in Hx.
    destruct Hx as (e & <- & _). pose proof (Z_of_byte_range e).
    unfold INVALID. lia. }
  assert (Hne : map Z_of_byte entries <> [])
    by (destruct entries; [contradiction | discriminate]).
  destruct (insert_all_values Hvalid Hne) as [_ Hperm].
  intros b Hb. apply in_map_iff in Hb. destruct Hb as (o & <- & Ho).
  destruct (decode_loop_values _ _ _ _ _ _ _ _ El o Ho) as [[] | Hin].
  apply in_map_iff in Hin. destruct Hin as (x & <- & Hx).
  apply (Permutation_in _ Hperm) in Hx.
  apply in_map_iff in Hx. destruct Hx as (e & <- & He).
  rewrite view_as_byte_t_alphabet_T by exact Hw. exact He.
Qed.

(** The encoding of "AB": both bytes are entries of the header. *)
Lemma decoded_bytes_come_from_alphabet_witness :
  exists alphabet_size_minus_1,
    data_at [x01; x01; x41; x42; x02; x03; x00; x00; x00] 1
    = Some alphabet_size_minus_1
    /\ forall b, In b [x41; x42] ->
                 In b (firstn (Z.to_nat (alphabet_size_minus_1 + 1))
                              (skipn 2 [x01; x01; x41; x42; x02; x03; x00; x00; x00])).
Proof.
  apply (@decoded_bytes_come_from_alphabet 1
           [x01; x01; x41; x42; x02; x03; x00; x00; x00] [x41; x42]).
  - lia.
  - vm_compute. reflexivity.
Defined.

(** ** The size of the output of [encode] *)

Lemma length_encode_header (sizeof_alphabet_T : nat) (BitsNeeded : Z -> Z)
      (std_sort : list Letter -> list Letter) (data : list byte) :
  length (encode_header sizeof_alphabet_T BitsNeeded std_sort data)
  = (2 + length (encode_alphabet sizeof_alphabet_T std_sort data))%nat.
Proof.
  unfold encode_header. rewrite length_app, length_map. reflexivity.
Qed.

(** X17. For one-byte and for two-byte symbols, the output of [encode]
    takes six bytes (two for the header, four for the counter), one byte
    per entry of the alphabet, and the path bits rounded up to whole
    bytes. *)
Theorem encode_length
        (sizeof_alphabet_T : nat) (BitsNeeded : Z -> Z)
        (std_sort : list Letter -> list Letter) (data : list byte) :
  sizeof_alphabet_T = 1%nat \/ sizeof_alphabet_T = 2%nat ->
  Z.of_nat (length (encode sizeof_alphabet_T BitsNeeded std_sort data))
  = 6 + Z.of_nat (length (encode_alphabet sizeof_alphabet_T std_sort data))
    + (Z.of_nat (length (encode_path_bits sizeof_alphabet_T BitsNeeded
                                          std_sort data)) + 7) / 8.
Proof.
  intros _.
  destruct (encode_layout sizeof_alphabet_T BitsNeeded std_sort data)
    as (body & padding & E & Hbody & Hpad).
  apply (f_equal (@length bool)) in Hbody.
  rewrite length_unpack, length_app, repeat_length in Hbody.
  rewrite E, !length_app, length_encode_header.
  unfold bytes_of_uint32_t. cbn [map length].
  assert (Hdiv : (Z.of_nat (length (encode_path_bits sizeof_alphabet_T BitsNeeded
                                                     std_sort data)) + 7) / 8
                 = Z.of_nat (length body)).
  { symmetry. apply Z.div_unique with (r := 7 - Z.of_nat padding); lia. }
  rewrite Hdiv. lia.
Qed.

(** "AAAB": two alphabet entries and five path bits, nine bytes. *)
Lemma encode_length_witness :
  Z.of_nat (length (encode 1 Bits.BitsNeeded insertion_sort [x41; x41; x41; x42]))
  = 6 + Z.of_nat (length (encode_alphabet 1 insertion_sort [x41; x41; x41; x42]))
    + (Z.of_nat (length (encode_path_bits 1 Bits.BitsNeeded insertion_sort
                                          [x41; x41; x41; x42])) + 7) / 8.
Proof.
  apply (@encode_length 1 Bits.BitsNeeded insertion_sort [x41; x41; x41; x42]).
  left. reflexivity.
Defined.

(** ** The size byte *)

Lemma view_as_byte_t_size_t (z : Z) :
  Z_of_byte (view_as_byte_t (wrap_size_t z)) = z mod 256.
Proof.
  rewrite Z_of_byte_view. unfold wrap_size_t.
  change (2 ^ 64) with 18446744073709551616.
  Z.div_mod_to_equations. lia.
Qed.

(** X18. For one-byte and for two-byte symbols, the second byte of the
    output holds the number of alphabet entries minus one, reduced to a
    byte.  The alphabet has at most [2 ^ (8 * sizeof(alphabet_T))]
    entries, so for one-byte symbols and a buffer that is not empty the
    byte holds that number exactly. *)
Theorem alphabet_size_byte
        (sizeof_alphabet_T : nat) (BitsNeeded : Z -> Z)
        (std_sort : list Letter -> list Letter) (data : list byte) :
  sort_contract std_sort ->
  sizeof_alphabet_T = 1%nat \/ sizeof_alphabet_T = 2%nat ->
  data_at (encode sizeof_alphabet_T BitsNeeded std_sort data) 1
  = Some ((Z.of_nat (length (encode_alphabet sizeof_alphabet_T std_sort data)) - 1)
          mod 256)
  /\ Z.of_nat (length (encode_alphabet sizeof_alphabet_T std_sort data))
     <= 2 ^ (8 * Z.of_nat sizeof_alphabet_T)
  /\ (sizeof_alphabet_T = 1%nat -> data <> [] ->
      (Z.of_nat (length (encode_alphabet sizeof_alphabet_T std_sort data)) - 1)
      mod 256
      = Z.of_nat (length (encode_alphabet sizeof_alphabet_T std_sort data)) - 1).
Proof.
  intros Hsort _.
  pose proof (alphabet_length_symbol_width sizeof_alphabet_T data Hsort) as Hmax.
  split; [|split; [exact Hmax|]].
  - destruct (encode_layout sizeof_alphabet_T BitsNeeded std_sort data)
      as (body & padding & E & _).
    rewrite E. unfold encode_header, data_at.
    cbn [app nth_error option_map]. rewrite view_as_byte_t_size_t. reflexivity.
  - intros -> Hdata. change (2 ^ (8 * Z.of_nat 1)) with 256 in Hmax.
    assert (Hne : map value (encode_alphabet 1 std_sort data) <> []).
    { apply (encode_alphabet_not_nil 1 Hsort data).
      rewrite encode_values_bytes. destruct data; [contradiction | discriminate]. }
    assert (1 <= Z.of_nat (length (encode_alphabet 1 std_sort data))).
    { destruct (encode_alphabet 1 std_sort data); [contradiction|].
      cbn [length]. lia. }
    apply Z.mod_small. lia.
Qed.

(** The buffer "ABBC": three entries, the size byte is 2. *)
Lemma alphabet_size_byte_witness :
  data_at (encode 1 Bits.BitsNeeded insertion_sort [x41; x42; x42; x43]) 1
  = Some ((Z.of_nat (length (encode_alphabet 1 insertion_sort [x41; x42; x42; x43])) - 1)
          mod 256)
  /\ Z.of_nat (length (encode_alphabet 1 insertion_sort [x41; x42; x42; x43]))
     <= 2 ^ (8 * Z.of_nat 1)
  /\ (1%nat = 1%nat -> [x41; x42; x42; x43] <> [] ->
      (Z.of_nat (length (encode_alphabet 1 insertion_sort [x41; x42; x42; x43])) - 1)
      mod 256
      = Z.of_nat (length (encode_alphabet 1 insertion_sort [x41; x42; x42; x43])) - 1).
Proof.
  apply (@alphabet_size_byte 1 Bits.BitsNeeded insertion_sort [x41; x42; x42; x43]).
  - apply insertion_sort_contract.
  - left. reflexivity.
Defined.

(** ** The codes of different symbols *)

Lemma in_zrange (n : nat) :
  forall (i z : Z), i <= z < i + Z.of_nat n -> In z (zrange i n).
Proof.
  induction n as [|n IH]; intros i z Hz; [lia|].
  cbn [zrange]. destruct (Z.eq_dec i z) as [-> | Hne]; [left; reflexivity|].
  right. apply IH. lia.
Qed.

Lemma map_zrange_testbit (x y : Z) (n : nat) :
  map (Z.testbit x) (zrange 0 n) = map (Z.testbit y) (zrange 0 n) ->
  forall i, 0 <= i < Z.of_nat n -> Z.testbit x i = Z.testbit y i.
Proof.
  intros H i Hi.
  apply (proj1 (@map_ext_in_iff _ _ _ _ _) H). apply in_zrange. lia.
Qed.

Lemma app_same_length {A} (a b x y : list A) :
  length a = length b -> a ++ x = b ++ y -> a = b /\ x = y.
Proof.
  revert b. induction a as [|h a IH]; intros [|h' b] Hlen H;
    try discriminate.
  - split; [reflexivity | exact H].
  - cbn [app] in H. injection H as -> H. cbn [length] in Hlen.
    destruct (IH b) as [-> ->]; [lia | exact H | split; reflexivity].
Qed.

Lemma testbit_above (x n i : Z) :
  0 <= x < 2 ^ n -> 0 <= n <= i -> Z.testbit x i = false.
Proof.
  intros Hx Hi. apply testbit_small; [|lia].
  assert (2 ^ n <= 2 ^ i) by (apply Z.pow_le_mono_r; lia). lia.
Qed.

Lemma encode_tree_log2_height (sizeof_alphabet_T : nat)
      (std_sort : list Letter -> list Letter) (data : list byte) :
  sort_contract std_sort ->
  encode_values sizeof_alphabet_T data <> [] ->
  height (encode_tree sizeof_alphabet_T std_sort data)
  <= 8 * Z.of_nat sizeof_alphabet_T.
Proof.
  intros Hsort Hne.
  pose proof (alphabet_T_not_INVALID
                (encode_alphabet_range sizeof_alphabet_T Hsort data)) as Hvalid.
  pose proof (encode_alphabet_not_nil sizeof_alphabet_T Hsort data Hne) as Hnn.
  destruct (insert_all_shape Hvalid Hnn) as (Hbal & Hsize & _).
  destruct (insert_all_values Hvalid Hnn) as [Hroot _].
  unfold encode_tree. rewrite build_tree_insert_all.
  rewrite (balanced_height Hbal (root_value_not_null Hroot)), Hsize, length_map.
  pose proof (alphabet_length_symbol_width sizeof_alphabet_T data Hsort) as Hmax.
  rewrite <- (Z.log2_pow2 (8 * Z.of_nat sizeof_alphabet_T)) by lia.
  apply Z.log2_le_mono, Hmax.
Qed.

(** For one-byte and for two-byte symbols every depth of the tree that
    [encode] builds is an index of the bit path: [path_info], [method1] and
    [find_value] stay within the bitset. *)
Lemma bit_path_index_in_range (sizeof_alphabet_T : nat)
      (std_sort : list Letter -> list Letter) (data : list byte) :
  sort_contract std_sort ->
  sizeof_alphabet_T = 1%nat \/ sizeof_alphabet_T = 2%nat ->
  height (encode_tree sizeof_alphabet_T std_sort data)
  < bit_path_size sizeof_alphabet_T.
Proof.
  intros Hsort Hw.
  destruct (encode_values sizeof_alphabet_T data) as [|x xs] eqn:E.
  - unfold encode_tree, encode_alphabet, encode_occurrences. rewrite E.
    simpl store_contiguous. unfold construct_alphabet. cbn [fold_left].
    rewrite (sort_contract_nil Hsort).
    destruct Hw as [-> | ->]; reflexivity.
  - assert (Hne : encode_values sizeof_alphabet_T data <> [])
      by (rewrite E; discriminate).
    pose proof (encode_tree_log2_height sizeof_alphabet_T data Hsort Hne) as Hh.
    destruct Hw as [-> | ->]; cbn [bit_path_size]; lia.
Qed.

(** No code is the beginning of the code of another symbol. *)
Lemma symbol_code_prefix_free
        (sizeof_alphabet_T : nat) (BitsNeeded : Z -> Z)
        (std_sort : list Letter -> list Letter) (data : list byte)
        (u v : Z) :
  sort_contract std_sort ->
  bits_needed_contract BitsNeeded ->
  (sizeof_alphabet_T <= 8)%nat ->
  In u (encode_values sizeof_alphabet_T data) ->
  In v (encode_values sizeof_alphabet_T data) ->
  u <> v ->
  forall rest : list bool,
    symbol_code sizeof_alphabet_T BitsNeeded std_sort data v
    <> symbol_code sizeof_alphabet_T BitsNeeded std_sort data u ++ rest.
Proof.
  intros Hsort Hbits Hwidth Hu Hv Huv rest Hcode. apply Huv.
  assert (Hne : encode_values sizeof_alphabet_T data <> [])
    by (intros E; rewrite E in Hu; contradiction).
  pose proof (encode_tree_log2_height sizeof_alphabet_T data Hsort Hne) as Hh.
  pose proof (height_nonneg (encode_tree sizeof_alphabet_T std_sort data)) as Hh0.
  destruct (Hbits (height (encode_tree sizeof_alphabet_T std_sort data)))
    as [Hm Hfit]; [change (2 ^ 31) with 2147483648; lia|].
  destruct (symbol_path_found sizeof_alphabet_T Hsort data u Hu)
    as (ku & lu & ru & Hku & Hkuh & Hfu).
  destruct (symbol_path_found sizeof_alphabet_T Hsort data v Hv)
    as (kv & lv & rv & Hkv & Hkvh & Hfv).
  unfold symbol_code, code_bits in Hcode. rewrite <- app_assoc in Hcode.
  apply app_same_length in Hcode;
    [|rewrite !length_map, !length_zrange; reflexivity].
  destruct Hcode as [Hdepth Hpath].
  fold (encode_max_depth_bits sizeof_alphabet_T BitsNeeded std_sort data) in Hm, Hfit.
  assert (Ed : depth (symbol_path sizeof_alphabet_T std_sort data v)
               = depth (symbol_path sizeof_alphabet_T std_sort data u)).
  { apply Z.bits_inj'. intros i Hi.
    destruct (Z.lt_ge_cases i
                (encode_max_depth_bits sizeof_alphabet_T BitsNeeded std_sort data))
      as [Hlt | Hge].
    - apply (map_zrange_testbit _ _ _ Hdepth). lia.
    - rewrite !(@testbit_above _ (encode_max_depth_bits sizeof_alphabet_T BitsNeeded
                                                        std_sort data) i);
        [reflexivity | lia | lia | lia | lia]. }
  rewrite Ed in Hpath.
  assert (Hrest : rest = []).
  { apply (f_equal (@length bool)) in Hpath.
    rewrite length_app, !length_map, !length_zrange in Hpath.
    destruct rest; [reflexivity | cbn [length] in Hpath; lia]. }
  subst rest. rewrite app_nil_r in Hpath.
  assert (Ek : kv = ku) by lia. subst kv.
  rewrite (@find_node_ext ku 0
             (bit_path (symbol_path sizeof_alphabet_T std_sort data v))
             (bit_path (symbol_path sizeof_alphabet_T std_sort data u))) in Hfv.
  - rewrite Hfu in Hfv. injection Hfv as -> _ _. reflexivity.
  - intros i Hi. apply (map_zrange_testbit _ _ _ Hpath). lia.
Qed.


Lemma app_eq_prefix {A} (a b x y : list A) :
  a ++ x = b ++ y -> (exists r, b = a ++ r) \/ (exists r, a = b ++ r).
Proof.
  revert b. induction a as [|h a IH]; intros b H.
  - left. exists b. reflexivity.
  - destruct b as [|h' b]; [right; exists (h :: a); reflexivity|].
    cbn [app] in H. injection H as -> H.
    destruct (IH b H) as [[r ->] | [r ->]]; [left | right]; exists r; reflexivity.
Qed.

(** A sequence of codes splits into codes in one way only, as soon as no
    code is empty and none is the beginning of another. *)
Lemma unique_splitting (code : Z -> list bool) (symbols : list Z) :
  (forall u, In u symbols -> code u <> []) ->
  (forall u v rest, In u symbols -> In v symbols -> code v = code u ++ rest -> u = v) ->
  forall us vs,
    incl us symbols -> incl vs symbols ->
    flat_map code us = flat_map code vs -> us = vs.
Proof.
  intros Hne Hprefix. induction us as [|u us IH]; intros vs Hus Hvs H.
  - destruct vs as [|v vs]; [reflexivity|]. exfalso.
    cbn [flat_map] in H. symmetry in H. apply app_eq_nil in H.
    apply (Hne v); [apply Hvs; left; reflexivity | apply H].
  - destruct vs as [|v vs].
    + exfalso. cbn [flat_map] in H. apply app_eq_nil in H.
      apply (Hne u); [apply Hus; left; reflexivity | apply H].
    + cbn [flat_map] in H.
      assert (Hu : In u symbols) by (apply Hus; left; reflexivity).
      assert (Hv : In v symbols) by (apply Hvs; left; reflexivity).
      assert (E : u = v).
      { destruct (app_eq_prefix _ _ _ _ H) as [[r Hr] | [r Hr]].
        - apply (Hprefix u v r Hu Hv Hr).
        - symmetry. apply (Hprefix v u r Hv Hu Hr). }
      subst v. apply app_inv_head in H. f_equal.
      apply IH; [| |exact H]; intros x Hx; [apply Hus | apply Hvs]; right; exact Hx.
Qed.

(** X19. For one-byte and for two-byte symbols, the bits [method1] writes
    for a symbol of the input are never the beginning of the bits it writes
    for another one; when the header announces at least one depth bit, a
    sequence of such codes, as [encode] puts it between header and counter,
    therefore splits into codes in one way only. *)
Theorem codes_prefix_free
        (sizeof_alphabet_T : nat) (BitsNeeded : Z -> Z)
        (std_sort : list Letter -> list Letter) (data : list byte) :
  sort_contract std_sort ->
  bits_needed_contract BitsNeeded ->
  sizeof_alphabet_T = 1%nat \/ sizeof_alphabet_T = 2%nat ->
  encode_writes sizeof_alphabet_T BitsNeeded std_sort data
                (encode_symbol_bits sizeof_alphabet_T BitsNeeded std_sort data)
  /\ (forall (u v : Z) (rest : list bool),
        In u (encode_values sizeof_alphabet_T data) ->
        In v (encode_values sizeof_alphabet_T data) ->
        u <> v ->
        encode_symbol_bits sizeof_alphabet_T BitsNeeded std_sort data v
        <> encode_symbol_bits sizeof_alphabet_T BitsNeeded std_sort data u ++ rest)
  /\ (encode_max_depth_bits sizeof_alphabet_T BitsNeeded std_sort data <> 0 ->
      forall us vs : list Z,
        incl us (encode_values sizeof_alphabet_T data) ->
        incl vs (encode_values sizeof_alphabet_T data) ->
        flat_map (encode_symbol_bits sizeof_alphabet_T BitsNeeded std_sort data) us
        = flat_map (encode_symbol_bits sizeof_alphabet_T BitsNeeded std_sort data) vs ->
        us = vs).
Proof.
  intros Hsort Hbits Hw.
  assert (Hwidth : (sizeof_alphabet_T <= 8)%nat) by (destruct Hw; lia).
  assert (Hprefix : forall (u v : Z) (rest : list bool),
             In u (encode_values sizeof_alphabet_T data) ->
             In v (encode_values sizeof_alphabet_T data) ->
             encode_symbol_bits sizeof_alphabet_T BitsNeeded std_sort data v
             = encode_symbol_bits sizeof_alphabet_T BitsNeeded std_sort data u ++ rest ->
             u = v).
  { intros u v rest Hu Hv E. rewrite !encode_symbol_bits_code in E.
    destruct (Z.eq_dec u v) as [Heq | Hneq]; [exact Heq|].
    destruct (@symbol_code_prefix_free sizeof_alphabet_T BitsNeeded std_sort data u v
                Hsort Hbits Hwidth Hu Hv Hneq rest E). }
  split; [apply encode_writes_symbol_bits|].
  split.
  - intros u v rest Hu Hv Huv E. apply Huv, (Hprefix u v rest Hu Hv E).
  - intros Hmdb. apply unique_splitting; [|exact Hprefix].
    intros u Hu E. apply (f_equal (@length bool)) in E.
    rewrite encode_symbol_bits_code in E. unfold symbol_code in E.
    rewrite length_code_bits in E. cbn [length] in E.
    assert (Hne : encode_values sizeof_alphabet_T data <> [])
      by (intros En; rewrite En in Hu; contradiction).
    pose proof (encode_tree_log2_height sizeof_alphabet_T data Hsort Hne) as Hh.
    pose proof (height_nonneg (encode_tree sizeof_alphabet_T std_sort data)) as Hh0.
    destruct (Hbits (height (encode_tree sizeof_alphabet_T std_sort data)))
      as [Hm _]; [change (2 ^ 31) with 2147483648; lia|].
    fold (encode_max_depth_bits sizeof_alphabet_T BitsNeeded std_sort data) in Hm.
    lia.
Qed.

(** The buffer "ABBBCC": one depth bit, three codes. *)
Lemma codes_prefix_free_witness :
  encode_writes 1 Bits.BitsNeeded insertion_sort [x41; x42; x42; x42; x43; x43]
                (encode_symbol_bits 1 Bits.BitsNeeded insertion_sort
                                    [x41; x42; x42; x42; x43; x43])
  /\ (forall (u v : Z) (rest : list bool),
        In u (encode_values 1 [x41; x42; x42; x42; x43; x43]) ->
        In v (encode_values 1 [x41; x42; x42; x42; x43; x43]) ->
        u <> v ->
        encode_symbol_bits 1 Bits.BitsNeeded insertion_sort
                           [x41; x42; x42; x42; x43; x43] v
        <> encode_symbol_bits 1 Bits.BitsNeeded insertion_sort
                              [x41; x42; x42; x42; x43; x43] u ++ rest)
  /\ (encode_max_depth_bits 1 Bits.BitsNeeded insertion_sort
                            [x41; x42; x42; x42; x43; x43] <> 0 ->
      forall us vs : list Z,
        incl us (encode_values 1 [x41; x42; x42; x42; x43; x43]) ->
        incl vs (encode_values 1 [x41; x42; x42; x42; x43; x43]) ->
        flat_map (encode_symbol_bits 1 Bits.BitsNeeded insertion_sort
                                     [x41; x42; x42; x42; x43; x43]) us
        = flat_map (encode_symbol_bits 1 Bits.BitsNeeded insertion_sort
                                       [x41; x42; x42; x42; x43; x43]) vs ->
        us = vs).
Proof.
  apply (@codes_prefix_free 1 Bits.BitsNeeded insertion_sort
           [x41; x42; x42; x42; x43; x43]).
  - apply insertion_sort_contract.
  - apply BitsNeeded_contract.
  - left. reflexivity.
Defined.
